(** * IR-Resources: text normalisation and retrieval core

    A shallow embedding of the Python sources
      - [Ass3/group_008_p3/ir_core/stemming.py]   (Porter stemmer),
      - [Ass2/group_008_p2/ir_core/stopwords.py] and
        [Ass2/group_008_p2_old_test_cases_2/ir_core/stopwords.py]
        (stopword filters),
      - [Ass3/group_008_p3/ir_core/retrieval.py]  (Boolean and vector
        space search, precision and recall),
      - [Ass2/group_008_p2_old_test_cases_2/ir_core/retrieval.py] (the
        earlier Boolean search),
      - [Ass2/group_008_p2_old_test_cases_2/ir_core/collection.py] (the
        loader of a collection),
      - the loops of the handlers of
        [Ass2/group_008_p2_old_test_cases_2/main.py] and
        [Ass3/group_008_p3/main.py],
    together with the properties the specification states about them and
    further properties read off the sources.

    Conventions of the embedding.
      - A Python [str] is a list of 8-bit characters ([list ascii]);
        the characters are read as ASCII, [str.lower()] is ASCII case
        folding and [str.split()] splits at the ASCII white space
        characters.
      - A Python [list] is a [list]; a [set] is a [gset]; a [dict] whose
        iteration order is observable is an insertion-ordered association
        list ([Dict]), every other [dict] is a [gmap].
      - A Python [int] is a [nat] when it is a length or a counter and a
        [Z] when it is a document identifier.
      - A Python [float] is an element of an arithmetic interface
        ([Float], [FloatLe], [FloatLog]); the development instantiates
        it with the real numbers and, for the operations that IEEE
        binary64 offers, with Rocq's primitive floats.  The divisions and
        logarithms of the sources are guarded (no division by zero, no
        logarithm of zero), so no exception is modelled. *)

From Stdlib Require Import Ascii String Reals Lra Floats.
From stdpp Require Import gmap strings list.

(** ** Python strings *)

Abbreviation str := (list ascii).

(** String literals of the source. *)
Definition lit (s : string) : str := list_ascii_of_string s.

Definition is_upper (c : ascii) : bool :=
  let n := nat_of_ascii c in (65 <=? n) && (n <=? 90).

(** [c.lower()] on one ASCII character. *)
Definition lower_char (c : ascii) : ascii :=
  if is_upper c then ascii_of_nat (nat_of_ascii c + 32) else c.

(** [s.lower()] *)
Definition lower (s : str) : str := map lower_char s.

(** The ASCII characters for which [str.isspace()] holds: TAB, LF, VT,
    FF, CR, the separators FS GS RS US, and SPACE. *)
Definition is_space (c : ascii) : bool :=
  let n := nat_of_ascii c in
  ((9 <=? n) && (n <=? 13)) || ((28 <=? n) && (n <=? 32)).

Fixpoint lstrip (s : str) : str :=
  match s with
  | [] => []
  | c :: s' => if is_space c then lstrip s' else s
  end.

(** [s.strip()] *)
Definition strip (s : str) : str := rev (lstrip (rev (lstrip s))).

(** [s.split()]: the maximal runs of non-space characters, in order.
    [cur] is the run being read and [acc] the runs already closed. *)
Definition close_run (cur : str) (acc : list str) : list str :=
  match cur with [] => acc | _ => acc ++ [cur] end.

Fixpoint split_go (s cur : str) (acc : list str) : list str :=
  match s with
  | [] => close_run cur acc
  | c :: s' =>
      if is_space c then split_go s' [] (close_run cur acc)
      else split_go s' (cur ++ [c]) acc
  end.

Definition split (s : str) : list str := split_go s [] [].

(** [c in chars] for a one-character string [c]. *)
Definition char_in (c : ascii) (chars : string) : bool :=
  bool_decide (c ∈ lit chars).

(** [word.endswith(suffix)] *)
Definition endswith (word suffix : str) : bool :=
  (length suffix <=? length word) &&
  bool_decide (drop (length word - length suffix) word = suffix).

(** [word[:-k]] for a positive [k]. *)
Definition drop_last (k : nat) (word : str) : str :=
  take (length word - k) word.

(** [word[-k]]: the [k]-th character from the end, [None] when there is
    none (the source indexes from the end under a length guard only). *)
Definition char_from_end (k : nat) (word : str) : option ascii :=
  if (k <=? length word) && (1 <=? k) then word !! (length word - k) else None.

(** ** The Porter stemmer ([stemming.py])

    The functions of this module are total: they give the value that the
    source returns when it returns.  Where the source raises because its
    calls nest too deep is the subject of [StemmingFrames] below. *)

Module Stemming.

(** [is_consonant(word, i)].  The index is a natural number: every call
    of the source passes an index that is at least 0, so the [i < 0]
    test of the source is never taken. *)
Fixpoint is_consonant (word : str) (i : nat) : bool :=
  match word !! i with
  | None => false
  | Some c =>
      let char := lower_char c in
      if char_in char "aeiou" then false
      else if bool_decide (char = "y"%char) then
        match i with
        | 0 => true
        | S j => negb (is_consonant word j)
        end
      else true
  end.

(** The two inner [while] loops of [measure]:
    [while i < n and is_consonant(word, i) == cons: i += 1]. *)
Fixpoint skip_run (word : str) (cons : bool) (fuel i : nat) : nat :=
  match fuel with
  | 0 => i
  | S fuel' =>
      if (i <? length word) && bool_decide (is_consonant word i = cons)
      then skip_run word cons fuel' (i + 1)
      else i
  end.

(** The outer [while i < n] loop of [measure]. *)
Fixpoint measure_loop (word : str) (fuel i m : nat) : nat :=
  match fuel with
  | 0 => m
  | S fuel' =>
      let n := length word in
      if i <? n then
        let i1 := skip_run word false n i in
        if n <=? i1 then m
        else
          let i2 := skip_run word true n i1 in
          measure_loop word fuel' i2 (m + 1)
      else m
  end.

(** [measure(word)] *)
Definition measure (word : str) : nat :=
  let n := length word in
  if n =? 0 then 0
  else measure_loop word n (skip_run word true n 0) 0.

(** [contains_vowel(word)] *)
Definition contains_vowel (word : str) : bool :=
  existsb (fun i => negb (is_consonant word i)) (seq 0 (length word)).

(** [ends_double_consonant(word)] *)
Definition ends_double_consonant (word : str) : bool :=
  if length word <? 2 then false
  else bool_decide (char_from_end 1 word = char_from_end 2 word) &&
       is_consonant word (length word - 1).

Definition last_in (word : str) (chars : string) : bool :=
  match char_from_end 1 word with
  | Some c => char_in c chars
  | None => false
  end.

(** [cvc_ending(word)] *)
Definition cvc_ending (word : str) : bool :=
  if length word <? 3 then false
  else
    let n := length word in
    is_consonant word (n - 3) &&
    negb (is_consonant word (n - 2)) &&
    is_consonant word (n - 1) &&
    negb (last_in word "wxy").

(** Step 1a *)
Definition step1a (word : str) : str :=
  if endswith word (lit "sses") then drop_last 2 word
  else if endswith word (lit "ies") then drop_last 2 word
  else if endswith word (lit "ss") then word
  else if endswith word (lit "s") && (1 <? length word) then drop_last 1 word
  else word.

(** The fix-up pass shared by the [ed] and [ing] branches of step 1b. *)
Definition step1b_post (word : str) : str :=
  if endswith word (lit "at") then word ++ lit "e"
  else if endswith word (lit "bl") then word ++ lit "e"
  else if endswith word (lit "iz") then word ++ lit "e"
  else if ends_double_consonant word && negb (last_in word "lsz")
       then drop_last 1 word
  else if (measure word =? 1) && cvc_ending word then word ++ lit "e"
  else word.

(** Step 1b *)
Definition step1b (word : str) : str :=
  if endswith word (lit "eed") then
    let stem := drop_last 3 word in
    if 0 <? measure stem then drop_last 1 word else word
  else if endswith word (lit "ed") then
    let stem := drop_last 2 word in
    if contains_vowel stem then step1b_post stem else word
  else if endswith word (lit "ing") then
    let stem := drop_last 3 word in
    if contains_vowel stem then step1b_post stem else word
  else word.

(** Step 1c *)
Definition step1c (word : str) : str :=
  if endswith word (lit "y") && contains_vowel (drop_last 1 word)
  then drop_last 1 word ++ lit "i"
  else word.

Definition step2_rules : list (str * str) :=
  [ (lit "ational", lit "ate"); (lit "tional", lit "tion");
    (lit "enci", lit "ence"); (lit "anci", lit "ance");
    (lit "izer", lit "ize"); (lit "abli", lit "able");
    (lit "alli", lit "al"); (lit "entli", lit "ent");
    (lit "eli", lit "e"); (lit "ousli", lit "ous");
    (lit "ization", lit "ize"); (lit "ation", lit "ate");
    (lit "ator", lit "ate"); (lit "alism", lit "al");
    (lit "iveness", lit "ive"); (lit "fulness", lit "ful");
    (lit "ousness", lit "ous"); (lit "aliti", lit "al");
    (lit "iviti", lit "ive"); (lit "biliti", lit "ble") ].

Definition step3_rules : list (str * str) :=
  [ (lit "icate", lit "ic"); (lit "ative", lit "");
    (lit "alize", lit "al"); (lit "iciti", lit "ic");
    (lit "ical", lit "ic"); (lit "ful", lit ""); (lit "ness", lit "") ].

Definition step4_rules : list str :=
  [ lit "al"; lit "ance"; lit "ence"; lit "er"; lit "ic"; lit "able";
    lit "ible"; lit "ant"; lit "ement"; lit "ment"; lit "ent"; lit "ion";
    lit "ou"; lit "ism"; lit "ate"; lit "iti"; lit "ous"; lit "ive";
    lit "ize" ].

(** The loop of steps 2 and 3:
    [for suffix, replacement in rules: if word.endswith(suffix): ...; break]. *)
Fixpoint replace_suffix (rules : list (str * str)) (word : str) : str :=
  match rules with
  | [] => word
  | (suffix, replacement) :: rules' =>
      if endswith word suffix then
        let stem := drop_last (length suffix) word in
        if 0 <? measure stem then stem ++ replacement else word
      else replace_suffix rules' word
  end.

(** The loop of step 4. *)
Fixpoint remove_suffix (rules : list str) (word : str) : str :=
  match rules with
  | [] => word
  | suffix :: rules' =>
      if endswith word suffix then
        let stem := drop_last (length suffix) word in
        if 1 <? measure stem then
          if bool_decide (suffix = lit "ion") && (0 <? length stem) &&
             last_in stem "st"
          then stem
          else if negb (bool_decide (suffix = lit "ion")) then stem
          else word
        else word
      else remove_suffix rules' word
  end.

(** Step 5a *)
Definition step5a (word : str) : str :=
  if endswith word (lit "e") then
    let stem := drop_last 1 word in
    let stem_measure := measure stem in
    if (1 <? stem_measure) || ((stem_measure =? 1) && negb (cvc_ending stem))
    then stem else word
  else word.

(** Step 5b *)
Definition step5b (word : str) : str :=
  if (1 <? measure word) && ends_double_consonant word &&
     endswith word (lit "l")
  then drop_last 1 word else word.

(** The rule cascade applied to the lowercased word. *)
Definition porter_steps (word : str) : str :=
  let word := step1a word in
  let word := step1b word in
  let word := step1c word in
  let word := replace_suffix step2_rules word in
  let word := replace_suffix step3_rules word in
  let word := remove_suffix step4_rules word in
  let word := step5a word in
  step5b word.

(** [stem_term(word)] *)
Definition stem_term (word : str) : str :=
  if length word <=? 2 then lower word
  else porter_steps (lower word).

End Stemming.

(** ** The stemmer under the recursion limit ([stemming.py])

    [is_consonant] calls itself once for every ['y'] of the unbroken run
    of ['y'] that ends at the position, and Python raises
    [RecursionError] when calls nest deeper than the interpreter allows
    (1000 frames by default, the callers of the stemmer included).  In
    [Stemming] the functions are total and give the value that the
    source returns when it returns.  The functions of this module take
    the number [frames] of calls that can still be nested when they are
    called, and give [None] where the source raises.  A call of a
    function of [stemming.py] takes one frame; the string methods
    ([lower], [endswith], slicing, [len]) are built in and take none.
    The conjunctions and disjunctions of the source are evaluated from
    left to right and stop at the first operand that decides them, and
    the loop of [contains_vowel] returns at the first vowel. *)
Module StemmingFrames.

(** [is_consonant(word, i)] *)
Fixpoint is_consonant (frames : nat) (word : str) (i : nat) {struct frames}
    : option bool :=
  match frames with
  | 0 => None
  | S frames =>
      match word !! i with
      | None => Some false
      | Some c =>
          let char := lower_char c in
          if char_in char "aeiou" then Some false
          else if bool_decide (char = "y"%char) then
            match i with
            | 0 => Some true
            | S j => negb <$> is_consonant frames word j
            end
          else Some true
      end
  end.

(** The two inner [while] loops of [measure]; [frames] is what is left
    in the body of [measure]. *)
Fixpoint skip_run (frames : nat) (word : str) (cons : bool) (fuel i : nat)
    : option nat :=
  match fuel with
  | 0 => Some i
  | S fuel' =>
      if i <? length word then
        c ← is_consonant frames word i;
        if bool_decide (c = cons) then skip_run frames word cons fuel' (i + 1)
        else Some i
      else Some i
  end.

(** The outer [while i < n] loop of [measure]. *)
Fixpoint measure_loop (frames : nat) (word : str) (fuel i m : nat)
    : option nat :=
  match fuel with
  | 0 => Some m
  | S fuel' =>
      let n := length word in
      if i <? n then
        i1 ← skip_run frames word false n i;
        if n <=? i1 then Some m
        else
          i2 ← skip_run frames word true n i1;
          measure_loop frames word fuel' i2 (m + 1)
      else Some m
  end.

(** [measure(word)] *)
Definition measure (frames : nat) (word : str) : option nat :=
  match frames with
  | 0 => None
  | S frames =>
      let n := length word in
      if n =? 0 then Some 0
      else
        i ← skip_run frames word true n 0;
        measure_loop frames word n i 0
  end.

(** The loop of [contains_vowel] over the indices that are left. *)
Fixpoint first_vowel (frames : nat) (word : str) (indices : list nat)
    : option bool :=
  match indices with
  | [] => Some false
  | i :: indices' =>
      c ← is_consonant frames word i;
      if negb c then Some true else first_vowel frames word indices'
  end.

(** [contains_vowel(word)] *)
Definition contains_vowel (frames : nat) (word : str) : option bool :=
  match frames with
  | 0 => None
  | S frames => first_vowel frames word (seq 0 (length word))
  end.

(** [ends_double_consonant(word)] *)
Definition ends_double_consonant (frames : nat) (word : str) : option bool :=
  match frames with
  | 0 => None
  | S frames =>
      if length word <? 2 then Some false
      else if bool_decide (char_from_end 1 word = char_from_end 2 word)
           then is_consonant frames word (length word - 1)
           else Some false
  end.

(** [cvc_ending(word)] *)
Definition cvc_ending (frames : nat) (word : str) : option bool :=
  match frames with
  | 0 => None
  | S frames =>
      if length word <? 3 then Some false
      else
        let n := length word in
        c1 ← is_consonant frames word (n - 3);
        if (c1 : bool) then
          c2 ← is_consonant frames word (n - 2);
          if negb c2 then
            c3 ← is_consonant frames word (n - 1);
            Some (c3 && negb (Stemming.last_in word "wxy"))
          else Some false
        else Some false
  end.

(** The fix-up pass shared by the [ed] and [ing] branches of step 1b. *)
Definition step1b_post (frames : nat) (word : str) : option str :=
  if endswith word (lit "at") then Some (word ++ lit "e")
  else if endswith word (lit "bl") then Some (word ++ lit "e")
  else if endswith word (lit "iz") then Some (word ++ lit "e")
  else
    double ← ends_double_consonant frames word;
    if double && negb (Stemming.last_in word "lsz")
    then Some (drop_last 1 word)
    else
      m ← measure frames word;
      if m =? 1 then
        cvc ← cvc_ending frames word;
        Some (if (cvc : bool) then word ++ lit "e" else word)
      else Some word.

(** Step 1b *)
Definition step1b (frames : nat) (word : str) : option str :=
  if endswith word (lit "eed") then
    let stem := drop_last 3 word in
    m ← measure frames stem;
    Some (if 0 <? m then drop_last 1 word else word)
  else if endswith word (lit "ed") then
    let stem := drop_last 2 word in
    vowel ← contains_vowel frames stem;
    if (vowel : bool) then step1b_post frames stem else Some word
  else if endswith word (lit "ing") then
    let stem := drop_last 3 word in
    vowel ← contains_vowel frames stem;
    if (vowel : bool) then step1b_post frames stem else Some word
  else Some word.

(** Step 1c *)
Definition step1c (frames : nat) (word : str) : option str :=
  if endswith word (lit "y") then
    vowel ← contains_vowel frames (drop_last 1 word);
    Some (if (vowel : bool) then drop_last 1 word ++ lit "i" else word)
  else Some word.

(** The loop of steps 2 and 3. *)
Fixpoint replace_suffix (frames : nat) (rules : list (str * str)) (word : str)
    : option str :=
  match rules with
  | [] => Some word
  | (suffix, replacement) :: rules' =>
      if endswith word suffix then
        let stem := drop_last (length suffix) word in
        m ← measure frames stem;
        Some (if 0 <? m then stem ++ replacement else word)
      else replace_suffix frames rules' word
  end.

(** The loop of step 4. *)
Fixpoint remove_suffix (frames : nat) (rules : list str) (word : str)
    : option str :=
  match rules with
  | [] => Some word
  | suffix :: rules' =>
      if endswith word suffix then
        let stem := drop_last (length suffix) word in
        m ← measure frames stem;
        Some (if 1 <? m then
                if bool_decide (suffix = lit "ion") && (0 <? length stem) &&
                   Stemming.last_in stem "st"
                then stem
                else if negb (bool_decide (suffix = lit "ion")) then stem
                else word
              else word)
      else remove_suffix frames rules' word
  end.

(** Step 5a *)
Definition step5a (frames : nat) (word : str) : option str :=
  if endswith word (lit "e") then
    let stem := drop_last 1 word in
    stem_measure ← measure frames stem;
    if 1 <? stem_measure then Some stem
    else if stem_measure =? 1 then
      cvc ← cvc_ending frames stem;
      Some (if negb cvc then stem else word)
    else Some word
  else Some word.

(** Step 5b *)
Definition step5b (frames : nat) (word : str) : option str :=
  m ← measure frames word;
  if 1 <? m then
    double ← ends_double_consonant frames word;
    Some (if double && endswith word (lit "l") then drop_last 1 word
          else word)
  else Some word.

(** The rule cascade applied to the lowercased word; [frames] is what is
    left in the body of [stem_term]. *)
Definition porter_steps (frames : nat) (word : str) : option str :=
  let word := Stemming.step1a word in
  word ← step1b frames word;
  word ← step1c frames word;
  word ← replace_suffix frames Stemming.step2_rules word;
  word ← replace_suffix frames Stemming.step3_rules word;
  word ← remove_suffix frames Stemming.step4_rules word;
  word ← step5a frames word;
  step5b frames word.

(** [stem_term(word)] *)
Definition stem_term (frames : nat) (word : str) : option str :=
  match frames with
  | 0 => None
  | S frames =>
      if length word <=? 2 then Some (lower word)
      else porter_steps frames (lower word)
  end.

End StemmingFrames.


(** ** Documents *)

(** Modelled from the spec: the [Document] class ([document.py]) is not
    among the sources.  The record has the fields of section 3 of the
    specification.  The sources read [filtered_terms], [stemmed_terms]
    and [filtered_stemmed_terms] either as an attribute or, when the
    attribute is callable, as the value of the call; a field of the
    record is that value. *)
Record Document := mkDocument {
  document_id : Z;
  title : str;
  raw_text : str;
  terms : list str;
  author : str;
  origin : str;
  filtered_terms : list str;
  stemmed_terms : list str;
  filtered_stemmed_terms : list str
}.

(** [doc.filtered_terms = v] (written [doc._filtered_terms = v] in the
    later sources). *)
Definition set_filtered_terms (doc : Document) (v : list str) : Document :=
  {| document_id := document_id doc; title := title doc;
     raw_text := raw_text doc; terms := terms doc; author := author doc;
     origin := origin doc; filtered_terms := v;
     stemmed_terms := stemmed_terms doc;
     filtered_stemmed_terms := filtered_stemmed_terms doc |}.

(** ** Floating point arithmetic as an interface *)

(** The arithmetic on [float] that the sources use.  [f_of_nat n] is the
    conversion of the integer [n], so that [f_div (f_of_nat a) (f_of_nat b)]
    is the true division [a / b] of two integers. *)
Class Float (F : Type) := {
  f_of_nat : nat → F;
  f_add : F → F → F;
  f_mul : F → F → F;
  f_div : F → F → F
}.

(** The comparison [x <= y]; [x >= y] is [f_leb y x]. *)
Class FloatLe (F : Type) := { f_leb : F → F → bool }.

(** [math.log] *)
Class FloatLog (F : Type) := { f_log : F → F }.

(** The literal [0.0]. *)
Definition f_zero {F} `{Float F} : F := f_of_nat 0.

(** Order laws of the arithmetic that the monotonicity of the scores
    rests on.  Real arithmetic satisfies them; so does any rounded
    arithmetic whose operations and logarithm are monotone. *)
Class FloatOrder (F : Type) `{Float F, FloatLog F} := {
  f_le : F → F → Prop;
  f_le_refl : ∀ x, f_le x x;
  f_le_trans : ∀ x y z, f_le x y → f_le y z → f_le x z;
  f_add_mono : ∀ x x' y y', f_le x x' → f_le y y' → f_le (f_add x y) (f_add x' y');
  f_add_nonneg : ∀ x y, f_le f_zero y → f_le x (f_add x y);
  f_mul_mono : ∀ x y z, f_le f_zero z → f_le x y → f_le (f_mul x z) (f_mul y z);
  f_mul_nonneg : ∀ x y, f_le f_zero x → f_le f_zero y → f_le f_zero (f_mul x y);
  f_one_nonneg : f_le f_zero (f_of_nat 1);
  f_log_nat_nonneg : ∀ n, 1 ≤ n → f_le f_zero (f_log (f_of_nat n));
  f_log_nat_mono : ∀ m n, 1 ≤ m → m ≤ n →
    f_le (f_log (f_of_nat m)) (f_log (f_of_nat n));
  f_log_ratio_nonneg : ∀ n d, 1 ≤ d → d ≤ n →
    f_le f_zero (f_log (f_div (f_of_nat n) (f_of_nat d)))
}.

(** Real arithmetic. *)
#[global] Instance Rle_decision (x y : R) : Decision (x <= y)%R := Rle_dec x y.

#[global] Instance R_float : Float R := {|
  f_of_nat := INR;
  f_add := Rplus;
  f_mul := Rmult;
  f_div := Rdiv
|}.

#[global] Instance R_le : FloatLe R := {|
  f_leb := fun x y => bool_decide (x <= y)%R
|}.

#[global] Instance R_log : FloatLog R := {| f_log := ln |}.

(** IEEE binary64 arithmetic, for the operations it defines.  The
    conversion is exact for the integers below [2^53] and rounds as
    Python does below [2^63]. *)
#[global] Instance binary64_float : Float float := {|
  f_of_nat := fun n => PrimFloat.of_uint63 (Uint63.of_Z (Z.of_nat n));
  f_add := PrimFloat.add;
  f_mul := PrimFloat.mul;
  f_div := PrimFloat.div
|}.

#[global] Instance binary64_le : FloatLe float := {| f_leb := PrimFloat.leb |}.

(** Unevaluated arithmetic: the expression that a computation builds. *)
Inductive expr : Type :=
  | ENat (n : nat)
  | EAdd (x y : expr)
  | EMul (x y : expr)
  | EDiv (x y : expr)
  | ELog (x : expr).

#[global] Instance expr_float : Float expr := {|
  f_of_nat := ENat;
  f_add := EAdd;
  f_mul := EMul;
  f_div := EDiv
|}.

#[global] Instance expr_log : FloatLog expr := {| f_log := ELog |}.

(** ** Python dictionaries in insertion order *)

Module Dict.
Section dict.
Context {K V : Type} `{EqDecision K}.

(** [d.get(k)] *)
Fixpoint get (k : K) (d : list (K * V)) : option V :=
  match d with
  | [] => None
  | (k', v) :: d' => if decide (k = k') then Some v else get k d'
  end.

(** [d[k] = v]: a present key keeps its place, a new key goes last. *)
Fixpoint put (k : K) (v : V) (d : list (K * V)) : list (K * V) :=
  match d with
  | [] => [(k, v)]
  | (k', v') :: d' =>
      if decide (k = k') then (k, v) :: d' else (k', v') :: put k v d'
  end.

(** [d.items()] *)
Definition items (d : list (K * V)) : list (K * V) := d.

(** [d.values()] *)
Definition values (d : list (K * V)) : list V := d.*2.
End dict.
End Dict.

(** [counts[term] = counts.get(term, 0) + 1], which is also
    [counts[term] += 1] on a [defaultdict(int)] or a [Counter]. *)
Definition bump (counts : list (str * nat)) (term : str) : list (str * nat) :=
  Dict.put term (default 0 (Dict.get term counts) + 1) counts.

(** ** Stopword filters ([stopwords.py]) *)

(** The loop that both versions of both filters end with:
    [for term in doc.terms: if keep(term): filtered_terms.append(term.lower())]. *)
Definition append_kept (keep : str → bool) (terms : list str) : list str :=
  foldl (fun filtered_terms term =>
           if keep term then filtered_terms ++ [lower term]
           else filtered_terms)
        [] terms.

(** [Ass2/group_008_p2/ir_core/stopwords.py] *)
Module Stopwords.
Section stopwords.
Context {F : Type} `{Float F, FloatLe F}.

(** [remove_stopwords_by_list(doc, stopwords)] *)
Definition remove_stopwords_by_list (doc : Document) (stopwords : gset str)
    : Document :=
  let filtered_terms :=
    append_kept (fun term => negb (bool_decide (lower term ∈ stopwords)))
                (terms doc) in
  set_filtered_terms doc filtered_terms.

(** The first loop of [remove_stopwords_by_frequency]: in how many
    documents each term appears. *)
Definition count_documents (collection : list Document)
    : list (str * nat) :=
  foldl (fun term_doc_counts document =>
           let unique_terms : gset str := list_to_set (terms document) in
           foldl bump term_doc_counts (elements unique_terms))
        [] collection.

(** The loop that collects the stopwords. *)
Definition frequency_stopwords (term_doc_counts : list (str * nat))
    (total_docs : nat) (rare_frequency common_frequency : F) : gset str :=
  foldl (fun (stopwords : gset str) '(term, doc_count) =>
           let doc_freq := f_div (f_of_nat doc_count) (f_of_nat total_docs) in
           if f_leb common_frequency doc_freq || f_leb doc_freq rare_frequency
           then stopwords ∪ {[term]}
           else stopwords)
        ∅ (Dict.items term_doc_counts).

(** [remove_stopwords_by_frequency(doc, collection, rare_frequency,
    common_frequency)] *)
Definition remove_stopwords_by_frequency (doc : Document)
    (collection : list Document) (rare_frequency common_frequency : F)
    : Document :=
  let term_doc_counts := count_documents collection in
  let total_docs := length collection in
  if total_docs =? 0 then set_filtered_terms doc []
  else
    let stopwords :=
      frequency_stopwords term_doc_counts total_docs
                          rare_frequency common_frequency in
    let filtered_terms :=
      append_kept (fun term => negb (bool_decide (term ∈ stopwords)))
                  (terms doc) in
    set_filtered_terms doc filtered_terms.
End stopwords.
End Stopwords.

(** [Ass2/group_008_p2_old_test_cases_2/ir_core/stopwords.py] *)
Module StopwordsOld.
Section stopwords.
Context {F : Type} `{Float F, FloatLe F}.

(** [remove_stopwords_by_list(doc, stopwords)] *)
Definition remove_stopwords_by_list (doc : Document) (stopwords : gset str)
    : Document :=
  let filtered_terms :=
    append_kept (fun term => negb (bool_decide (lower term ∈ stopwords)))
                (terms doc) in
  set_filtered_terms doc filtered_terms.

(** The [Counter] of all term occurrences of the collection. *)
Definition count_occurrences (collection : list Document)
    : list (str * nat) :=
  foldl (fun term_frequencies document =>
           foldl bump term_frequencies (terms document))
        [] collection.

(** The loop that collects the stopwords. *)
Definition frequency_stopwords (term_frequencies : list (str * nat))
    (total_terms : nat) (common_frequency rare_frequency : F) : gset str :=
  foldl (fun (stopwords : gset str) '(term, count) =>
           let relative_freq := f_div (f_of_nat count) (f_of_nat total_terms) in
           if f_leb common_frequency relative_freq
              || f_leb relative_freq rare_frequency
           then stopwords ∪ {[term]}
           else stopwords)
        ∅ (Dict.items term_frequencies).

(** [remove_stopwords_by_frequency(doc, collection, common_frequency,
    rare_frequency)] *)
Definition remove_stopwords_by_frequency (doc : Document)
    (collection : list Document) (common_frequency rare_frequency : F)
    : Document :=
  let term_frequencies := count_occurrences collection in
  let total_terms := foldr Nat.add 0 (Dict.values term_frequencies) in
  if total_terms =? 0 then set_filtered_terms doc []
  else
    let stopwords :=
      frequency_stopwords term_frequencies total_terms
                          common_frequency rare_frequency in
    let filtered_terms :=
      append_kept (fun term => negb (bool_decide (term ∈ stopwords)))
                  (terms doc) in
    set_filtered_terms doc filtered_terms.
End stopwords.
End StopwordsOld.

(** ** Retrieval ([retrieval.py]) *)

Module Retrieval.
Import Stemming.

(** The choice of the term list, written out twice in the source (in
    [linear_boolean_search] and in [vector_space_search]). *)
Definition select_terms (doc : Document) (stopword_filtered stemmed : bool)
    : list str :=
  if stemmed && stopword_filtered then
    let terms_to_search := filtered_stemmed_terms doc in
    if bool_decide (terms_to_search = []) then
      let filtered_terms := filtered_terms doc in
      if negb (bool_decide (filtered_terms = []))
      then map stem_term filtered_terms
      else []
    else terms_to_search
  else if stemmed then
    let terms_to_search := stemmed_terms doc in
    if bool_decide (terms_to_search = [])
    then map stem_term (terms doc)
    else terms_to_search
  else if stopword_filtered then filtered_terms doc
  else terms doc.

(** [query.lower().strip().split()] *)
Definition parse_query (query : str) : list str :=
  split (strip (lower query)).

(** [linear_boolean_search(query, collection, stopword_filtered, stemmed)] *)
Definition linear_boolean_search (query : str) (collection : list Document)
    (stopword_filtered stemmed : bool) : list (nat * Document) :=
  let query_terms := parse_query query in
  if bool_decide (query_terms = []) then map (fun doc => (0, doc)) collection
  else
    let query_terms :=
      if stemmed then map stem_term query_terms else query_terms in
    let results :=
      foldl (fun results doc =>
               let terms_to_search :=
                 select_terms doc stopword_filtered stemmed in
               let lowercase_terms := map lower terms_to_search in
               let lowercase_terms_set : gset str :=
                 list_to_set lowercase_terms in
               let all_terms_found :=
                 forallb (fun term => bool_decide (term ∈ lowercase_terms_set))
                         query_terms in
               if all_terms_found then results ++ [(1, doc)]
               else results ++ [(0, doc)])
            [] collection in
    if stemmed
    then filter (fun r => r.1 = 1) results
    else results.

(** [term_counts[term] += 1] over the terms of one document. *)
Definition count_terms (terms : list str) : list (str * nat) :=
  foldl bump [] terms.

(** The loop that builds [inverted_index]. *)
Definition build_index (collection : list Document)
    (stopword_filtered stemmed : bool) : list (str * list (Z * nat)) :=
  foldl (fun inverted_index doc =>
           let terms := select_terms doc stopword_filtered stemmed in
           let terms := map lower terms in
           let term_counts := count_terms terms in
           foldl (fun inverted_index '(term, count) =>
                    Dict.put term
                      (default [] (Dict.get term inverted_index)
                         ++ [(document_id doc, count)])
                      inverted_index)
                 inverted_index (Dict.items term_counts))
        [] collection.

(** [for term in inverted_index: doc_frequencies[term] = len(inverted_index[term])] *)
Definition document_frequencies (inverted_index : list (str * list (Z * nat)))
    : gmap str nat :=
  foldl (fun (doc_frequencies : gmap str nat) '(term, postings) =>
           <[term := length postings]> doc_frequencies)
        ∅ (Dict.items inverted_index).

Section scoring.
Context {F : Type} `{Float F, FloatLog F}.

(** [doc_scores.get(doc_id, 0.0)], also the value that
    [doc_scores[doc_id]] has in a [defaultdict(float)]. *)
Definition score_of (doc_scores : gmap Z F) (doc_id : Z) : F :=
  default f_zero (doc_scores !! doc_id).

(** The inner loop over the postings of one query term. *)
Definition add_postings (idf : F) (postings : list (Z * nat))
    (doc_scores : gmap Z F) : gmap Z F :=
  foldl (fun (doc_scores : gmap Z F) '(doc_id, tf) =>
           let tf_weight :=
             if 0 <? tf then f_add (f_of_nat 1) (f_log (f_of_nat tf))
             else f_of_nat 0 in
           let tf_idf := f_mul tf_weight idf in
           <[doc_id := f_add (score_of doc_scores doc_id) tf_idf]> doc_scores)
        doc_scores postings.

(** The loop over the query terms. *)
Definition score_query (query_terms : list str)
    (inverted_index : list (str * list (Z * nat)))
    (doc_frequencies : gmap str nat) (total_docs : nat) : gmap Z F :=
  foldl (fun (doc_scores : gmap Z F) query_term =>
           match Dict.get query_term inverted_index with
           | None => doc_scores
           | Some postings =>
               let df := default 0 (doc_frequencies !! query_term) in
               let idf :=
                 if 0 <? df
                 then f_log (f_div (f_of_nat total_docs) (f_of_nat df))
                 else f_of_nat 0 in
               add_postings idf postings doc_scores
           end)
        ∅ query_terms.

(** [vector_space_search(query, collection, stopword_filtered, stemmed)].
    The dictionaries [doc_term_counts], [doc_lengths] and [doc_dict] of
    the source are written and never read; they are left out. *)
Definition vector_space_search (query : str) (collection : list Document)
    (stopword_filtered stemmed : bool) : list (F * Document) :=
  if bool_decide (collection = []) then []
  else
    let query_terms := parse_query query in
    if bool_decide (query_terms = [])
    then map (fun doc => (f_zero, doc)) collection
    else
      let query_terms :=
        if stemmed then map stem_term query_terms else query_terms in
      let inverted_index := build_index collection stopword_filtered stemmed in
      let doc_frequencies := document_frequencies inverted_index in
      let total_docs := length collection in
      let doc_scores :=
        score_query query_terms inverted_index doc_frequencies total_docs in
      foldl (fun results doc =>
               let score := score_of doc_scores (document_id doc) in
               results ++ [(score, doc)])
            [] collection.

(** [precision_recall(retrieved_ids, relevant_ids)] *)
Definition precision_recall (retrieved_ids relevant_ids : gset Z) : F * F :=
  if bool_decide (retrieved_ids = ∅) && bool_decide (relevant_ids = ∅)
  then (f_zero, f_zero)
  else if bool_decide (retrieved_ids = ∅) then (f_zero, f_zero)
  else if bool_decide (relevant_ids = ∅) then (f_zero, f_zero)
  else
    let intersection := retrieved_ids ∩ relevant_ids in
    let precision :=
      f_div (f_of_nat (size intersection)) (f_of_nat (size retrieved_ids)) in
    let recall :=
      f_div (f_of_nat (size intersection)) (f_of_nat (size relevant_ids)) in
    (precision, recall).
End scoring.

End Retrieval.

(** ** Stemming of documents ([stemming.py], second part) *)

(** [doc._stemmed_terms = v], the store behind [doc.stemmed_terms]. *)
Definition set_stemmed_terms (doc : Document) (v : list str) : Document :=
  {| document_id := document_id doc; title := title doc;
     raw_text := raw_text doc; terms := terms doc; author := author doc;
     origin := origin doc; filtered_terms := filtered_terms doc;
     stemmed_terms := v;
     filtered_stemmed_terms := filtered_stemmed_terms doc |}.

(** [doc._filtered_stemmed_terms = v], the store behind
    [doc.filtered_stemmed_terms]. *)
Definition set_filtered_stemmed_terms (doc : Document) (v : list str)
    : Document :=
  {| document_id := document_id doc; title := title doc;
     raw_text := raw_text doc; terms := terms doc; author := author doc;
     origin := origin doc; filtered_terms := filtered_terms doc;
     stemmed_terms := stemmed_terms doc;
     filtered_stemmed_terms := v |}.

(** [apply_stemming(doc)] *)
Definition apply_stemming (doc : Document) : Document :=
  let stemmed := map Stemming.stem_term (terms doc) in
  set_stemmed_terms doc stemmed.

(** [apply_stemming_filtered(doc)] *)
Definition apply_stemming_filtered (doc : Document) : Document :=
  let terms_to_stem := filtered_terms doc in
  let stemmed := map Stemming.stem_term terms_to_stem in
  set_filtered_stemmed_terms doc stemmed.

(** ** The earlier Boolean search
    ([Ass2/group_008_p2_old_test_cases_2/ir_core/retrieval.py]) *)

Module RetrievalOld.

(** [linear_boolean_search(term, collection, stopword_filtered)] *)
Definition linear_boolean_search (term : str) (collection : list Document)
    (stopword_filtered : bool) : list (nat * Document) :=
  let search_term := strip (lower term) in
  foldl (fun results doc =>
           let terms_to_search :=
             if stopword_filtered then filtered_terms doc else terms doc in
           let lowercase_terms := map lower terms_to_search in
           if bool_decide (search_term ∈ lowercase_terms)
           then results ++ [(1, doc)]
           else results ++ [(0, doc)])
        [] collection.

End RetrievalOld.

(** ** Loading a collection
    ([Ass2/group_008_p2_old_test_cases_2/ir_core/collection.py]) *)

Module Collection.

Definition LF : ascii := ascii_of_nat 10.
Definition CR : ascii := ascii_of_nat 13.
Definition SP : ascii := ascii_of_nat 32.

(** [s.split(sep)] for a one-character separator: the pieces between
    the separators, at least one piece. *)
Fixpoint split_on (sep : ascii) (s : str) : list str :=
  match s with
  | [] => [[]]
  | c :: s' =>
      if bool_decide (c = sep) then [] :: split_on sep s'
      else match split_on sep s' with
           | piece :: pieces => (c :: piece) :: pieces
           | [] => [[c]]
           end
  end.

(** [sep.join(pieces)] *)
Fixpoint join (sep : str) (pieces : list str) : str :=
  match pieces with
  | [] => []
  | [piece] => piece
  | piece :: pieces' => piece ++ sep ++ join sep pieces'
  end.

(** [s.replace('\r\n', '\n')] *)
Fixpoint replace_crlf (s : str) : str :=
  match s with
  | [] => []
  | c :: s' =>
      match s' with
      | c' :: s'' =>
          if bool_decide (c = CR) && bool_decide (c' = LF)
          then LF :: replace_crlf s''
          else c :: replace_crlf s'
      | [] => [c]
      end
  end.

(** [s.replace(a, b)] for one-character strings [a] and [b]. *)
Definition replace_char (a b : ascii) (s : str) : str :=
  map (fun c => if bool_decide (c = a) then b else c) s.

(** The character class [[A-Za-z0-9']]. *)
Definition is_token_char (c : ascii) : bool :=
  let n := nat_of_ascii c in
  ((65 <=? n) && (n <=? 90)) || ((97 <=? n) && (n <=? 122)) ||
  ((48 <=? n) && (n <=? 57)) || (n =? 39).

(** [re.findall(r"[A-Za-z0-9']+", s)]: the maximal runs of characters of
    the class, from left to right.  [cur] is the run being read and
    [acc] the runs already closed. *)
Fixpoint tokens_go (s cur : str) (acc : list str) : list str :=
  match s with
  | [] => close_run cur acc
  | c :: s' =>
      if is_token_char c then tokens_go s' (cur ++ [c]) acc
      else tokens_go s' [] (close_run cur acc)
  end.

Definition tokens (s : str) : list str := tokens_go s [] [].

(** Modelled from the spec: the constructor [Document(document_id=...,
    title=..., raw_text=..., terms=..., author=..., origin=...)] of the
    class that is not among the sources; the derived term lists are empty
    until a filter or the stemmer fills them. *)
Definition new_document (document_id : Z) (title raw_text : str)
    (terms : list str) (author origin : str) : Document :=
  {| document_id := document_id; title := title; raw_text := raw_text;
     terms := terms; author := author; origin := origin;
     filtered_terms := []; stemmed_terms := [];
     filtered_stemmed_terms := [] |}.

(** The loop over the matches.  A match is the sequence that
    [len(match)] and [match[i]] see: the groups of the match when the
    pattern has several groups, the characters of the matched string
    otherwise. *)
Definition add_match (author origin : str)
    (state : list Document * Z) (m : list str) : list Document * Z :=
  let '(documents, document_id) := state in
  match m with
  | m0 :: m1 :: _ =>
      let story_title := strip m0 in
      let story_content := strip m1 in
      let clean_raw_text := strip (replace_char LF SP story_content) in
      let terms := tokens (lower clean_raw_text) in
      let doc := new_document document_id story_title clean_raw_text terms
                              author origin in
      (documents ++ [doc], (document_id + 1)%Z)
  | _ => (documents, document_id)
  end.

(** [load_documents_from_url(url, author, origin, start_line, end_line,
    search_pattern)].  The download is a parameter: [download] is the
    decoded content, or [None] when the download raises; so is the
    regular expression: [findall] is [search_pattern.findall]. *)
Definition load_documents_from_url (download : option str)
    (findall : str → list (list str)) (author origin : str)
    (start_line : Z) (end_line : option Z) : list Document :=
  match download with
  | None => []
  | Some content =>
      let lines := split_on LF content in
      let end_line := default (Z.of_nat (length lines)) end_line in
      let start_line := Z.max 0 start_line in
      let end_line := Z.min (Z.of_nat (length lines)) end_line in
      if bool_decide (end_line ≤ start_line)%Z then []
      else
        let text_content :=
          join [LF] (take (Z.to_nat end_line - Z.to_nat start_line)
                          (drop (Z.to_nat start_line) lines)) in
        let normalized_content :=
          replace_char CR LF (replace_crlf text_content) in
        let matches := findall normalized_content in
        (foldl (add_match author origin) ([], 0%Z) matches).1
  end.

End Collection.

(** ** The loops of the command line
    ([Ass2/group_008_p2_old_test_cases_2/main.py]) *)

Module Main.
Section main.
Context {F : Type} `{Float F, FloatLe F}.

(** The loop of [handle_stopwords_list] that reads the stopword file:
    [for line in f: word = line.strip().lower(); if word: stopwords.add(word)]. *)
Definition load_stopwords (lines : list str) : gset str :=
  foldl (fun (stopwords : gset str) line =>
           let word := lower (strip line) in
           if negb (bool_decide (word = [])) then stopwords ∪ {[word]}
           else stopwords)
        ∅ lines.

(** A loop [for doc in self.collection: update(doc, self.collection)]
    that changes the documents of the list in place: the store is the
    list, and the update of the document at a position reads the store as
    it is then. *)
Definition update_in_place
    (update : Document → list Document → Document)
    (collection : list Document) : list Document :=
  foldl (fun store i =>
           match store !! i with
           | Some doc => <[i := update doc store]> store
           | None => store
           end)
        collection (seq 0 (length collection)).

(** [for doc in self.collection: remove_stopwords_by_list(doc, stopwords)] *)
Definition apply_list_filter (collection : list Document)
    (stopwords : gset str) : list Document :=
  update_in_place
    (fun doc _ => StopwordsOld.remove_stopwords_by_list doc stopwords)
    collection.

(** The part of [handle_stopwords_frequency] after the thresholds have
    been read: the two range checks and the loop
    [for doc in self.collection:
       remove_stopwords_by_frequency(doc, self.collection, common_freq, rare_freq)].
    The collection is returned as it is when a check fails. *)
Definition apply_frequency_filter (collection : list Document)
    (common_freq rare_freq : F) : list Document :=
  if negb (f_leb (f_of_nat 0) common_freq && f_leb common_freq (f_of_nat 1))
     || negb (f_leb (f_of_nat 0) rare_freq && f_leb rare_freq (f_of_nat 1))
  then collection
  else if f_leb common_freq rare_freq then collection
  else
    update_in_place
      (fun doc store =>
         StopwordsOld.remove_stopwords_by_frequency doc store
           common_freq rare_freq)
      collection.

(** The statistics of both handlers:
    [total_original - total_filtered]. *)
Definition removed_terms (collection : list Document) : Z :=
  let total_original :=
    foldr Z.add 0%Z (map (fun doc => Z.of_nat (length (terms doc))) collection) in
  let total_filtered :=
    foldr Z.add 0%Z
          (map (fun doc => Z.of_nat (length (filtered_terms doc))) collection) in
  (total_original - total_filtered)%Z.

End main.
End Main.

(** * Definitions used to state the properties *)

(** The number of elements of [l] equal to [t]. *)
Definition occ (t : str) (l : list str) : nat :=
  length (filter (fun x => x = t) l).

(** Every stored count is positive. *)
Definition positive (counts : list (str * nat)) : Prop :=
  ∀ t n, Dict.get t counts = Some n → 0 < n.

(** [counts.get(t, 0)] *)
Definition count_of (counts : list (str * nat)) (t : str) : nat :=
  default 0 (Dict.get t counts).

(** No upper-case ASCII letter occurs in [s]. *)
Definition no_upper (s : str) : Prop := Forall (fun c => is_upper c = false) s.

(** The string holds white space only (or nothing). *)
Definition blank (s : str) : bool := forallb is_space s.


(** The number of occurrences of [t] in the documents of the collection. *)
Definition occurrences (t : str) (collection : list Document) : nat :=
  foldr Nat.add 0 (map (fun document => occ t (terms document)) collection).

(** The number of term occurrences of the collection. *)
Definition total_terms (collection : list Document) : nat :=
  foldr Nat.add 0 (map (fun document => length (terms document)) collection).

Section frequencies.
Context {F : Type} `{Float F, FloatLe F}.



End frequencies.

(** The terms of the query: split at white space, lowercased, and stemmed
    when the stemmed view is selected. *)
Definition query_terms (query : str) (stemmed : bool) : list str :=
  let ts := Retrieval.parse_query query in
  if stemmed then map Stemming.stem_term ts else ts.

(** The selected term view of a document, as the searches compare with
    it: the selected term list, lowercased. *)
Definition term_view (doc : Document) (stopword_filtered stemmed : bool)
    : list str :=
  map lower (Retrieval.select_terms doc stopword_filtered stemmed).

(** Every term of [qts] is in [view]. *)
Definition matches (qts view : list str) : bool :=
  forallb (fun t => bool_decide (t ∈ view)) qts.

(** The posting of a document for the term [t]: the document identifier
    with the number of occurrences of [t] in the selected view, when [t]
    occurs there. *)
Definition posting_of (t : str) (stopword_filtered stemmed : bool)
    (doc : Document) : option (Z * nat) :=
  let tf := occ t (term_view doc stopword_filtered stemmed) in
  if tf =? 0 then None else Some (document_id doc, tf).

(** The posting list of [t]: the postings of the documents, in the order
    of the collection. *)
Definition postings (t : str) (collection : list Document)
    (stopword_filtered stemmed : bool) : list (Z * nat) :=
  omap (posting_of t stopword_filtered stemmed) collection.

(** The entry of a dictionary of lists after [ps] has been appended to it. *)
Definition extended {A} (entry : option (list A)) (ps : list A)
    : option (list A) :=
  match ps with
  | [] => entry
  | _ => Some (default [] entry ++ ps)
  end.

Section vsm_definitions.
Context {F : Type} `{Float F, FloatLog F}.

(** [idf = ln(totalDocuments / documentFrequency)] *)
Definition idf (t : str) (collection : list Document)
    (stopword_filtered stemmed : bool) : F :=
  f_log (f_div (f_of_nat (length collection))
               (f_of_nat (length (postings t collection
                                           stopword_filtered stemmed)))).

(** [tf_weight = 1 + ln(tf)] *)
Definition tf_weight (tf : nat) : F :=
  f_add (f_of_nat 1) (f_log (f_of_nat tf)).

(** What the query term [t] adds to the score of the document [id]:
    [tf_weight * idf] for each posting of [t] with that identifier. *)
Definition contributions (id : Z) (collection : list Document)
    (stopword_filtered stemmed : bool) (t : str) : list F :=
  map (fun p : Z * nat =>
         f_mul (tf_weight p.2) (idf t collection stopword_filtered stemmed))
      (filter (fun p : Z * nat => p.1 = id)
              (postings t collection stopword_filtered stemmed)).

(** The score of the document [id]: the contributions of the query
    terms, added up from 0.0 in the order of the query. *)
Definition score (qts : list str) (id : Z) (collection : list Document)
    (stopword_filtered stemmed : bool) : F :=
  foldl f_add f_zero
        (concat (map (contributions id collection stopword_filtered stemmed)
                     qts)).
End vsm_definitions.

(** Two lists of summands: the second is the first with some summands
    increased and some non-negative summands put in. *)
Section dominated.
Context {F : Type} `{FloatOrder F}.

Inductive dominated : list F → list F → Prop :=
  | dominated_nil : dominated [] []
  | dominated_cons x x' l l' :
      f_le x x' → dominated l l' → dominated (x :: l) (x' :: l')
  | dominated_skip x' l l' :
      f_le f_zero x' → dominated l l' → dominated l (x' :: l').
End dominated.

(** Two collections with, position by position, the same identifiers and
    the same selected views. *)
Definition same_views (stopword_filtered stemmed : bool)
    (c c' : list Document) : Prop :=
  Forall2 (fun d d' =>
             document_id d = document_id d' ∧
             term_view d stopword_filtered stemmed
             = term_view d' stopword_filtered stemmed)
          c c'.

(** The term has a posting in the collection: it is in the index. *)
Definition known (collection : list Document)
    (stopword_filtered stemmed : bool) (t : str) : bool :=
  negb (bool_decide (postings t collection stopword_filtered stemmed = [])).

(** A token of the loader: a non-empty string of lowercase letters,
    digits and apostrophes. *)
Definition token_ok (t : str) : Prop :=
  t ≠ [] ∧
  Forall (fun c => Collection.is_token_char c = true ∧ is_upper c = false) t.

(** What holds of every document that the loader builds. *)
Definition loaded_ok (given_author given_origin : str) (doc : Document)
    : Prop :=
  (Collection.LF ∉ raw_text doc) ∧
  strip (raw_text doc) = raw_text doc ∧
  strip (title doc) = title doc ∧
  terms doc = Collection.tokens (lower (raw_text doc)) ∧
  Forall token_ok (terms doc) ∧
  Forall (fun t => lower t = t) (terms doc) ∧
  author doc = given_author ∧ origin doc = given_origin ∧
  filtered_terms doc = [] ∧ stemmed_terms doc = [] ∧
  filtered_stemmed_terms doc = [].

(** A call of the loader: a download of three lines, of which the range
    keeps the last two, and a pattern that matches the whole text once,
    with " A Tale " and the text as its groups. *)
Definition load_documents_from_url_example : list Document :=
  Collection.load_documents_from_url
    (Some (lit "skipped
 The Cat's hat 
 is RED"))
    (fun s => [[lit " A Tale "; s]]) (lit "me") (lit "book") 1 None.

(** The collection of the end-to-end scenario of the specification. *)
Definition make_document (id : Z) (ts : list string) : Document :=
  {| document_id := id; title := []; raw_text := []; terms := map lit ts;
     author := []; origin := []; filtered_terms := []; stemmed_terms := [];
     filtered_stemmed_terms := [] |}.

Definition example_collection : list Document :=
  [ make_document 0 ["the"; "cat"; "sat"]%string;
    make_document 1 ["the"; "dog"; "ran"]%string;
    make_document 2 ["cat"; "dog"; "played"]%string ].

(** * Properties *)

(** ** Strings *)

Lemma is_upper_lower_char c : is_upper (lower_char c) = false.
Proof. destruct c as [[] [] [] [] [] [] [] []]; reflexivity. Qed.

Lemma is_space_lower_char c : is_space (lower_char c) = is_space c.
Proof. destruct c as [[] [] [] [] [] [] [] []]; reflexivity. Qed.

Lemma lower_char_idemp c : lower_char (lower_char c) = lower_char c.
Proof. destruct c as [[] [] [] [] [] [] [] []]; reflexivity. Qed.

Lemma no_upper_lower s : no_upper (lower s).
Proof.
  unfold no_upper, lower. apply Forall_forall. intros c Hc.
  apply list_elem_of_fmap in Hc as (c' & -> & _). apply is_upper_lower_char.
Qed.

Lemma lower_length s : length (lower s) = length s.
Proof. apply length_map. Qed.

Lemma lower_idemp s : lower (lower s) = lower s.
Proof.
  unfold lower. rewrite map_map. apply map_ext. intros; apply lower_char_idemp.
Qed.

Lemma no_upper_take k s : no_upper s → no_upper (take k s).
Proof. apply Forall_take. Qed.

Lemma no_upper_drop_last k s : no_upper s → no_upper (drop_last k s).
Proof. apply no_upper_take. Qed.

Lemma no_upper_app s t : no_upper s → no_upper t → no_upper (s ++ t).
Proof. intros. by apply Forall_app. Qed.

Lemma no_upper_lit_decide (t : string) :
  forallb (fun c => negb (is_upper c)) (lit t) = true → no_upper (lit t).
Proof.
  intros Hall. apply Forall_forall. intros c Hc.
  rewrite forallb_forall in Hall. apply list_elem_of_In in Hc.
  specialize (Hall c Hc). by destruct (is_upper c).
Qed.

Lemma endswith_length word suffix :
  endswith word suffix = true → length suffix ≤ length word.
Proof.
  unfold endswith. intros Hends. apply andb_prop in Hends as [Hlen _].
  by apply Nat.leb_le.
Qed.

Lemma drop_last_length k word : length (drop_last k word) = length word - k.
Proof. unfold drop_last. rewrite length_take. lia. Qed.

Lemma nonempty_length (s : str) : s ≠ [] ↔ 0 < length s.
Proof. destruct s; simpl; split; (congruence || lia). Qed.

Lemma drop_last_nonempty k word :
  k < length word → drop_last k word ≠ [].
Proof. intros. apply nonempty_length. rewrite drop_last_length. lia. Qed.

Lemma app_nonempty_l (s t : str) : s ≠ [] → s ++ t ≠ [].
Proof. by destruct s. Qed.

(** ** The stemmer *)

Section stemmer_facts.
Import Stemming.

(** The loops of [measure] do not depend on the fuel once it covers
    the characters that are left: the bound [len(word)] used by the
    embedding is enough, so [measure] is the source's function. *)
Lemma skip_run_bounds word cons fuel i :
  i ≤ skip_run word cons fuel i ∧
  (i ≤ length word → skip_run word cons fuel i ≤ length word).
Proof.
  revert i. induction fuel as [|fuel IH]; intros i; simpl; [lia|].
  destruct (i <? length word) eqn:Hlt; simpl; [|lia].
  apply Nat.ltb_lt in Hlt.
  case_bool_decide; [|lia].
  destruct (IH (i + 1)) as [H1 H2]. split; [lia|]. intros _. apply H2. lia.
Qed.

Lemma skip_run_fuel word cons fuel1 fuel2 i :
  length word - i ≤ fuel1 → length word - i ≤ fuel2 →
  skip_run word cons fuel1 i = skip_run word cons fuel2 i.
Proof.
  revert fuel2 i. induction fuel1 as [|fuel1 IH]; intros fuel2 i H1 H2.
  - destruct fuel2 as [|fuel2]; simpl; [done|].
    assert ((i <? length word) = false) as -> by (apply Nat.ltb_ge; lia). done.
  - destruct fuel2 as [|fuel2]; simpl.
    + assert ((i <? length word) = false) as -> by (apply Nat.ltb_ge; lia). done.
    + destruct (i <? length word) eqn:Hlt; simpl; [|done].
      case_bool_decide; [|done]. apply IH; lia.
Qed.

Lemma skip_run_stops word cons fuel i :
  length word - i ≤ fuel →
  skip_run word cons fuel i < length word →
  is_consonant word (skip_run word cons fuel i) ≠ cons.
Proof.
  revert i. induction fuel as [|fuel IH]; intros i Hfuel; simpl.
  - lia.
  - destruct (i <? length word) eqn:Hlt; simpl.
    + case_bool_decide; [|done]. apply IH. lia.
    + apply Nat.ltb_ge in Hlt. lia.
Qed.

Lemma skip_run_progress word cons fuel i :
  0 < fuel → i < length word → is_consonant word i = cons →
  i < skip_run word cons fuel i.
Proof.
  intros Hfuel Hi Hc. destruct fuel as [|fuel]; [lia|]. simpl.
  assert ((i <? length word) = true) as -> by (by apply Nat.ltb_lt).
  rewrite bool_decide_eq_true_2 by done. simpl.
  pose proof (skip_run_bounds word cons fuel (i + 1)). lia.
Qed.

Lemma measure_loop_fuel word fuel1 fuel2 i m :
  length word - i ≤ fuel1 → length word - i ≤ fuel2 →
  measure_loop word fuel1 i m = measure_loop word fuel2 i m.
Proof.
  revert fuel2 i m. induction fuel1 as [|fuel1 IH]; intros fuel2 i m H1 H2.
  - destruct fuel2 as [|fuel2]; simpl; [done|].
    assert ((i <? length word) = false) as -> by (apply Nat.ltb_ge; lia). done.
  - destruct fuel2 as [|fuel2]; simpl.
    + assert ((i <? length word) = false) as -> by (apply Nat.ltb_ge; lia). done.
    + destruct (i <? length word) eqn:Hlt; [|done].
      apply Nat.ltb_lt in Hlt.
      set (i1 := skip_run word false (length word) i).
      destruct (length word <=? i1) eqn:Hend; [done|].
      apply Nat.leb_gt in Hend.
      assert (i ≤ i1) by apply skip_run_bounds.
      assert (is_consonant word i1 ≠ false) as Hcons
        by (apply skip_run_stops; [lia|done]).
      assert (i1 < skip_run word true (length word) i1).
      { apply skip_run_progress; [lia|done|]. by destruct (is_consonant word i1). }
      apply IH; lia.
Qed.

Lemma measure_fuel word fuel :
  length word ≤ fuel → word ≠ [] →
  measure word = measure_loop word fuel (skip_run word true fuel 0) 0.
Proof.
  intros Hfuel Hne. unfold measure.
  destruct word as [|c word]; [done|]. cbn [length Nat.eqb].
  rewrite (skip_run_fuel _ true fuel (length (c :: word)) 0) by (simpl in *; lia).
  apply measure_loop_fuel; simpl in *; lia.
Qed.

Lemma measure_nil : measure [] = 0.
Proof. reflexivity. Qed.

Lemma measure_pos_nonempty word : 0 < measure word → word ≠ [].
Proof. intros Hm ->. rewrite measure_nil in Hm. lia. Qed.

Lemma contains_vowel_nonempty word : contains_vowel word = true → word ≠ [].
Proof. by intros Hv ->. Qed.

Lemma ends_double_consonant_length word :
  ends_double_consonant word = true → 2 ≤ length word.
Proof.
  unfold ends_double_consonant. destruct (length word <? 2) eqn:Hlen; [done|].
  intros _. by apply Nat.ltb_ge.
Qed.

(** *** Non-emptiness through the rule groups *)

Lemma step1a_nonempty word : word ≠ [] → step1a word ≠ [].
Proof.
  intros Hne. unfold step1a.
  repeat case_match; try done;
    apply drop_last_nonempty;
    repeat match goal with
           | Hends : endswith _ _ = true |- _ =>
               apply endswith_length in Hends; simpl in Hends
           | Hand : _ && _ = true |- _ => apply andb_prop in Hand as [? Hlt]
           | Hlt : (_ <? _) = true |- _ => apply Nat.ltb_lt in Hlt
           end; lia.
Qed.

Lemma step1b_post_nonempty word : word ≠ [] → step1b_post word ≠ [].
Proof.
  intros Hne. unfold step1b_post.
  repeat case_match; try done; try (by apply app_nonempty_l).
  apply drop_last_nonempty.
  match goal with
  | Hand : _ && _ = true |- _ => apply andb_prop in Hand as [Hdc _]
  end.
  apply ends_double_consonant_length in Hdc. lia.
Qed.

Lemma step1b_nonempty word : word ≠ [] → step1b word ≠ [].
Proof.
  intros Hne. unfold step1b.
  repeat case_match; try done.
  - apply drop_last_nonempty.
    match goal with
    | Hends : endswith _ (lit "eed") = true |- _ =>
        apply endswith_length in Hends; simpl in Hends
    end. lia.
  - by apply step1b_post_nonempty, contains_vowel_nonempty.
  - by apply step1b_post_nonempty, contains_vowel_nonempty.
Qed.

Lemma step1c_nonempty word : word ≠ [] → step1c word ≠ [].
Proof.
  intros Hne. unfold step1c. case_match; [|done].
  intros Happ. apply app_eq_nil in Happ as [_ Habs]. discriminate Habs.
Qed.

Lemma replace_suffix_nonempty rules word :
  word ≠ [] → replace_suffix rules word ≠ [].
Proof.
  intros Hne. induction rules as [|[suffix replacement] rules IH]; simpl; [done|].
  destruct (endswith word suffix); [|done].
  destruct (0 <? measure (drop_last (length suffix) word)) eqn:Hm; [|done].
  apply Nat.ltb_lt in Hm. by apply app_nonempty_l, measure_pos_nonempty.
Qed.

Lemma remove_suffix_nonempty rules word :
  word ≠ [] → remove_suffix rules word ≠ [].
Proof.
  intros Hne. induction rules as [|suffix rules IH]; simpl; [done|].
  destruct (endswith word suffix); [|done].
  destruct (1 <? measure (drop_last (length suffix) word)) eqn:Hm; [|done].
  apply Nat.ltb_lt in Hm.
  assert (drop_last (length suffix) word ≠ [])
    by (apply measure_pos_nonempty; lia).
  repeat case_match; done.
Qed.

Lemma step5a_nonempty word : word ≠ [] → step5a word ≠ [].
Proof.
  intros Hne. unfold step5a. destruct (endswith word (lit "e")); [|done].
  destruct (_ || _) eqn:Hgate; [|done].
  apply measure_pos_nonempty.
  apply orb_prop in Hgate as [Hm|Hm].
  - apply Nat.ltb_lt in Hm. lia.
  - apply andb_prop in Hm as [Hm _]. apply Nat.eqb_eq in Hm. lia.
Qed.

Lemma step5b_nonempty word : word ≠ [] → step5b word ≠ [].
Proof.
  intros Hne. unfold step5b. destruct (_ && _) eqn:Hgate; [|done].
  apply andb_prop in Hgate as [Hgate _]. apply andb_prop in Hgate as [_ Hdc].
  apply ends_double_consonant_length in Hdc.
  apply drop_last_nonempty. lia.
Qed.

Lemma porter_steps_nonempty word : word ≠ [] → porter_steps word ≠ [].
Proof.
  intros Hne. unfold porter_steps.
  by apply step5b_nonempty, step5a_nonempty, remove_suffix_nonempty,
    replace_suffix_nonempty, replace_suffix_nonempty, step1c_nonempty,
    step1b_nonempty, step1a_nonempty.
Qed.

(** *** No upper-case letter through the rule groups *)

Lemma no_upper_e : no_upper (lit "e").
Proof. by apply no_upper_lit_decide. Qed.

Lemma no_upper_i : no_upper (lit "i").
Proof. by apply no_upper_lit_decide. Qed.

Create HintDb lowercase.
#[local] Hint Resolve no_upper_drop_last no_upper_app no_upper_e no_upper_i
  : lowercase.

Lemma step1a_no_upper word : no_upper word → no_upper (step1a word).
Proof. intros. unfold step1a. repeat case_match; auto with lowercase. Qed.

Lemma step1b_post_no_upper word : no_upper word → no_upper (step1b_post word).
Proof. intros. unfold step1b_post. repeat case_match; auto with lowercase. Qed.

Lemma step1b_no_upper word : no_upper word → no_upper (step1b word).
Proof.
  intros. unfold step1b.
  repeat case_match; auto using step1b_post_no_upper with lowercase.
Qed.

Lemma step1c_no_upper word : no_upper word → no_upper (step1c word).
Proof. intros. unfold step1c. repeat case_match; auto with lowercase. Qed.

Lemma replace_suffix_no_upper rules word :
  Forall (fun rule => no_upper rule.2) rules →
  no_upper word → no_upper (replace_suffix rules word).
Proof.
  intros Hrules Hword.
  induction Hrules as [|[suffix replacement] rules Hrule _ IH]; simpl; [done|].
  repeat case_match; auto with lowercase.
Qed.

Lemma step2_rules_no_upper : Forall (fun rule => no_upper rule.2) step2_rules.
Proof. repeat constructor; by apply no_upper_lit_decide. Qed.

Lemma step3_rules_no_upper : Forall (fun rule => no_upper rule.2) step3_rules.
Proof. repeat constructor; by apply no_upper_lit_decide. Qed.

Lemma remove_suffix_no_upper rules word :
  no_upper word → no_upper (remove_suffix rules word).
Proof.
  intros Hword. induction rules as [|suffix rules IH]; simpl; [done|].
  repeat case_match; auto with lowercase.
Qed.

Lemma step5a_no_upper word : no_upper word → no_upper (step5a word).
Proof. intros. unfold step5a. repeat case_match; auto with lowercase. Qed.

Lemma step5b_no_upper word : no_upper word → no_upper (step5b word).
Proof. intros. unfold step5b. repeat case_match; auto with lowercase. Qed.

Lemma porter_steps_no_upper word : no_upper word → no_upper (porter_steps word).
Proof.
  intros Hword. unfold porter_steps.
  apply step5b_no_upper, step5a_no_upper, remove_suffix_no_upper.
  apply replace_suffix_no_upper; [apply step3_rules_no_upper|].
  apply replace_suffix_no_upper; [apply step2_rules_no_upper|].
  by apply step1c_no_upper, step1b_no_upper, step1a_no_upper.
Qed.

Lemma stem_term_no_upper word : no_upper (stem_term word).
Proof.
  unfold stem_term. case_match.
  - apply no_upper_lower.
  - apply porter_steps_no_upper, no_upper_lower.
Qed.

Lemma stem_term_lower word : lower (stem_term word) = stem_term word.
Proof.
  pose proof (stem_term_no_upper word) as Hno.
  induction Hno as [|c s Hc _ IH]; [done|].
  unfold lower in *. simpl. rewrite IH. f_equal.
  unfold lower_char. by rewrite Hc.
Qed.
End stemmer_facts.

Section stemmer_claims.
Import Stemming.

(** C3, counterexample: the stem of "agreed" is not "agree". *)
Lemma stem_term_agreed_not_agree : stem_term (lit "agreed") ≠ lit "agree".
Proof. vm_compute. discriminate. Qed.

(** C3 (as amended): the stemmer maps "caresses" to "caress", "ponies"
    to "poni", "feed" to "feed" (the stem "f" before "eed" has measure 0),
    "plastered" to "plaster" and "motoring" to "motor"; it maps "agreed"
    to "agre": step 1b turns "agreed" into "agree", and step 5a then
    removes the final "e", because "agre" has measure 1 and no
    consonant-vowel-consonant ending. *)
Theorem stem_term_known_vectors :
  stem_term (lit "caresses") = lit "caress" ∧
  stem_term (lit "ponies") = lit "poni" ∧
  stem_term (lit "agreed") = lit "agre" ∧
  step1b (step1a (lit "agreed")) = lit "agree" ∧
  measure (lit "agre") = 1 ∧ cvc_ending (lit "agre") = false ∧
  stem_term (lit "feed") = lit "feed" ∧
  measure (lit "f") = 0 ∧
  stem_term (lit "plastered") = lit "plaster" ∧
  stem_term (lit "motoring") = lit "motor".
Proof. vm_compute. repeat split. Qed.

(** C9: a token of at most two characters is returned lowercased and
    otherwise unchanged; the rule groups are not run on it. *)
Theorem stem_term_short (x : str) :
  length x ≤ 2 → stem_term x = lower x.
Proof.
  intros Hlen. unfold stem_term.
  by rewrite (proj2 (Nat.leb_le _ _) Hlen).
Qed.

Lemma stem_term_short_witness :
  length (lit "As") ≤ 2 ∧ stem_term (lit "As") = lower (lit "As").
Proof.
  split; [simpl; lia | apply (stem_term_short (lit "As")); simpl; lia].
Defined.

(** The guard matters: the rule groups would strip the "s" of "as". *)
Example porter_steps_changes_short_token :
  stem_term (lit "as") = lit "as" ∧ porter_steps (lit "as") = lit "a".
Proof. vm_compute. done. Qed.

(** The value of the stemmer on a non-empty string is non-empty. *)
Lemma stem_term_nonempty (word : str) : word ≠ [] → stem_term word ≠ [].
Proof.
  intros Hne. unfold stem_term. case_match.
  - unfold lower. by destruct word.
  - apply porter_steps_nonempty. unfold lower. by destruct word.
Qed.
End stemmer_claims.

(** ** Dictionaries *)

Section dict_facts.
Context {K V : Type} `{EqDecision K}.
Implicit Types (d : list (K * V)) (k : K) (v : V).

Lemma get_put_eq k v d : Dict.get k (Dict.put k v d) = Some v.
Proof.
  induction d as [|[k' v'] d IH]; simpl.
  - by rewrite decide_True.
  - destruct (decide (k = k')) as [->|Hne]; simpl.
    + by rewrite decide_True.
    + by rewrite decide_False.
Qed.

Lemma get_put_ne k k' v d :
  k ≠ k' → Dict.get k' (Dict.put k v d) = Dict.get k' d.
Proof.
  intros Hne. induction d as [|[k'' v''] d IH]; simpl.
  - by rewrite decide_False.
  - destruct (decide (k = k'')) as [->|Hne']; simpl.
    + destruct (decide (k' = k'')); [congruence|done].
    + destruct (decide (k' = k'')); [done|apply IH].
Qed.

Lemma get_put k k' v d :
  Dict.get k' (Dict.put k v d) =
  if decide (k = k') then Some v else Dict.get k' d.
Proof.
  destruct (decide (k = k')) as [->|Hne];
    [apply get_put_eq | by apply get_put_ne].
Qed.

Lemma put_keys_in k v d : k ∈ d.*1 → (Dict.put k v d).*1 = d.*1.
Proof.
  induction d as [|[k' v'] d IH]; intros Hin.
  - by apply elem_of_nil in Hin.
  - cbn [Dict.put]. destruct (decide (k = k')) as [->|Hne]; [done|].
    rewrite !fmap_cons. f_equal. apply IH.
    rewrite fmap_cons in Hin. apply elem_of_cons in Hin as [?|?]; done.
Qed.

Lemma put_keys_notin k v d : k ∉ d.*1 → (Dict.put k v d).*1 = d.*1 ++ [k].
Proof.
  induction d as [|[k' v'] d IH]; intros Hnin; [done|].
  cbn [Dict.put]. rewrite fmap_cons in Hnin.
  apply not_elem_of_cons in Hnin as [Hne Hnin].
  destruct (decide (k = k')) as [->|_]; [done|].
  rewrite !fmap_cons. cbn. f_equal. by apply IH.
Qed.

Lemma put_NoDup k v d : NoDup d.*1 → NoDup (Dict.put k v d).*1.
Proof.
  intros Hnd. destruct (decide (k ∈ d.*1)) as [Hin|Hnin].
  - by rewrite put_keys_in.
  - rewrite put_keys_notin by done.
    apply NoDup_app. split_and!; [done| |apply NoDup_singleton].
    intros x Hx Hx'. apply list_elem_of_singleton in Hx' as ->. done.
Qed.

Lemma get_None k d : Dict.get k d = None ↔ k ∉ d.*1.
Proof.
  induction d as [|[k' v'] d IH]; simpl.
  - split; [intros _; apply not_elem_of_nil|done].
  - destruct (decide (k = k')) as [->|Hne].
    + split; [done|]. intros Hnin. destruct Hnin. apply list_elem_of_here.
    + rewrite IH. rewrite not_elem_of_cons. tauto.
Qed.


End dict_facts.

(** ** Counting loops *)

Lemma occ_nil t : occ t [] = 0.
Proof. done. Qed.

Lemma occ_cons t x l :
  occ t (x :: l) = (if decide (x = t) then 1 else 0) + occ t l.
Proof. unfold occ. rewrite filter_cons. by case_decide. Qed.

Lemma occ_app t l1 l2 : occ t (l1 ++ l2) = occ t l1 + occ t l2.
Proof. unfold occ. by rewrite filter_app, length_app. Qed.

Lemma occ_pos t l : 0 < occ t l ↔ t ∈ l.
Proof.
  induction l as [|x l IH]; [rewrite occ_nil, elem_of_nil; lia|].
  rewrite occ_cons, elem_of_cons. case_decide; subst.
  - split; [by left|lia].
  - rewrite <- IH. simpl. split; [by right|]. intros [?|?]; [congruence|done].
Qed.

Lemma occ_notin t l : t ∉ l → occ t l = 0.
Proof.
  intros Hnin. pose proof (occ_pos t l) as Hpos.
  destruct (occ t l); [done|]. destruct Hnin. apply Hpos. lia.
Qed.


Lemma bump_count counts term t :
  count_of (bump counts term) t =
  count_of counts t + (if decide (term = t) then 1 else 0).
Proof.
  unfold count_of, bump. rewrite get_put. case_decide; subst; simpl; lia.
Qed.

Lemma bump_positive counts term : positive counts → positive (bump counts term).
Proof.
  intros Hpos t n. unfold bump. rewrite get_put. case_decide.
  - intros [= <-]. lia.
  - apply Hpos.
Qed.

Lemma bump_NoDup counts term : NoDup counts.*1 → NoDup (bump counts term).*1.
Proof. apply put_NoDup. Qed.

Lemma put_sum (k : str) (v : nat) (d : list (str * nat)) :
  foldr Nat.add 0 (Dict.values (Dict.put k v d)) + default 0 (Dict.get k d) =
  foldr Nat.add 0 (Dict.values d) + v.
Proof.
  unfold Dict.values.
  induction d as [|[k' n] d IH]; cbn [Dict.put Dict.get]; [simpl; lia|].
  destruct (decide (k = k')) as [->|Hne]; rewrite !fmap_cons; simpl; lia.
Qed.

Lemma bump_sum counts term :
  foldr Nat.add 0 (Dict.values (bump counts term)) =
  foldr Nat.add 0 (Dict.values counts) + 1.
Proof.
  unfold bump.
  pose proof (put_sum term (default 0 (Dict.get term counts) + 1) counts). lia.
Qed.

Lemma foldl_bump_count counts l t :
  count_of (foldl bump counts l) t = count_of counts t + occ t l.
Proof.
  revert counts. induction l as [|x l IH]; intros counts; simpl.
  - rewrite occ_nil. lia.
  - rewrite IH, bump_count, occ_cons. lia.
Qed.

Lemma foldl_bump_positive counts l :
  positive counts → positive (foldl bump counts l).
Proof.
  revert counts. induction l as [|x l IH]; intros counts Hpos; simpl; [done|].
  by apply IH, bump_positive.
Qed.

Lemma foldl_bump_NoDup counts l :
  NoDup counts.*1 → NoDup (foldl bump counts l).*1.
Proof.
  revert counts. induction l as [|x l IH]; intros counts Hnd; simpl; [done|].
  by apply IH, bump_NoDup.
Qed.

Lemma foldl_bump_sum counts l :
  foldr Nat.add 0 (Dict.values (foldl bump counts l)) =
  foldr Nat.add 0 (Dict.values counts) + length l.
Proof.
  revert counts. induction l as [|x l IH]; intros counts; simpl; [lia|].
  rewrite IH, bump_sum. lia.
Qed.

Lemma positive_nil : positive [].
Proof. intros t n. done. Qed.

(** Under [positive], a look-up is determined by the count. *)
Lemma get_count_of counts t :
  positive counts →
  Dict.get t counts =
  if count_of counts t =? 0 then None else Some (count_of counts t).
Proof.
  intros Hpos. unfold count_of. destruct (Dict.get t counts) as [n|] eqn:Hget; simpl.
  - apply Hpos in Hget. by destruct n; [lia|].
  - done.
Qed.

(** ** Stopword filters *)

Lemma append_kept_spec keep terms :
  append_kept keep terms = lower <$> List.filter keep terms.
Proof.
  unfold append_kept.
  enough (∀ acc,
    foldl (fun filtered_terms term =>
             if keep term then filtered_terms ++ [lower term]
             else filtered_terms) acc terms
    = acc ++ (lower <$> List.filter keep terms)) as Hgen by apply Hgen.
  induction terms as [|t terms IH]; intros acc; simpl.
  - by rewrite app_nil_r.
  - rewrite IH. destruct (keep t); [|done].
    by rewrite fmap_cons, <- app_assoc.
Qed.

Lemma list_filter_length {A} (f : A → bool) (l : list A) :
  length (List.filter f l) ≤ length l.
Proof. induction l as [|x l IH]; simpl; [done|]. destruct (f x); simpl; lia. Qed.

Lemma list_filter_sublist {A} (f : A → bool) (l : list A) :
  sublist (List.filter f l) l.
Proof.
  induction l as [|x l IH]; simpl; [constructor|].
  destruct (f x); by constructor.
Qed.

Lemma list_filter_map {A B} (f : A → B) (g : B → bool) (l : list A) :
  List.filter g (map f l) = map f (List.filter (fun x => g (f x)) l).
Proof.
  induction l as [|x l IH]; simpl; [done|].
  destruct (g (f x)); simpl; by rewrite IH.
Qed.

Lemma remove_stopwords_by_list_spec (doc : Document) (stopwords : gset str) :
  let doc' := Stopwords.remove_stopwords_by_list doc stopwords in
  length (filtered_terms doc') ≤ length (terms doc) ∧
  Forall no_upper (filtered_terms doc') ∧
  filtered_terms doc' =
    List.filter (fun t => negb (bool_decide (t ∈ stopwords)))
                (map lower (terms doc)) ∧
  sublist (filtered_terms doc') (map lower (terms doc)) ∧
  terms doc' = terms doc ∧
  raw_text doc' = raw_text doc.
Proof.
  simpl. rewrite append_kept_spec.
  assert (lower <$> List.filter
            (fun term => negb (bool_decide (lower term ∈ stopwords))) (terms doc)
          = List.filter (fun t => negb (bool_decide (t ∈ stopwords)))
              (map lower (terms doc))) as Heq
    by (symmetry;
        apply (list_filter_map lower
                 (fun t => negb (bool_decide (t ∈ stopwords))))).
  split_and!; try done.
  - rewrite length_fmap. apply list_filter_length.
  - apply Forall_fmap, Forall_forall. intros t _. apply no_upper_lower.
  - rewrite Heq. apply list_filter_sublist.
Qed.

(** C7: after the list filter, [filtered_terms] is no longer than
    [terms], holds lowercase strings only, is the subsequence of the
    lowercased terms that are not in the stopword set, and [terms] and
    [raw_text] are as before; in both versions of the source. *)
Theorem remove_stopwords_by_list_invariant (doc : Document) (stopwords : gset str) :
  (let doc' := Stopwords.remove_stopwords_by_list doc stopwords in
   length (filtered_terms doc') ≤ length (terms doc) ∧
   Forall no_upper (filtered_terms doc') ∧
   filtered_terms doc' =
     List.filter (fun t => negb (bool_decide (t ∈ stopwords)))
                 (map lower (terms doc)) ∧
   sublist (filtered_terms doc') (map lower (terms doc)) ∧
   terms doc' = terms doc ∧
   raw_text doc' = raw_text doc) ∧
  (let doc' := StopwordsOld.remove_stopwords_by_list doc stopwords in
   length (filtered_terms doc') ≤ length (terms doc) ∧
   Forall no_upper (filtered_terms doc') ∧
   filtered_terms doc' =
     List.filter (fun t => negb (bool_decide (t ∈ stopwords)))
                 (map lower (terms doc)) ∧
   sublist (filtered_terms doc') (map lower (terms doc)) ∧
   terms doc' = terms doc ∧
   raw_text doc' = raw_text doc).
Proof. split; apply remove_stopwords_by_list_spec. Qed.






Lemma count_occurrences_from counts collection :
  let step := fun term_frequencies document =>
    foldl bump term_frequencies (terms document) in
  (positive counts → positive (foldl step counts collection)) ∧
  (NoDup counts.*1 → NoDup (foldl step counts collection).*1) ∧
  (∀ t, count_of (foldl step counts collection) t
        = count_of counts t + occurrences t collection) ∧
  foldr Nat.add 0 (Dict.values (foldl step counts collection))
  = foldr Nat.add 0 (Dict.values counts) + total_terms collection.
Proof.
  intros step. revert counts.
  induction collection as [|document collection IH]; intros counts; simpl.
  - split_and!; [done..| |]; unfold occurrences, total_terms; simpl; intros; lia.
  - destruct (IH (step counts document)) as (Hpos & Hnd & Hcount & Hsum).
    split_and!.
    + intros. by apply Hpos, foldl_bump_positive.
    + intros. by apply Hnd, foldl_bump_NoDup.
    + intros t. rewrite Hcount. unfold step.
      rewrite foldl_bump_count. unfold occurrences. simpl. lia.
    + rewrite Hsum. unfold step.
      rewrite foldl_bump_sum. unfold total_terms. simpl. lia.
Qed.

Lemma count_occurrences_spec collection :
  positive (StopwordsOld.count_occurrences collection) ∧
  NoDup (StopwordsOld.count_occurrences collection).*1 ∧
  (∀ t, count_of (StopwordsOld.count_occurrences collection) t
        = occurrences t collection) ∧
  foldr Nat.add 0 (Dict.values (StopwordsOld.count_occurrences collection))
  = total_terms collection.
Proof.
  destruct (count_occurrences_from [] collection) as (Hpos & Hnd & Hcount & Hsum).
  split_and!.
  - apply Hpos, positive_nil.
  - apply Hnd. constructor.
  - intros t. apply Hcount.
  - apply Hsum.
Qed.


Section frequency_filter.
Context {F : Type} `{Float F, FloatLe F}.
Implicit Types (rare common : F).











Lemma remove_by_frequency_empty doc rare common :
  filtered_terms (Stopwords.remove_stopwords_by_frequency doc [] rare common)
    = [] ∧
  filtered_terms (StopwordsOld.remove_stopwords_by_frequency doc [] common rare)
    = [].
Proof. done. Qed.
End frequency_filter.


(** In the scenario, with thresholds 0.25 and 0.5, the document
    frequencies 2/3 of "the" and "cat" are too common and 1/3 of "sat" is
    kept; with collection term frequencies and thresholds 0.125 and 0.5,
    "the" and "cat" (2/9 each) are kept and "sat" (1/9) is too rare. *)
Example frequency_filter_scenario :
  filtered_terms
    (Stopwords.remove_stopwords_by_frequency
       (make_document 0 ["the"; "cat"; "sat"]%string) example_collection
       0.25%float 0.5%float) = [lit "sat"] ∧
  filtered_terms
    (StopwordsOld.remove_stopwords_by_frequency
       (make_document 0 ["the"; "cat"; "sat"]%string) example_collection
       0.5%float 0.125%float) = [lit "the"; lit "cat"].
Proof. vm_compute. done. Qed.


(** ** Queries *)

Lemma blank_lower s : blank (lower s) = blank s.
Proof.
  unfold blank, lower. induction s as [|c s IH]; simpl; [done|].
  by rewrite is_space_lower_char, IH.
Qed.

Lemma blank_app s1 s2 : blank (s1 ++ s2) = blank s1 && blank s2.
Proof. apply forallb_app. Qed.

Lemma blank_rev s : blank (rev s) = blank s.
Proof.
  induction s as [|c s IH]; simpl; [done|].
  rewrite blank_app, IH. simpl. rewrite andb_true_r. apply andb_comm.
Qed.

Lemma blank_lstrip s : blank (lstrip s) = blank s.
Proof.
  induction s as [|c s IH]; simpl; [done|].
  destruct (is_space c) eqn:Hc; simpl; [done|by rewrite Hc].
Qed.

Lemma lstrip_blank s : blank s = true → lstrip s = [].
Proof.
  induction s as [|c s IH]; simpl; [done|].
  destruct (is_space c); simpl; [done|discriminate].
Qed.

Lemma blank_strip s : blank (strip s) = blank s.
Proof. unfold strip. by rewrite blank_rev, blank_lstrip, blank_rev, blank_lstrip. Qed.

Lemma strip_blank s : blank s = true → strip s = [].
Proof. intros Hb. unfold strip. by rewrite (lstrip_blank s Hb). Qed.

Lemma close_run_nonempty cur acc :
  cur ≠ [] ∨ acc ≠ [] → close_run cur acc ≠ [].
Proof.
  destruct cur; simpl; intros [?|?]; try done; by destruct acc.
Qed.

Lemma split_go_nonempty s cur acc :
  blank s = false ∨ cur ≠ [] ∨ acc ≠ [] → split_go s cur acc ≠ [].
Proof.
  revert cur acc. induction s as [|c s IH]; intros cur acc Hsome; simpl.
  - apply close_run_nonempty.
    destruct Hsome as [Hb|[?|?]]; [discriminate Hb|by left|by right].
  - destruct (is_space c) eqn:Hc.
    + apply IH. simpl in Hsome. rewrite Hc in Hsome. simpl in Hsome.
      destruct Hsome as [?|Hsome]; [by left|].
      right; right. by apply close_run_nonempty.
    + apply IH. right; left. by destruct cur.
Qed.

Lemma split_go_blank s acc : blank s = true → split_go s [] acc = acc.
Proof.
  revert acc. induction s as [|c s IH]; intros acc; simpl; [done|].
  destruct (is_space c); simpl; [apply IH|discriminate].
Qed.

(** The query has no term iff it is blank. *)
Lemma parse_query_nil query :
  Retrieval.parse_query query = [] ↔ blank query = true.
Proof.
  unfold Retrieval.parse_query, split. split.
  - intros Hnil. destruct (blank query) eqn:Hb; [done|].
    exfalso. revert Hnil. apply split_go_nonempty. left.
    by rewrite blank_strip, blank_lower.
  - intros Hb. rewrite strip_blank; [done|]. by rewrite blank_lower.
Qed.

(** ** Boolean search *)


Lemma matches_list_to_set qts (view : list str) :
  forallb (fun term => bool_decide (term ∈ (list_to_set view : gset str))) qts
  = matches qts view.
Proof.
  unfold matches. induction qts as [|t qts IH]; simpl; [done|].
  rewrite IH. f_equal. apply bool_decide_ext, elem_of_list_to_set.
Qed.

(** The scan of the collection appends one pair per document. *)
Lemma boolean_scan qts stopword_filtered stemmed collection results :
  foldl (fun results doc =>
           let terms_to_search :=
             Retrieval.select_terms doc stopword_filtered stemmed in
           let lowercase_terms := map lower terms_to_search in
           let lowercase_terms_set : gset str := list_to_set lowercase_terms in
           let all_terms_found :=
             forallb (fun term => bool_decide (term ∈ lowercase_terms_set)) qts in
           if all_terms_found then results ++ [(1, doc)]
           else results ++ [(0, doc)])
        results collection
  = results ++
    map (fun doc =>
           (if matches qts (term_view doc stopword_filtered stemmed)
            then 1 else 0, doc))
        collection.
Proof.
  revert results. induction collection as [|doc collection IH]; intros results.
  - simpl. by rewrite app_nil_r.
  - cbn [foldl map]. rewrite IH. cbv zeta.
    rewrite matches_list_to_set. fold (term_view doc stopword_filtered stemmed).
    destruct (matches qts (term_view doc stopword_filtered stemmed));
      by rewrite <- app_assoc.
Qed.

Lemma filter_matching (m : Document → bool) (collection : list Document) :
  filter (fun r : nat * Document => r.1 = 1)
         (map (fun doc => (if m doc then 1 else 0, doc)) collection)
  = map (fun doc => (1, doc)) (List.filter m collection).
Proof.
  induction collection as [|doc collection IH]; [done|].
  cbn [map List.filter]. rewrite filter_cons. cbn [fst].
  destruct (m doc); case_decide; try done. cbn [map]. by rewrite IH.
Qed.

Lemma linear_boolean_search_spec query collection stopword_filtered stemmed :
  blank query = false →
  Retrieval.linear_boolean_search query collection stopword_filtered stemmed
  = let scored :=
      map (fun doc =>
             (if matches (query_terms query stemmed)
                         (term_view doc stopword_filtered stemmed)
              then 1 else 0, doc))
          collection in
    if stemmed then filter (fun r => r.1 = 1) scored else scored.
Proof.
  intros Hquery. unfold Retrieval.linear_boolean_search.
  rewrite bool_decide_eq_false_2.
  2:{ rewrite parse_query_nil. by rewrite Hquery. }
  cbv zeta. rewrite boolean_scan. by destruct stemmed.
Qed.



(** The end-to-end scenario: the query "cat dog" matches document 2 only. *)
Example boolean_scenario :
  map (fun r => (r.1, document_id r.2))
      (Retrieval.linear_boolean_search (lit "cat dog") example_collection
         false false)
  = [(0, 0%Z); (0, 1%Z); (1, 2%Z)] ∧
  map (fun r => (r.1, document_id r.2))
      (Retrieval.linear_boolean_search (lit "cat dog") example_collection
         false true)
  = [(1, 2%Z)] ∧
  filtered_terms
    (Stopwords.remove_stopwords_by_list
       (make_document 0 ["the"; "cat"; "sat"]%string) {[lit "the"]})
  = [lit "cat"; lit "sat"].
Proof. vm_compute. done. Qed.

(** ** Precision and recall *)

Section precision_recall_facts.
Context {F : Type} `{Float F}.

Lemma precision_recall_nonempty (retrieved relevant : gset Z) :
  retrieved ≠ ∅ → relevant ≠ ∅ →
  Retrieval.precision_recall retrieved relevant
  = (f_div (f_of_nat (size (retrieved ∩ relevant)))
           (f_of_nat (size retrieved)),
     f_div (f_of_nat (size (retrieved ∩ relevant)))
           (f_of_nat (size relevant))).
Proof.
  intros Hret Hrel. unfold Retrieval.precision_recall.
  by rewrite !bool_decide_eq_false_2 by done.
Qed.

Lemma precision_recall_empty (retrieved relevant : gset Z) :
  retrieved = ∅ ∨ relevant = ∅ →
  Retrieval.precision_recall retrieved relevant = (f_zero, f_zero).
Proof.
  intros Hempty. unfold Retrieval.precision_recall.
  repeat case_bool_decide; simpl; try done. by destruct Hempty.
Qed.
End precision_recall_facts.

Lemma precision_recall_real_example :
  Retrieval.precision_recall (F:=R) {[1%Z; 2%Z]} {[2%Z; 3%Z]}
  = (0.5%R, 0.5%R).
Proof.
  rewrite precision_recall_nonempty.
  - assert (size ({[1%Z; 2%Z]} ∩ {[2%Z; 3%Z]} : gset Z) = 1) as -> by done.
    assert (size ({[1%Z; 2%Z]} : gset Z) = 2) as -> by done.
    assert (size ({[2%Z; 3%Z]} : gset Z) = 2) as -> by done.
    f_equal; simpl; lra.
  - apply (non_empty_inhabited_L 1%Z). set_solver.
  - apply (non_empty_inhabited_L 2%Z). set_solver.
Qed.

(** C5: with both sets non-empty the result is the size of the
    intersection divided by the size of the retrieved set and by the size
    of the relevant set; with either set empty it is (0.0, 0.0); on the
    three examples of the specification the result is as stated, in
    binary64 and in real arithmetic. *)
Theorem precision_recall_spec {F : Type} `{Float F} (retrieved relevant : gset Z) :
  (retrieved ≠ ∅ → relevant ≠ ∅ →
   Retrieval.precision_recall (F:=F) retrieved relevant
   = (f_div (f_of_nat (size (retrieved ∩ relevant)))
            (f_of_nat (size retrieved)),
      f_div (f_of_nat (size (retrieved ∩ relevant)))
            (f_of_nat (size relevant)))) ∧
  (retrieved = ∅ ∨ relevant = ∅ →
   Retrieval.precision_recall (F:=F) retrieved relevant = (f_zero, f_zero)) ∧
  Retrieval.precision_recall (F:=float) {[1%Z; 2%Z]} {[2%Z; 3%Z]}
    = (0.5%float, 0.5%float) ∧
  Retrieval.precision_recall (F:=float) ∅ {[1%Z; 2%Z]} = (0%float, 0%float) ∧
  Retrieval.precision_recall (F:=float) {[1%Z; 2%Z]} ∅ = (0%float, 0%float) ∧
  Retrieval.precision_recall (F:=R) {[1%Z; 2%Z]} {[2%Z; 3%Z]}
    = (0.5%R, 0.5%R) ∧
  Retrieval.precision_recall (F:=R) ∅ {[1%Z; 2%Z]} = (0%R, 0%R) ∧
  Retrieval.precision_recall (F:=R) {[1%Z; 2%Z]} ∅ = (0%R, 0%R).
Proof.
  split_and!.
  - apply precision_recall_nonempty.
  - apply precision_recall_empty.
  - by vm_compute.
  - by vm_compute.
  - by vm_compute.
  - apply precision_recall_real_example.
  - by rewrite (precision_recall_empty (F:=R)) by by left.
  - by rewrite (precision_recall_empty (F:=R)) by by right.
Qed.

Lemma precision_recall_spec_witness :
  ({[1%Z; 2%Z]} : gset Z) ≠ ∅ ∧ ({[2%Z; 3%Z]} : gset Z) ≠ ∅ ∧
  Retrieval.precision_recall (F:=float) {[1%Z; 2%Z]} {[2%Z; 3%Z]}
  = (f_div (f_of_nat (size ({[1%Z; 2%Z]} ∩ {[2%Z; 3%Z]} : gset Z)))
           (f_of_nat (size ({[1%Z; 2%Z]} : gset Z))),
     f_div (f_of_nat (size ({[1%Z; 2%Z]} ∩ {[2%Z; 3%Z]} : gset Z)))
           (f_of_nat (size ({[2%Z; 3%Z]} : gset Z)))) ∧
  ((∅ : gset Z) = ∅ ∨ ({[1%Z; 2%Z]} : gset Z) = ∅) ∧
  Retrieval.precision_recall (F:=float) ∅ {[1%Z; 2%Z]} = (f_zero, f_zero).
Proof.
  assert (({[1%Z; 2%Z]} : gset Z) ≠ ∅) as H12
    by (apply (non_empty_inhabited_L 1%Z); set_solver).
  assert (({[2%Z; 3%Z]} : gset Z) ≠ ∅) as H23
    by (apply (non_empty_inhabited_L 2%Z); set_solver).
  split_and!; [exact H12 | exact H23 | | by left | ].
  - exact (proj1 (precision_recall_spec (F:=float) {[1%Z; 2%Z]} {[2%Z; 3%Z]})
             H12 H23).
  - exact (proj1 (proj2 (precision_recall_spec (F:=float) ∅ {[1%Z; 2%Z]}))
             (or_introl eq_refl)).
Defined.

(** ** The inverted index *)

Lemma count_terms_spec (view : list str) :
  positive (Retrieval.count_terms view) ∧
  NoDup (Retrieval.count_terms view).*1 ∧
  ∀ t, count_of (Retrieval.count_terms view) t = occ t view.
Proof.
  unfold Retrieval.count_terms. split_and!.
  - apply foldl_bump_positive, positive_nil.
  - apply foldl_bump_NoDup. constructor.
  - intros t. by rewrite foldl_bump_count.
Qed.

Lemma count_terms_get (view : list str) (t : str) :
  Dict.get t (Retrieval.count_terms view)
  = if occ t view =? 0 then None else Some (occ t view).
Proof.
  destruct (count_terms_spec view) as (Hpos & _ & Hcount).
  rewrite get_count_of by done. by rewrite Hcount.
Qed.

(** The loop that appends the postings of one document. *)
Lemma add_document_postings (id : Z) (counts : list (str * nat))
    (index : list (str * list (Z * nat))) (t : str) :
  NoDup counts.*1 →
  Dict.get t
    (foldl (fun inverted_index '(term, count) =>
              Dict.put term
                (default [] (Dict.get term inverted_index) ++ [(id, count)])
                inverted_index)
           index counts)
  = match Dict.get t counts with
    | Some count => Some (default [] (Dict.get t index) ++ [(id, count)])
    | None => Dict.get t index
    end.
Proof.
  revert index. induction counts as [|[k n] counts IH]; intros index Hnd.
  - done.
  - rewrite fmap_cons in Hnd. apply NoDup_cons in Hnd as [Hnin Hnd].
    cbn [fst] in Hnin. cbn [foldl Dict.get]. rewrite IH by done.
    destruct (decide (t = k)) as [->|Hne].
    + apply get_None in Hnin. rewrite Hnin. by rewrite get_put_eq.
    + rewrite get_put_ne by done. done.
Qed.

Lemma add_document_postings_NoDup (id : Z) (counts : list (str * nat))
    (index : list (str * list (Z * nat))) :
  NoDup index.*1 →
  NoDup (foldl (fun inverted_index '(term, count) =>
                  Dict.put term
                    (default [] (Dict.get term inverted_index) ++ [(id, count)])
                    inverted_index)
               index counts).*1.
Proof.
  revert index. induction counts as [|[k n] counts IH]; intros index Hnd.
  - done.
  - cbn [foldl]. by apply IH, put_NoDup.
Qed.

Lemma postings_cons t doc collection stopword_filtered stemmed :
  postings t (doc :: collection) stopword_filtered stemmed
  = match posting_of t stopword_filtered stemmed doc with
    | Some p => p :: postings t collection stopword_filtered stemmed
    | None => postings t collection stopword_filtered stemmed
    end.
Proof. done. Qed.

Lemma postings_app t c1 c2 stopword_filtered stemmed :
  postings t (c1 ++ c2) stopword_filtered stemmed
  = postings t c1 stopword_filtered stemmed
    ++ postings t c2 stopword_filtered stemmed.
Proof. apply omap_app. Qed.

Lemma extended_cons {A} (entry : option (list A)) (p : A) (ps : list A) :
  extended (Some (default [] entry ++ [p])) ps = extended entry (p :: ps).
Proof.
  destruct ps; simpl; [done|]. by rewrite <- app_assoc.
Qed.

Lemma build_index_from index collection stopword_filtered stemmed :
  let step := fun inverted_index doc =>
    let terms := Retrieval.select_terms doc stopword_filtered stemmed in
    let terms := map lower terms in
    let term_counts := Retrieval.count_terms terms in
    foldl (fun inverted_index '(term, count) =>
             Dict.put term
               (default [] (Dict.get term inverted_index)
                  ++ [(document_id doc, count)])
               inverted_index)
          inverted_index (Dict.items term_counts) in
  (NoDup index.*1 → NoDup (foldl step index collection).*1) ∧
  ∀ t, Dict.get t (foldl step index collection)
       = extended (Dict.get t index)
                  (postings t collection stopword_filtered stemmed).
Proof.
  intros step. revert index.
  induction collection as [|doc collection IH]; intros index.
  - done.
  - destruct (IH (step index doc)) as [Hnd Hget]. split.
    + intros Hindex. apply Hnd. unfold step. by apply add_document_postings_NoDup.
    + intros t. cbn [foldl]. rewrite Hget. rewrite postings_cons.
      unfold step. cbv zeta. unfold Dict.items.
      rewrite add_document_postings
        by apply (count_terms_spec
                    (map lower (Retrieval.select_terms doc stopword_filtered
                                  stemmed))).
      rewrite count_terms_get. unfold posting_of, term_view.
      destruct (occ t _ =? 0); [done|]. apply extended_cons.
Qed.

(** The index maps a term to its posting list, and holds the terms that
    have a posting. *)
Lemma build_index_spec collection stopword_filtered stemmed :
  NoDup (Retrieval.build_index collection stopword_filtered stemmed).*1 ∧
  ∀ t, Dict.get t (Retrieval.build_index collection stopword_filtered stemmed)
       = match postings t collection stopword_filtered stemmed with
         | [] => None
         | ps => Some ps
         end.
Proof.
  destruct (build_index_from [] collection stopword_filtered stemmed)
    as [Hnd Hget].
  split; [apply Hnd; constructor|].
  intros t. unfold Retrieval.build_index. rewrite Hget. simpl.
  by destruct (postings t collection stopword_filtered stemmed).
Qed.

Lemma postings_tf t collection stopword_filtered stemmed (p : Z * nat) :
  p ∈ postings t collection stopword_filtered stemmed → 1 ≤ p.2.
Proof.
  unfold postings. rewrite list_elem_of_omap. intros (doc & _ & Hpost).
  unfold posting_of in Hpost.
  destruct (occ t _ =? 0) eqn:Hocc; [done|].
  apply Nat.eqb_neq in Hocc. injection Hpost as <-. simpl. lia.
Qed.

Lemma postings_length t collection stopword_filtered stemmed :
  length (postings t collection stopword_filtered stemmed) ≤ length collection.
Proof.
  induction collection as [|doc collection IH]; [done|].
  rewrite postings_cons. destruct (posting_of _ _ _ _); simpl; lia.
Qed.

Lemma document_frequencies_from (index : list (str * list (Z * nat)))
    (start : gmap str nat) (t : str) :
  NoDup index.*1 →
  foldl (fun (doc_frequencies : gmap str nat) '(term, postings) =>
           <[term := length postings]> doc_frequencies)
        start index !! t
  = match Dict.get t index with
    | Some ps => Some (length ps)
    | None => start !! t
    end.
Proof.
  revert start. induction index as [|[k ps] index IH]; intros start Hnd.
  - done.
  - rewrite fmap_cons in Hnd. apply NoDup_cons in Hnd as [Hnin Hnd].
    cbn [fst] in Hnin. cbn [foldl Dict.get]. rewrite IH by done.
    destruct (decide (t = k)) as [->|Hne].
    + apply get_None in Hnin. rewrite Hnin. apply lookup_insert_eq.
    + destruct (Dict.get t index); [done|]. by apply lookup_insert_ne.
Qed.

Lemma document_frequencies_spec (index : list (str * list (Z * nat))) (t : str) :
  NoDup index.*1 →
  Retrieval.document_frequencies index !! t = length <$> Dict.get t index.
Proof.
  intros Hnd. unfold Retrieval.document_frequencies, Dict.items.
  rewrite document_frequencies_from by done.
  by destruct (Dict.get t index).
Qed.

(** ** Vector space scores *)

Section scoring_facts.
Context {F : Type} `{Float F, FloatLog F}.

Lemma score_of_insert (doc_scores : gmap Z F) (d id : Z) (x : F) :
  Retrieval.score_of (<[d := x]> doc_scores) id
  = if decide (d = id) then x else Retrieval.score_of doc_scores id.
Proof.
  unfold Retrieval.score_of. case_decide as Hd.
  - subst. by rewrite lookup_insert_eq.
  - by rewrite lookup_insert_ne.
Qed.

(** The loop over one posting list adds, in order, the weights of the
    postings that carry the identifier. *)
Lemma add_postings_score (idf0 : F) (ps : list (Z * nat))
    (doc_scores : gmap Z F) (id : Z) :
  Forall (fun p : Z * nat => 1 ≤ p.2) ps →
  Retrieval.score_of (Retrieval.add_postings idf0 ps doc_scores) id
  = foldl f_add (Retrieval.score_of doc_scores id)
      (map (fun p : Z * nat => f_mul (tf_weight p.2) idf0)
           (filter (fun p : Z * nat => p.1 = id) ps)).
Proof.
  revert doc_scores. induction ps as [|[d tf] ps IH]; intros doc_scores Hall.
  - done.
  - apply Forall_cons in Hall as [Htf Hall]. cbn [snd] in Htf.
    unfold Retrieval.add_postings in *. cbn [foldl]. rewrite IH by done.
    rewrite filter_cons. cbn [fst]. rewrite score_of_insert.
    assert ((0 <? tf) = true) as -> by (apply Nat.ltb_lt; lia).
    destruct (decide (d = id)) as [->|Hne]; done.
Qed.

Lemma score_query_from (qts : list str) (collection : list Document)
    (stopword_filtered stemmed : bool) (doc_scores : gmap Z F) (id : Z) :
  let inverted_index :=
    Retrieval.build_index collection stopword_filtered stemmed in
  let doc_frequencies := Retrieval.document_frequencies inverted_index in
  let total_docs := length collection in
  Retrieval.score_of
    (foldl (fun (doc_scores : gmap Z F) query_term =>
              match Dict.get query_term inverted_index with
              | None => doc_scores
              | Some postings =>
                  let df := default 0 (doc_frequencies !! query_term) in
                  let idf :=
                    if 0 <? df
                    then f_log (f_div (f_of_nat total_docs) (f_of_nat df))
                    else f_of_nat 0 in
                  Retrieval.add_postings idf postings doc_scores
              end)
           doc_scores qts) id
  = foldl f_add (Retrieval.score_of doc_scores id)
      (concat (map (contributions id collection stopword_filtered stemmed)
                   qts)).
Proof.
  intros inverted_index doc_frequencies total_docs. revert doc_scores.
  destruct (build_index_spec collection stopword_filtered stemmed)
    as [Hnd Hget].
  induction qts as [|qt qts IH]; intros doc_scores; [done|].
  cbn [foldl map concat]. rewrite IH, foldl_app. f_equal.
  unfold doc_frequencies. rewrite document_frequencies_spec by done.
  unfold inverted_index. rewrite Hget.
  unfold contributions, idf.
  pose proof (postings_tf qt collection stopword_filtered stemmed) as Htf.
  destruct (postings qt collection stopword_filtered stemmed) as [|p ps]
    eqn:Hps; [done|].
  cbn [fmap option_fmap option_map default length].
  cbn [Nat.ltb Nat.leb].
  apply add_postings_score. apply Forall_forall. exact Htf.
Qed.

Lemma collect_results (doc_scores : gmap Z F) (collection : list Document)
    (results : list (F * Document)) :
  foldl (fun results doc =>
           let score := Retrieval.score_of doc_scores (document_id doc) in
           results ++ [(score, doc)])
        results collection
  = results ++
    map (fun doc => (Retrieval.score_of doc_scores (document_id doc), doc))
        collection.
Proof.
  revert results. induction collection as [|doc collection IH];
    intros results; simpl.
  - by rewrite app_nil_r.
  - by rewrite IH, <- app_assoc.
Qed.

Lemma query_terms_nil query stemmed :
  Retrieval.parse_query query = [] → query_terms query stemmed = [].
Proof. unfold query_terms. intros ->. by destruct stemmed. Qed.

(** The result of the search: one pair per document, in the order of
    the collection, with the score of its identifier. *)
Lemma vector_space_search_spec query collection stopword_filtered stemmed :
  Retrieval.vector_space_search query collection stopword_filtered stemmed
  = map (fun doc =>
           (score (query_terms query stemmed) (document_id doc) collection
                  stopword_filtered stemmed, doc))
        collection.
Proof.
  unfold Retrieval.vector_space_search.
  case_bool_decide as Hcoll; [by subst|].
  case_bool_decide as Hquery.
  - rewrite (query_terms_nil _ _ Hquery). done.
  - cbv zeta. rewrite collect_results. cbn [app].
    apply map_ext. intros doc. f_equal.
    unfold Retrieval.score_query. rewrite score_query_from. done.
Qed.

Lemma score_no_posting qts id collection stopword_filtered stemmed :
  (∀ t p, t ∈ qts →
          p ∈ postings t collection stopword_filtered stemmed →
          p.1 ≠ id) →
  score (F:=F) qts id collection stopword_filtered stemmed = f_zero.
Proof.
  intros Hnone. unfold score.
  assert (concat (map (contributions (F:=F) id collection stopword_filtered
                         stemmed) qts) = []) as ->; [|done].
  induction qts as [|t qts IH]; [done|].
  cbn [map concat]. rewrite IH.
  - rewrite app_nil_r. unfold contributions.
    assert (filter (fun p : Z * nat => p.1 = id)
              (postings t collection stopword_filtered stemmed) = []) as ->;
      [|done].
    apply elem_of_nil_inv. intros p Hp.
    apply list_elem_of_filter in Hp as [Hid Hp].
    exact (Hnone t p (list_elem_of_here _ _) Hp Hid).
  - intros t' p Ht'. apply Hnone. by apply list_elem_of_further.
Qed.
End scoring_facts.



(** The scores of the scenario for the query "cat dog", unevaluated. *)
Example vector_space_scenario :
  map fst (Retrieval.vector_space_search (F:=expr) (lit "cat dog")
             example_collection false false)
  = [ EAdd (ENat 0)
        (EMul (EAdd (ENat 1) (ELog (ENat 1))) (ELog (EDiv (ENat 3) (ENat 2))));
      EAdd (ENat 0)
        (EMul (EAdd (ENat 1) (ELog (ENat 1))) (ELog (EDiv (ENat 3) (ENat 2))));
      EAdd
        (EAdd (ENat 0)
           (EMul (EAdd (ENat 1) (ELog (ENat 1)))
                 (ELog (EDiv (ENat 3) (ENat 2)))))
        (EMul (EAdd (ENat 1) (ELog (ENat 1))) (ELog (EDiv (ENat 3) (ENat 2)))) ].
Proof. by vm_compute. Qed.

(** ** Degenerate inputs *)

Lemma vector_space_search_blank {F : Type} `{Float F, FloatLog F}
    (query : str) (collection : list Document)
    (stopword_filtered stemmed : bool) :
  blank query = true →
  Retrieval.vector_space_search (F:=F) query collection stopword_filtered stemmed
  = map (fun doc => (f_zero, doc)) collection.
Proof.
  intros Hblank. unfold Retrieval.vector_space_search.
  case_bool_decide as Hcoll; [by subst|].
  by rewrite bool_decide_eq_true_2 by by apply parse_query_nil.
Qed.

Lemma linear_boolean_search_blank (query : str) (collection : list Document)
    (stopword_filtered stemmed : bool) :
  blank query = true →
  Retrieval.linear_boolean_search query collection stopword_filtered stemmed
  = map (fun doc => (0, doc)) collection.
Proof.
  intros Hblank. unfold Retrieval.linear_boolean_search.
  by rewrite bool_decide_eq_true_2 by by apply parse_query_nil.
Qed.

(** C6: the vector space search of an empty collection is the empty
    list; for an empty or blank query it gives every document the score
    0.0 and the Boolean search gives every document the score 0, in all
    four modes; the frequency filters set [filtered_terms] to the empty
    list when the reference collection is empty. *)
Theorem degenerate_inputs {F : Type} `{Float F, FloatLe F, FloatLog F}
    (query : str) (collection : list Document) (doc : Document)
    (rare common : F) (stopword_filtered stemmed : bool) :
  blank query = true →
  (∀ any_query : str,
     Retrieval.vector_space_search (F:=F) any_query [] stopword_filtered stemmed
     = []) ∧
  Retrieval.vector_space_search (F:=F) query collection stopword_filtered stemmed
  = map (fun doc => (f_zero, doc)) collection ∧
  Retrieval.linear_boolean_search query collection stopword_filtered stemmed
  = map (fun doc => (0, doc)) collection ∧
  filtered_terms (Stopwords.remove_stopwords_by_frequency doc [] rare common)
  = [] ∧
  filtered_terms (StopwordsOld.remove_stopwords_by_frequency doc [] common rare)
  = [].
Proof.
  intros Hblank. split_and!.
  - done.
  - by apply vector_space_search_blank.
  - by apply linear_boolean_search_blank.
  - apply remove_by_frequency_empty.
  - apply (remove_by_frequency_empty doc rare common).
Qed.

Lemma degenerate_inputs_witness :
  blank (lit "  ") = true ∧
  Retrieval.vector_space_search (F:=R) (lit "  ") example_collection false true
  = map (fun doc => (f_zero, doc)) example_collection ∧
  Retrieval.linear_boolean_search (lit "  ") example_collection false true
  = map (fun doc => (0, doc)) example_collection.
Proof.
  split; [reflexivity|].
  destruct (degenerate_inputs (F:=R) (lit "  ") example_collection
              (make_document 0 []) 0%R 1%R false true eq_refl)
    as (_ & Hvsm & Hbool & _).
  by split.
Defined.

(** ** Monotonicity of the scores *)

(** Real arithmetic satisfies the order laws. *)
Lemma ln_le_mono (x y : R) : (0 < x)%R → (x <= y)%R → (ln x <= ln y)%R.
Proof.
  intros Hx [Hlt| ->]; [|apply Rle_refl].
  apply Rlt_le. by apply ln_increasing.
Qed.

Lemma ln_nonneg (x : R) : (1 <= x)%R → (0 <= ln x)%R.
Proof.
  intros Hx. rewrite <- ln_1. apply ln_le_mono; [lra|done].
Qed.

Lemma INR_ge_1 (n : nat) : 1 ≤ n → (1 <= INR n)%R.
Proof. intros Hn. apply (le_INR 1 n) in Hn. simpl in Hn. exact Hn. Qed.

Lemma ratio_ge_1 (n d : nat) : 1 ≤ d → d ≤ n → (1 <= INR n / INR d)%R.
Proof.
  intros Hd Hdn. pose proof (INR_ge_1 d Hd) as Hd1.
  pose proof (le_INR d n Hdn) as Hle.
  apply (Rmult_le_reg_r (INR d)); [lra|].
  unfold Rdiv. rewrite Rmult_assoc, Rinv_l by lra. lra.
Qed.

#[global] Instance R_order : FloatOrder R.
Proof.
  refine {| f_le := Rle |}.
  - apply Rle_refl.
  - apply Rle_trans.
  - intros x x' y y'. apply Rplus_le_compat.
  - intros x y Hy. change (0 <= y)%R in Hy. simpl. lra.
  - intros x y z Hz Hxy. change (0 <= z)%R in Hz. simpl.
    by apply Rmult_le_compat_r.
  - intros x y Hx Hy. change (0 <= x)%R in Hx. change (0 <= y)%R in Hy.
    change (0 <= x * y)%R. by apply Rmult_le_pos.
  - change (0 <= 1)%R. lra.
  - intros n Hn. change (0 <= ln (INR n))%R. by apply ln_nonneg, INR_ge_1.
  - intros m n Hm Hmn. change (ln (INR m) <= ln (INR n))%R.
    apply ln_le_mono; [|by apply le_INR].
    pose proof (INR_ge_1 m Hm). lra.
  - intros n d Hd Hdn. change (0 <= ln (INR n / INR d))%R.
    by apply ln_nonneg, ratio_ge_1.
Defined.

Section monotonicity.
Context {F : Type} `{FloatOrder F}.

Lemma dominated_refl (l : list F) : dominated l l.
Proof. induction l; constructor; [apply f_le_refl|done]. Qed.

Lemma dominated_app (l1 l1' l2 l2' : list F) :
  dominated l1 l1' → dominated l2 l2' → dominated (l1 ++ l2) (l1' ++ l2').
Proof. induction 1; intros; simpl; [done|constructor; auto..]. Qed.

Lemma dominated_concat (ls ls' : list (list F)) :
  Forall2 dominated ls ls' → dominated (concat ls) (concat ls').
Proof.
  induction 1; simpl; [constructor|]. by apply dominated_app.
Qed.

(** Adding up a dominating list from a larger start gives a larger sum. *)
Lemma foldl_dominated (l l' : list F) (a a' : F) :
  dominated l l' → f_le a a' →
  f_le (foldl f_add a l) (foldl f_add a' l').
Proof.
  intros Hdom. revert a a'.
  induction Hdom as [|x x' l l' Hx _ IH|x' l l' Hx' _ IH]; intros a a' Ha; simpl.
  - done.
  - apply IH. by apply f_add_mono.
  - apply IH. eapply f_le_trans; [exact Ha|]. by apply f_add_nonneg.
Qed.

Lemma tf_weight_nonneg (tf : nat) : 1 ≤ tf → f_le f_zero (tf_weight tf).
Proof.
  intros Htf. unfold tf_weight.
  eapply f_le_trans; [apply f_one_nonneg|].
  by apply f_add_nonneg, f_log_nat_nonneg.
Qed.

Lemma tf_weight_mono (m n : nat) :
  1 ≤ m → m ≤ n → f_le (tf_weight m) (tf_weight n).
Proof.
  intros Hm Hmn. unfold tf_weight.
  apply f_add_mono; [apply f_le_refl|by apply f_log_nat_mono].
Qed.
End monotonicity.

Lemma posting_of_id t stopword_filtered stemmed doc p :
  posting_of t stopword_filtered stemmed doc = Some p → p.1 = document_id doc.
Proof.
  unfold posting_of. destruct (occ t _ =? 0); [done|]. by intros [= <-].
Qed.

Lemma filter_postings_other (id : Z) t collection stopword_filtered stemmed :
  id ∉ map document_id collection →
  filter (fun p : Z * nat => p.1 = id)
         (postings t collection stopword_filtered stemmed) = [].
Proof.
  intros Hnin. apply elem_of_nil_inv. intros p Hp.
  apply list_elem_of_filter in Hp as [Hid Hp].
  unfold postings in Hp. apply list_elem_of_omap in Hp as (doc & Hdoc & Hpost).
  apply posting_of_id in Hpost. apply Hnin.
  apply list_elem_of_fmap. exists doc. split; [congruence|done].
Qed.

(** With unique identifiers, the postings of a term with the identifier
    of a document are the posting of that document, if it has one. *)
Lemma filter_postings_own t pre doc post stopword_filtered stemmed :
  NoDup (map document_id (pre ++ doc :: post)) →
  filter (fun p : Z * nat => p.1 = document_id doc)
         (postings t (pre ++ doc :: post) stopword_filtered stemmed)
  = match posting_of t stopword_filtered stemmed doc with
    | Some p => [p]
    | None => []
    end.
Proof.
  intros Hnd. rewrite map_app, map_cons in Hnd.
  apply NoDup_app in Hnd as (_ & Hpre & Hnd).
  apply NoDup_cons in Hnd as [Hpost _].
  rewrite postings_app, postings_cons, filter_app.
  rewrite filter_postings_other.
  2:{ intros Hin. apply (Hpre _ Hin). apply list_elem_of_here. }
  cbn [app].
  destruct (posting_of t stopword_filtered stemmed doc) as [p|] eqn:Hp.
  - rewrite filter_cons_True by by apply posting_of_id in Hp.
    by rewrite filter_postings_other.
  - by rewrite filter_postings_other.
Qed.

Lemma postings_length_replace t pre doc post stopword_filtered stemmed :
  length (postings t (pre ++ doc :: post) stopword_filtered stemmed)
  = length (postings t pre stopword_filtered stemmed)
    + (if occ t (term_view doc stopword_filtered stemmed) =? 0 then 0 else 1)
    + length (postings t post stopword_filtered stemmed).
Proof.
  rewrite postings_app, postings_cons, length_app. unfold posting_of.
  destruct (occ t _ =? 0); simpl; lia.
Qed.

Section own_contributions.
Context {F : Type} `{FloatOrder F}.
Implicit Types (pre post : list Document) (stopword_filtered stemmed : bool).

Lemma idf_nonneg (u : str) (collection : list Document)
    stopword_filtered stemmed :
  postings u collection stopword_filtered stemmed ≠ [] →
  f_le f_zero (idf u collection stopword_filtered stemmed).
Proof.
  intros Hne. unfold idf. apply f_log_ratio_nonneg.
  - destruct (postings u collection stopword_filtered stemmed); simpl; [done|lia].
  - apply postings_length.
Qed.

Lemma idf_nonneg_own (u : str) pre doc post stopword_filtered stemmed :
  occ u (term_view doc stopword_filtered stemmed) ≠ 0 →
  f_le f_zero (idf u (pre ++ doc :: post) stopword_filtered stemmed).
Proof.
  intros Hocc. apply idf_nonneg. rewrite postings_app, postings_cons.
  unfold posting_of. rewrite (proj2 (Nat.eqb_neq _ _) Hocc).
  by destruct (postings u pre stopword_filtered stemmed).
Qed.

Lemma contributions_own (u : str) pre doc post stopword_filtered stemmed :
  NoDup (map document_id (pre ++ doc :: post)) →
  contributions (F:=F) (document_id doc) (pre ++ doc :: post)
                stopword_filtered stemmed u
  = if occ u (term_view doc stopword_filtered stemmed) =? 0 then []
    else [f_mul (tf_weight (occ u (term_view doc stopword_filtered stemmed)))
                (idf u (pre ++ doc :: post) stopword_filtered stemmed)].
Proof.
  intros Hnd. unfold contributions. rewrite filter_postings_own by done.
  unfold posting_of. by destruct (occ u _ =? 0).
Qed.

Lemma idf_same (u : str) pre d d' post stopword_filtered stemmed :
  (occ u (term_view d stopword_filtered stemmed) =? 0)
  = (occ u (term_view d' stopword_filtered stemmed) =? 0) →
  idf (F:=F) u (pre ++ d :: post) stopword_filtered stemmed
  = idf u (pre ++ d' :: post) stopword_filtered stemmed.
Proof.
  intros Hsame. unfold idf.
  rewrite !postings_length_replace, Hsame, !length_app. done.
Qed.
End own_contributions.

Section score_monotone.
Context {F : Type} `{FloatOrder F}.
Variables (pre post : list Document) (d d' : Document).
Variables (stopword_filtered stemmed : bool) (t : str).
Hypothesis unique_ids : NoDup (map document_id (pre ++ d :: post)).
Hypothesis same_id : document_id d' = document_id d.
Hypothesis other_terms :
  ∀ u, u ≠ t →
       occ u (term_view d' stopword_filtered stemmed)
       = occ u (term_view d stopword_filtered stemmed).
Hypothesis more_occurrences :
  occ t (term_view d stopword_filtered stemmed)
  ≤ occ t (term_view d' stopword_filtered stemmed).

Lemma unique_ids' : NoDup (map document_id (pre ++ d' :: post)).
Proof.
  rewrite map_app, map_cons, same_id. by rewrite map_app, map_cons in unique_ids.
Qed.

Lemma contributions_dominated (u : str) :
  dominated
    (contributions (F:=F) (document_id d) (pre ++ d :: post)
                   stopword_filtered stemmed u)
    (contributions (F:=F) (document_id d) (pre ++ d' :: post)
                   stopword_filtered stemmed u).
Proof.
  rewrite <- same_id at 2.
  rewrite (contributions_own u pre d post _ _ unique_ids).
  rewrite (contributions_own u pre d' post _ _ unique_ids').
  destruct (decide (u = t)) as [->|Hne].
  - pose proof more_occurrences as Hmore.
    destruct (occ t (term_view d stopword_filtered stemmed) =? 0) eqn:Hn;
      destruct (occ t (term_view d' stopword_filtered stemmed) =? 0) eqn:Hn'.
    + constructor.
    + apply Nat.eqb_neq in Hn'.
      apply dominated_skip; [|constructor].
      apply f_mul_nonneg; [apply tf_weight_nonneg; lia|].
      by apply idf_nonneg_own.
    + apply Nat.eqb_eq in Hn'. apply Nat.eqb_neq in Hn. lia.
    + rewrite (idf_same t pre d d' post) by by rewrite Hn, Hn'.
      apply Nat.eqb_neq in Hn, Hn'.
      apply dominated_cons; [|constructor].
      apply f_mul_mono; [by apply idf_nonneg_own|apply tf_weight_mono; lia].
  - rewrite (other_terms u Hne).
    rewrite (idf_same u pre d d' post) by by rewrite (other_terms u Hne).
    apply dominated_refl.
Qed.

Lemma score_monotone (qts : list str) :
  f_le (score qts (document_id d) (pre ++ d :: post) stopword_filtered stemmed)
       (score qts (document_id d) (pre ++ d' :: post) stopword_filtered stemmed).
Proof.
  unfold score. apply foldl_dominated; [|apply f_le_refl].
  apply dominated_concat. apply Forall2_fmap, Forall2_same_length_lookup.
  split; [done|]. intros i u u' Hu Hu'. rewrite Hu in Hu'. injection Hu' as <-.
  apply contributions_dominated.
Qed.
End score_monotone.

(** C8: in a collection with unique document identifiers, let one
    document be replaced by a document with the same identifier whose
    selected view has at least as many occurrences of the term [t] and
    as many occurrences of every other term; then the score that the
    search gives to that document is not smaller than before. *)
Theorem vector_space_score_monotone {F : Type} `{FloatOrder F}
    (query : str) (pre post : list Document) (d d' : Document)
    (stopword_filtered stemmed : bool) (t : str) :
  NoDup (map document_id (pre ++ d :: post)) →
  document_id d' = document_id d →
  (∀ u, u ≠ t →
        occ u (term_view d' stopword_filtered stemmed)
        = occ u (term_view d stopword_filtered stemmed)) →
  occ t (term_view d stopword_filtered stemmed)
  ≤ occ t (term_view d' stopword_filtered stemmed) →
  ∃ s s' : F,
    Retrieval.vector_space_search query (pre ++ d :: post)
        stopword_filtered stemmed !! length pre = Some (s, d) ∧
    Retrieval.vector_space_search query (pre ++ d' :: post)
        stopword_filtered stemmed !! length pre = Some (s', d') ∧
    f_le s s'.
Proof.
  intros Hnd Hid Hother Hmore.
  exists (score (query_terms query stemmed) (document_id d) (pre ++ d :: post)
            stopword_filtered stemmed),
         (score (query_terms query stemmed) (document_id d) (pre ++ d' :: post)
            stopword_filtered stemmed).
  split_and!.
  - rewrite vector_space_search_spec, list_lookup_fmap.
    by rewrite list_lookup_middle.
  - rewrite vector_space_search_spec, list_lookup_fmap.
    rewrite list_lookup_middle by done. simpl. by rewrite Hid.
  - by apply (score_monotone pre post d d' stopword_filtered stemmed t).
Qed.

Lemma vector_space_score_monotone_witness :
  NoDup (map document_id
           ([] ++ make_document 0 ["the"; "cat"; "sat"]%string
               :: [ make_document 1 ["the"; "dog"; "ran"]%string;
                    make_document 2 ["cat"; "dog"; "played"]%string ])) ∧
  occ (lit "cat")
      (term_view (make_document 0 ["the"; "cat"; "sat"]%string) false false)
  ≤ occ (lit "cat")
        (term_view (make_document 0 ["the"; "cat"; "sat"; "cat"]%string)
                   false false) ∧
  ∃ s s' : R,
    Retrieval.vector_space_search (lit "cat")
        ([] ++ make_document 0 ["the"; "cat"; "sat"]%string
            :: [ make_document 1 ["the"; "dog"; "ran"]%string;
                 make_document 2 ["cat"; "dog"; "played"]%string ])
        false false !! 0
    = Some (s, make_document 0 ["the"; "cat"; "sat"]%string) ∧
    Retrieval.vector_space_search (lit "cat")
        ([] ++ make_document 0 ["the"; "cat"; "sat"; "cat"]%string
            :: [ make_document 1 ["the"; "dog"; "ran"]%string;
                 make_document 2 ["cat"; "dog"; "played"]%string ])
        false false !! 0
    = Some (s', make_document 0 ["the"; "cat"; "sat"; "cat"]%string) ∧
    (s <= s')%R.
Proof.
  assert (NoDup (map document_id
           ([] ++ make_document 0 ["the"; "cat"; "sat"]%string
               :: [ make_document 1 ["the"; "dog"; "ran"]%string;
                    make_document 2 ["cat"; "dog"; "played"]%string ])))
    as Hnd by (apply (bool_decide_unpack _); reflexivity).
  assert (occ (lit "cat")
            (term_view (make_document 0 ["the"; "cat"; "sat"]%string)
                       false false)
          ≤ occ (lit "cat")
              (term_view (make_document 0 ["the"; "cat"; "sat"; "cat"]%string)
                         false false))
    as Hmore by (vm_compute; lia).
  assert (∀ u, u ≠ lit "cat" →
            occ u (term_view (make_document 0 ["the"; "cat"; "sat"; "cat"]%string)
                             false false)
            = occ u (term_view (make_document 0 ["the"; "cat"; "sat"]%string)
                               false false)) as Hother.
  { intros u Hu.
    change (term_view (make_document 0 ["the"; "cat"; "sat"; "cat"]%string)
                      false false)
      with (term_view (make_document 0 ["the"; "cat"; "sat"]%string) false false
              ++ [lit "cat"]).
    rewrite occ_app, (occ_notin u [lit "cat"]); [lia|].
    intros Hin. apply list_elem_of_singleton in Hin. done. }
  split; [exact Hnd|]. split; [exact Hmore|].
  exact (vector_space_score_monotone (F:=R) (lit "cat") []
           [ make_document 1 ["the"; "dog"; "ran"]%string;
             make_document 2 ["cat"; "dog"; "played"]%string ]
           (make_document 0 ["the"; "cat"; "sat"]%string)
           (make_document 0 ["the"; "cat"; "sat"; "cat"]%string)
           false false (lit "cat") Hnd eq_refl Hother Hmore).
Defined.

(** The identifiers must be unique for this.  When two documents share
    an identifier their postings feed one score; a first occurrence of
    the query term in one of them raises the document frequency and so
    lowers what the other one contributes: below, the score of the
    shared identifier falls from [ln 3] to [2 * ln (3/2)]. *)
Remark shared_identifier_lowers_score :
  ∃ s s' : R,
    Retrieval.vector_space_search (lit "cat")
        [ make_document 7 ["dog"]%string; make_document 7 ["cat"]%string;
          make_document 3 ["dog"]%string ]
        false false !! 0
    = Some (s, make_document 7 ["dog"]%string) ∧
    Retrieval.vector_space_search (lit "cat")
        [ make_document 7 ["dog"; "cat"]%string; make_document 7 ["cat"]%string;
          make_document 3 ["dog"]%string ]
        false false !! 0
    = Some (s', make_document 7 ["dog"; "cat"]%string) ∧
    (s' < s)%R.
Proof.
  rewrite !vector_space_search_spec.
  eexists _, _. split; [reflexivity|]. split; [reflexivity|].
  unfold score.
  change (query_terms (lit "cat") false) with [lit "cat"].
  cbn [map concat app]. unfold contributions, idf.
  change (postings (lit "cat")
            [ make_document 7 ["dog"]%string; make_document 7 ["cat"]%string;
              make_document 3 ["dog"]%string ] false false)
    with [(7%Z, 1)].
  change (postings (lit "cat")
            [ make_document 7 ["dog"; "cat"]%string;
              make_document 7 ["cat"]%string;
              make_document 3 ["dog"]%string ] false false)
    with [(7%Z, 1); (7%Z, 1)].
  cbn. rewrite !decide_True by done. cbn. rewrite ln_1.
  assert (ln ((1 + 1 + 1) / (1 + 1)) + ln ((1 + 1 + 1) / (1 + 1))
          < ln ((1 + 1 + 1) / 1))%R as Hlt.
  { rewrite <- ln_mult by lra. apply ln_increasing; lra. }
  lra.
Qed.

(** * Further properties of the sources *)

(** ** The stemmer: length, first character, letter case *)

Section stemmer_more.
Import Stemming.

Lemma drop_last_le k word : length (drop_last k word) ≤ length word.
Proof. rewrite drop_last_length. lia. Qed.

Lemma step1a_length word : length (step1a word) ≤ length word.
Proof. unfold step1a. repeat case_match; try done; apply drop_last_le. Qed.

Lemma step1b_post_length word :
  length (step1b_post word) ≤ length word + 1.
Proof.
  unfold step1b_post.
  repeat case_match; rewrite ?length_app, ?drop_last_length; simpl; lia.
Qed.

Lemma step1b_length word : length (step1b word) ≤ length word.
Proof.
  unfold step1b.
  repeat case_match; try done; try apply drop_last_le;
    match goal with
    | Hends : endswith word (lit _) = true |- _ =>
        apply endswith_length in Hends; simpl in Hends
    end;
    etrans; [apply step1b_post_length| |apply step1b_post_length|];
    rewrite drop_last_length; lia.
Qed.

Lemma step1c_length word : length (step1c word) ≤ length word.
Proof.
  unfold step1c. case_match eqn:Hgate; [|done].
  apply andb_prop in Hgate as [Hends _].
  apply endswith_length in Hends. simpl in Hends.
  rewrite length_app, drop_last_length. simpl. lia.
Qed.

Lemma replace_suffix_length rules word :
  Forall (fun rule : str * str => length rule.2 ≤ length rule.1) rules →
  length (replace_suffix rules word) ≤ length word.
Proof.
  induction 1 as [|[suffix replacement] rules Hrule _ IH]; simpl; [done|].
  destruct (endswith word suffix) eqn:Hends; [|done].
  case_match; [|done].
  apply endswith_length in Hends. simpl in Hrule.
  rewrite length_app, drop_last_length. lia.
Qed.

Lemma step2_rules_shorten :
  Forall (fun rule : str * str => length rule.2 ≤ length rule.1) step2_rules.
Proof. repeat constructor; simpl; lia. Qed.

Lemma step3_rules_shorten :
  Forall (fun rule : str * str => length rule.2 ≤ length rule.1) step3_rules.
Proof. repeat constructor; simpl; lia. Qed.

Lemma remove_suffix_length rules word :
  length (remove_suffix rules word) ≤ length word.
Proof.
  induction rules as [|suffix rules IH]; simpl; [done|].
  repeat case_match; try done; apply drop_last_le.
Qed.

Lemma step5a_length word : length (step5a word) ≤ length word.
Proof. unfold step5a. repeat case_match; try done; apply drop_last_le. Qed.

Lemma step5b_length word : length (step5b word) ≤ length word.
Proof. unfold step5b. repeat case_match; try done; apply drop_last_le. Qed.

(** X1.  The stem is never longer than the word: every rule removes at least
    as many characters as it puts back. *)
Theorem stem_term_length (word : str) :
  length (stem_term word) ≤ length word.
Proof.
  unfold stem_term. case_match; [by rewrite lower_length|].
  rewrite <- (lower_length word). unfold porter_steps.
  etrans; [apply step5b_length|]. etrans; [apply step5a_length|].
  etrans; [apply remove_suffix_length|].
  etrans; [apply replace_suffix_length, step3_rules_shorten|].
  etrans; [apply replace_suffix_length, step2_rules_shorten|].
  etrans; [apply step1c_length|]. etrans; [apply step1b_length|].
  apply step1a_length.
Qed.

(** *** The first character *)

Lemma head_drop_last k (word : str) :
  k < length word → head (drop_last k word) = head word.
Proof.
  intros Hk. unfold drop_last.
  destruct word as [|c word]; [done|].
  simpl in Hk. by replace (length (c :: word) - k) with (S (length word - k))
    by (simpl; lia).
Qed.

Lemma head_app_nonempty (s t : str) : s ≠ [] → head (s ++ t) = head s.
Proof. by destruct s. Qed.

Lemma step1a_head word : head (step1a word) = head word.
Proof.
  unfold step1a.
  repeat case_match; try done;
    apply head_drop_last;
    repeat match goal with
           | Hends : endswith _ _ = true |- _ =>
               apply endswith_length in Hends; simpl in Hends
           | Hand : _ && _ = true |- _ => apply andb_prop in Hand as [? Hlt]
           | Hlt : (_ <? _) = true |- _ => apply Nat.ltb_lt in Hlt
           end; lia.
Qed.

Lemma step1b_post_head word : word ≠ [] → head (step1b_post word) = head word.
Proof.
  intros Hne. unfold step1b_post.
  repeat case_match; try done; try (by apply head_app_nonempty).
  apply head_drop_last.
  match goal with
  | Hand : _ && _ = true |- _ => apply andb_prop in Hand as [Hdc _]
  end.
  apply ends_double_consonant_length in Hdc. lia.
Qed.

Lemma step1b_head word : head (step1b word) = head word.
Proof.
  unfold step1b.
  repeat case_match; try done.
  - apply head_drop_last.
    match goal with
    | Hends : endswith _ (lit "eed") = true |- _ =>
        apply endswith_length in Hends; simpl in Hends
    end. lia.
  - match goal with
    | Hv : contains_vowel ?stem = true |- _ =>
        pose proof (contains_vowel_nonempty _ Hv) as Hne
    end.
    rewrite step1b_post_head by done. apply head_drop_last.
    apply nonempty_length in Hne. rewrite drop_last_length in Hne. lia.
  - match goal with
    | Hv : contains_vowel ?stem = true |- _ =>
        pose proof (contains_vowel_nonempty _ Hv) as Hne
    end.
    rewrite step1b_post_head by done. apply head_drop_last.
    apply nonempty_length in Hne. rewrite drop_last_length in Hne. lia.
Qed.

Lemma step1c_head word : head (step1c word) = head word.
Proof.
  unfold step1c. case_match eqn:Hgate; [|done].
  apply andb_prop in Hgate as [_ Hv].
  pose proof (contains_vowel_nonempty _ Hv) as Hne.
  rewrite head_app_nonempty by done. apply head_drop_last.
  apply nonempty_length in Hne. rewrite drop_last_length in Hne. lia.
Qed.

Lemma head_stem (k : nat) (word tail : str) :
  drop_last k word ≠ [] → head (drop_last k word ++ tail) = head word.
Proof.
  intros Hne. rewrite head_app_nonempty by done.
  destruct (decide (k < length word)) as [Hk|Hk]; [by apply head_drop_last|].
  apply nonempty_length in Hne. rewrite drop_last_length in Hne. lia.
Qed.

Lemma replace_suffix_head rules word :
  head (replace_suffix rules word) = head word.
Proof.
  induction rules as [|[suffix replacement] rules IH]; simpl; [done|].
  destruct (endswith word suffix); [|done].
  destruct (0 <? measure (drop_last (length suffix) word)) eqn:Hm; [|done].
  apply Nat.ltb_lt in Hm. by apply head_stem, measure_pos_nonempty.
Qed.

Lemma remove_suffix_head rules word :
  head (remove_suffix rules word) = head word.
Proof.
  induction rules as [|suffix rules IH]; simpl; [done|].
  destruct (endswith word suffix); [|done].
  destruct (1 <? measure (drop_last (length suffix) word)) eqn:Hm; [|done].
  apply Nat.ltb_lt in Hm.
  assert (head (drop_last (length suffix) word) = head word) as Hhead.
  { rewrite <- (app_nil_r (drop_last _ _)). apply head_stem.
    apply measure_pos_nonempty. lia. }
  repeat case_match; done.
Qed.

Lemma step5a_head word : head (step5a word) = head word.
Proof.
  unfold step5a. destruct (endswith word (lit "e")); [|done].
  destruct (_ || _) eqn:Hgate; [|done].
  rewrite <- (app_nil_r (drop_last _ _)). apply head_stem.
  apply measure_pos_nonempty.
  apply orb_prop in Hgate as [Hm|Hm].
  - apply Nat.ltb_lt in Hm. lia.
  - apply andb_prop in Hm as [Hm _]. apply Nat.eqb_eq in Hm. lia.
Qed.

Lemma step5b_head word : head (step5b word) = head word.
Proof.
  unfold step5b. destruct (_ && _) eqn:Hgate; [|done].
  apply andb_prop in Hgate as [Hgate _]. apply andb_prop in Hgate as [_ Hdc].
  apply ends_double_consonant_length in Hdc.
  apply head_drop_last. lia.
Qed.

(** X2.  The stemmer never touches the first character: the stem begins with
    the (lowercased) first character of the word. *)
Theorem stem_term_first_character (word : str) :
  head (stem_term word) = head (lower word).
Proof.
  unfold stem_term. case_match; [done|]. unfold porter_steps.
  rewrite step5b_head, step5a_head, remove_suffix_head, !replace_suffix_head,
    step1c_head, step1b_head, step1a_head. done.
Qed.
End stemmer_more.

Section stemmer_case.
Import Stemming.

Lemma is_consonant_unfold word i :
  is_consonant word i
  = match word !! i with
    | None => false
    | Some c =>
        let char := lower_char c in
        if char_in char "aeiou" then false
        else if bool_decide (char = "y"%char) then
          match i with
          | 0 => true
          | S j => negb (is_consonant word j)
          end
        else true
    end.
Proof. by destruct i. Qed.

Lemma is_consonant_lower word i :
  is_consonant (lower word) i = is_consonant word i.
Proof.
  induction i as [|i IH]; rewrite (is_consonant_unfold (lower word)),
    (is_consonant_unfold word); unfold lower; rewrite list_lookup_fmap;
    destruct (word !! _) as [c|]; simpl; rewrite ?lower_char_idemp; try done.
  fold (lower word). by rewrite IH.
Qed.

Lemma skip_run_lower word cons fuel i :
  skip_run (lower word) cons fuel i = skip_run word cons fuel i.
Proof.
  revert i. induction fuel as [|fuel IH]; intros i; simpl; [done|].
  by rewrite lower_length, is_consonant_lower, IH.
Qed.

Lemma measure_loop_lower word fuel i m :
  measure_loop (lower word) fuel i m = measure_loop word fuel i m.
Proof.
  revert i m. induction fuel as [|fuel IH]; intros i m; simpl; [done|].
  by rewrite !lower_length, !skip_run_lower, IH.
Qed.

Lemma measure_lower word : measure (lower word) = measure word.
Proof.
  unfold measure. by rewrite !lower_length, skip_run_lower, measure_loop_lower.
Qed.

Lemma contains_vowel_lower word :
  contains_vowel (lower word) = contains_vowel word.
Proof.
  unfold contains_vowel. rewrite lower_length.
  induction (seq 0 (length word)) as [|i l IH]; simpl; [done|].
  by rewrite is_consonant_lower, IH.
Qed.

(** X3.  The stemmer does not see the letter case of its input: the
    consonant test, the measure and the vowel test give the same on a
    word and on its lowercased form, and two words that differ in case
    only have the same stem. *)
Theorem stem_term_case_insensitive (word word' : str) :
  lower word = lower word' →
  stem_term word = stem_term word' ∧
  measure word = measure word' ∧
  contains_vowel word = contains_vowel word' ∧
  ∀ i, is_consonant word i = is_consonant word' i.
Proof.
  intros Hlower. split_and!.
  - unfold stem_term. rewrite <- (lower_length word), <- (lower_length word').
    by rewrite Hlower.
  - by rewrite <- (measure_lower word), <- (measure_lower word'), Hlower.
  - by rewrite <- (contains_vowel_lower word), <- (contains_vowel_lower word'),
      Hlower.
  - intros i.
    by rewrite <- (is_consonant_lower word), <- (is_consonant_lower word'),
      Hlower.
Qed.

Lemma stem_term_case_insensitive_witness :
  lower (lit "MoToRing") = lower (lit "motoring") ∧
  stem_term (lit "MoToRing") = stem_term (lit "motoring").
Proof.
  split; [reflexivity|].
  apply (stem_term_case_insensitive (lit "MoToRing") (lit "motoring")).
  reflexivity.
Defined.

(** *** The measure *)

Lemma skip_run_all word cons fuel i :
  length word - i ≤ fuel → i ≤ length word →
  (∀ j, i ≤ j → j < length word → is_consonant word j = cons) →
  skip_run word cons fuel i = length word.
Proof.
  revert i. induction fuel as [|fuel IH]; intros i Hfuel Hi Hall; simpl.
  - lia.
  - destruct (i <? length word) eqn:Hlt; simpl.
    + apply Nat.ltb_lt in Hlt.
      rewrite bool_decide_eq_true_2 by (apply Hall; lia).
      apply IH; [lia..|]. intros j ??. apply Hall; lia.
    + apply Nat.ltb_ge in Hlt. lia.
Qed.

Lemma contains_vowel_false word :
  contains_vowel word = false →
  ∀ j, j < length word → is_consonant word j = true.
Proof.
  unfold contains_vowel. intros Hnone j Hj.
  destruct (is_consonant word j) eqn:Hc; [done|].
  assert (existsb (fun i => negb (is_consonant word i)) (seq 0 (length word))
          = true) as Hex; [|congruence].
  apply existsb_exists. exists j. split; [|by rewrite Hc].
  apply in_seq. lia.
Qed.

(** Each unit of the measure uses up a vowel and a consonant. *)
Lemma measure_loop_bound word fuel i m :
  (i < length word → is_consonant word i = false) →
  2 * measure_loop word fuel i m + i ≤ 2 * m + Nat.max i (length word).
Proof.
  revert i m. induction fuel as [|fuel IH]; intros i m Hvowel; simpl; [lia|].
  destruct (i <? length word) eqn:Hlt; [|lia].
  apply Nat.ltb_lt in Hlt.
  set (i1 := skip_run word false (length word) i).
  assert (i < i1) as Hi1
    by (apply skip_run_progress; [lia|done|by apply Hvowel]).
  destruct (length word <=? i1) eqn:Hend; [lia|].
  apply Nat.leb_gt in Hend.
  assert (is_consonant word i1 ≠ false) as Hcons
    by (apply skip_run_stops; [lia|done]).
  set (i2 := skip_run word true (length word) i1).
  assert (i1 < i2) as Hi2.
  { apply skip_run_progress; [lia|done|]. by destruct (is_consonant word i1). }
  assert (i2 ≤ length word) as Hi2n by (apply skip_run_bounds; lia).
  specialize (IH i2 (m + 1)).
  assert (i2 < length word → is_consonant word i2 = false) as Hnext.
  { intros Hlt2.
    pose proof (skip_run_stops word true (length word) i1 ltac:(lia) Hlt2) as Hs.
    fold i2 in Hs. by destruct (is_consonant word i2). }
  specialize (IH Hnext). lia.
Qed.

(** X4.  The measure of a word is at most half its length, and a word
    without a vowel has measure 0: a rule that asks for a positive
    measure asks for a vowel in the stem. *)
Theorem measure_bounds (word : str) :
  2 * measure word ≤ length word ∧
  (contains_vowel word = false → measure word = 0).
Proof.
  split.
  - unfold measure. destruct (length word =? 0) eqn:Hn; [lia|].
    set (i0 := skip_run word true (length word) 0).
    assert (i0 ≤ length word) as Hi0 by (apply skip_run_bounds; lia).
    pose proof (measure_loop_bound word (length word) i0 0) as Hbound.
    assert (i0 < length word → is_consonant word i0 = false) as Hvowel.
    { intros Hlt.
      pose proof (skip_run_stops word true (length word) 0 ltac:(lia) Hlt) as Hs.
      fold i0 in Hs. by destruct (is_consonant word i0). }
    specialize (Hbound Hvowel). lia.
  - intros Hnone. unfold measure.
    destruct (length word =? 0) eqn:Hn; [done|].
    rewrite skip_run_all; [|lia..|].
    + destruct (length word) as [|n] eqn:Hlen at 1; [done|]. simpl.
      by rewrite Nat.ltb_irrefl.
    + intros j _ Hj. by apply contains_vowel_false.
Qed.
End stemmer_case.

(** ** Stemming of documents and the stemmed views *)

Section stemmed_views.
Import Stemming.

Lemma map_lower_stems (l : list str) :
  map lower (map stem_term l) = map stem_term l.
Proof. rewrite map_map. apply map_ext. intros t. apply stem_term_lower. Qed.

Lemma map_stem_nil (l : list str) : map stem_term l = [] → l = [].
Proof. by destruct l. Qed.

Lemma stemmed_view_stored (doc : Document) :
  stemmed_terms doc = map stem_term (terms doc) →
  term_view doc false true = map stem_term (terms doc).
Proof.
  intros Hstored. unfold term_view, Retrieval.select_terms. cbn [andb].
  rewrite Hstored. case_bool_decide; apply map_lower_stems.
Qed.

Lemma stemmed_view_fallback (doc : Document) :
  stemmed_terms doc = [] →
  term_view doc false true = map stem_term (terms doc).
Proof.
  intros Hempty. unfold term_view, Retrieval.select_terms. cbn [andb].
  rewrite Hempty, bool_decide_eq_true_2 by done. apply map_lower_stems.
Qed.

Lemma filtered_stemmed_view_stored (doc : Document) :
  filtered_stemmed_terms doc = map stem_term (filtered_terms doc) →
  term_view doc true true = map stem_term (filtered_terms doc).
Proof.
  intros Hstored. unfold term_view, Retrieval.select_terms. cbn [andb].
  rewrite Hstored. case_bool_decide as Hnil; [|apply map_lower_stems].
  apply map_stem_nil in Hnil. rewrite Hnil. by rewrite bool_decide_eq_true_2.
Qed.

Lemma filtered_stemmed_view_fallback (doc : Document) :
  filtered_stemmed_terms doc = [] →
  term_view doc true true = map stem_term (filtered_terms doc).
Proof.
  intros Hempty. unfold term_view, Retrieval.select_terms. cbn [andb].
  rewrite Hempty, bool_decide_eq_true_2 by done.
  case_bool_decide as Hnil; simpl; [by rewrite Hnil|apply map_lower_stems].
Qed.

(** X5.  After [apply_stemming] the stemmed view of a document is the list of
    the stems of its terms, one per term and in order, whatever was
    stored before; that is also the view the searches compute on the fly
    for a document without stored stems.  The same holds for
    [apply_stemming_filtered] and the filtered and stemmed view, with the
    filtered terms in place of the terms; neither function changes the
    terms or the filtered terms. *)
Theorem apply_stemming_views (doc : Document) :
  term_view (apply_stemming doc) false true = map stem_term (terms doc) ∧
  (stemmed_terms doc = [] →
   term_view doc false true = term_view (apply_stemming doc) false true) ∧
  term_view (apply_stemming_filtered doc) true true
  = map stem_term (filtered_terms doc) ∧
  (filtered_stemmed_terms doc = [] →
   term_view doc true true = term_view (apply_stemming_filtered doc) true true) ∧
  terms (apply_stemming doc) = terms doc ∧
  filtered_terms (apply_stemming doc) = filtered_terms doc ∧
  terms (apply_stemming_filtered doc) = terms doc ∧
  filtered_terms (apply_stemming_filtered doc) = filtered_terms doc.
Proof.
  assert (term_view (apply_stemming doc) false true
          = map stem_term (terms doc)) as Hs
    by by apply (stemmed_view_stored (apply_stemming doc)).
  assert (term_view (apply_stemming_filtered doc) true true
          = map stem_term (filtered_terms doc)) as Hf
    by by apply (filtered_stemmed_view_stored (apply_stemming_filtered doc)).
  split_and!; try done.
  - intros Hempty. by rewrite Hs, stemmed_view_fallback.
  - intros Hempty. by rewrite Hf, filtered_stemmed_view_fallback.
Qed.

Lemma apply_stemming_views_witness :
  stemmed_terms (make_document 0 ["the"; "cats"; "sat"]%string) = [] ∧
  term_view (make_document 0 ["the"; "cats"; "sat"]%string) false true
  = term_view (apply_stemming (make_document 0 ["the"; "cats"; "sat"]%string))
              false true.
Proof.
  split; [reflexivity|].
  apply (apply_stemming_views (make_document 0 ["the"; "cats"; "sat"]%string)).
  reflexivity.
Defined.
End stemmed_views.

(** ** The searches see identifiers and views only *)

Lemma same_views_postings t stopword_filtered stemmed c c' :
  same_views stopword_filtered stemmed c c' →
  postings t c stopword_filtered stemmed
  = postings t c' stopword_filtered stemmed.
Proof.
  induction 1 as [|d d' c c' [Hid Hview] _ IH]; [done|].
  rewrite !postings_cons, IH. unfold posting_of. by rewrite Hid, Hview.
Qed.

Lemma same_views_score {F : Type} `{Float F, FloatLog F}
    qts id stopword_filtered stemmed c c' :
  same_views stopword_filtered stemmed c c' →
  score (F:=F) qts id c stopword_filtered stemmed
  = score qts id c' stopword_filtered stemmed.
Proof.
  intros Hsame. unfold score. do 2 f_equal. apply map_ext. intros t.
  unfold contributions, idf.
  rewrite (same_views_postings t _ _ c c' Hsame).
  by rewrite (Forall2_length _ _ _ Hsame).
Qed.

Lemma same_views_matches qts stopword_filtered stemmed c c' :
  same_views stopword_filtered stemmed c c' →
  map (fun doc =>
         (if matches qts (term_view doc stopword_filtered stemmed)
          then 1 else 0, document_id doc)) c
  = map (fun doc =>
           (if matches qts (term_view doc stopword_filtered stemmed)
            then 1 else 0, document_id doc)) c'.
Proof.
  induction 1 as [|d d' c c' [Hid Hview] _ IH]; [done|].
  cbn [map]. by rewrite IH, Hid, Hview.
Qed.

Lemma filter_scored_ids (m : Document → bool) (c : list Document) :
  map (fun r : nat * Document => (r.1, document_id r.2))
      (filter (fun r : nat * Document => r.1 = 1)
              (map (fun doc => (if m doc then 1 else 0, doc)) c))
  = filter (fun r : nat * Z => r.1 = 1)
           (map (fun doc => (if m doc then 1 else 0, document_id doc)) c).
Proof.
  induction c as [|doc c IH]; [done|].
  cbn [map]. rewrite !filter_cons. cbn [fst].
  destruct (m doc); case_decide; try done; cbn [map fst snd]; by rewrite IH.
Qed.

Lemma same_views_results {F : Type} `{Float F, FloatLog F}
    (query : str) (c c' : list Document) (stopword_filtered stemmed : bool) :
  same_views stopword_filtered stemmed c c' →
  map (fun r => (r.1, document_id r.2))
      (Retrieval.vector_space_search (F:=F) query c stopword_filtered stemmed)
  = map (fun r => (r.1, document_id r.2))
        (Retrieval.vector_space_search (F:=F) query c' stopword_filtered stemmed)
  ∧
  map (fun r => (r.1, document_id r.2))
      (Retrieval.linear_boolean_search query c stopword_filtered stemmed)
  = map (fun r => (r.1, document_id r.2))
        (Retrieval.linear_boolean_search query c' stopword_filtered stemmed).
Proof.
  intros Hsame. split.
  - rewrite !vector_space_search_spec, !map_map. cbn [fst snd].
    induction Hsame as [|d d' c c' [Hid Hview] Hrest IH]; [done|].
    assert (same_views stopword_filtered stemmed (d :: c) (d' :: c')) as Hall
      by by constructor.
    cbn [map]. f_equal.
    + by rewrite Hid, (same_views_score _ _ _ _ _ _ Hall).
    + clear IH. revert Hall. generalize (d :: c) (d' :: c'). intros a a' Hall.
      induction Hrest as [|e e' c c' [Hid' _] _ IH]; [done|].
      cbn [map]. by rewrite IH, Hid', (same_views_score _ _ _ _ _ _ Hall).
  - destruct (blank query) eqn:Hblank.
    + rewrite !linear_boolean_search_blank, !map_map by done. cbn [fst snd].
      induction Hsame as [|d d' c c' [Hid _] _ IH]; [done|].
      cbn [map]. by rewrite IH, Hid.
    + rewrite !linear_boolean_search_spec by done. cbv zeta.
      destruct stemmed.
      * rewrite !(filter_scored_ids
                    (fun doc => matches (query_terms query true)
                                        (term_view doc stopword_filtered true))).
        by rewrite (same_views_matches _ _ _ c c' Hsame).
      * rewrite !map_map. cbn [fst snd].
        by apply same_views_matches.
Qed.

(** X6.  The result of either search, read as scores and identifiers, depends
    on the collection only through the identifiers and the selected views
    of its documents. *)
Theorem search_depends_on_views {F : Type} `{Float F, FloatLog F}
    (query : str) (c c' : list Document) (stopword_filtered stemmed : bool) :
  same_views stopword_filtered stemmed c c' →
  map (fun r => (r.1, document_id r.2))
      (Retrieval.vector_space_search (F:=F) query c stopword_filtered stemmed)
  = map (fun r => (r.1, document_id r.2))
        (Retrieval.vector_space_search (F:=F) query c' stopword_filtered stemmed)
  ∧
  map (fun r => (r.1, document_id r.2))
      (Retrieval.linear_boolean_search query c stopword_filtered stemmed)
  = map (fun r => (r.1, document_id r.2))
        (Retrieval.linear_boolean_search query c' stopword_filtered stemmed).
Proof. apply same_views_results. Qed.

Lemma search_depends_on_views_witness :
  same_views false true example_collection
             (map apply_stemming example_collection) ∧
  map (fun r => (r.1, document_id r.2))
      (Retrieval.linear_boolean_search (lit "cats") example_collection
         false true)
  = map (fun r => (r.1, document_id r.2))
        (Retrieval.linear_boolean_search (lit "cats")
           (map apply_stemming example_collection) false true).
Proof.
  assert (same_views false true example_collection
                     (map apply_stemming example_collection)) as Hsame
    by (repeat constructor).
  split; [exact Hsame|].
  exact (proj2 (search_depends_on_views (F:=R) (lit "cats") example_collection
                  (map apply_stemming example_collection) false true Hsame)).
Defined.

(** X7.  Stemming the documents ahead of the search changes no result: for
    documents without stored stems, the scores and identifiers that both
    searches return in the stemmed mode are the same before and after
    [apply_stemming], and in the filtered and stemmed mode the same
    before and after [apply_stemming_filtered]. *)
Theorem stemming_ahead_changes_nothing {F : Type} `{Float F, FloatLog F}
    (query : str) (c : list Document) :
  (Forall (fun d => stemmed_terms d = []) c →
   map (fun r => (r.1, document_id r.2))
       (Retrieval.vector_space_search (F:=F) query (map apply_stemming c)
          false true)
   = map (fun r => (r.1, document_id r.2))
         (Retrieval.vector_space_search (F:=F) query c false true)
   ∧
   map (fun r => (r.1, document_id r.2))
       (Retrieval.linear_boolean_search query (map apply_stemming c) false true)
   = map (fun r => (r.1, document_id r.2))
         (Retrieval.linear_boolean_search query c false true)) ∧
  (Forall (fun d => filtered_stemmed_terms d = []) c →
   map (fun r => (r.1, document_id r.2))
       (Retrieval.vector_space_search (F:=F) query
          (map apply_stemming_filtered c) true true)
   = map (fun r => (r.1, document_id r.2))
         (Retrieval.vector_space_search (F:=F) query c true true)
   ∧
   map (fun r => (r.1, document_id r.2))
       (Retrieval.linear_boolean_search query (map apply_stemming_filtered c)
          true true)
   = map (fun r => (r.1, document_id r.2))
         (Retrieval.linear_boolean_search query c true true)).
Proof.
  split; intros Hempty.
  - assert (same_views false true (map apply_stemming c) c) as Hsame.
    { induction Hempty as [|d c Hd _ IH]; constructor; [|done].
      split; [done|].
      by rewrite (stemmed_view_fallback d Hd),
        (stemmed_view_stored (apply_stemming d)). }
    split.
    + apply (proj1 (same_views_results (F:=F) query _ _ false true Hsame)).
    + apply (proj2 (same_views_results (F:=F) query _ _ false true Hsame)).
  - assert (same_views true true (map apply_stemming_filtered c) c) as Hsame.
    { induction Hempty as [|d c Hd _ IH]; constructor; [|done].
      split; [done|].
      by rewrite (filtered_stemmed_view_fallback d Hd),
        (filtered_stemmed_view_stored (apply_stemming_filtered d)). }
    split.
    + apply (proj1 (same_views_results (F:=F) query _ _ true true Hsame)).
    + apply (proj2 (same_views_results (F:=F) query _ _ true true Hsame)).
Qed.

Lemma measure_bounds_witness :
  Stemming.contains_vowel (lit "tsk") = false ∧
  Stemming.measure (lit "tsk") = 0.
Proof.
  split; [reflexivity|].
  apply (measure_bounds (lit "tsk")). reflexivity.
Defined.

Lemma stemming_ahead_changes_nothing_witness :
  Forall (fun d => stemmed_terms d = []) example_collection ∧
  Forall (fun d => filtered_stemmed_terms d = []) example_collection ∧
  map (fun r => (r.1, document_id r.2))
      (Retrieval.linear_boolean_search (lit "cats")
         (map apply_stemming example_collection) false true)
  = map (fun r => (r.1, document_id r.2))
        (Retrieval.linear_boolean_search (lit "cats") example_collection
           false true) ∧
  map (fun r => (r.1, document_id r.2))
      (Retrieval.linear_boolean_search (lit "cats")
         (map apply_stemming_filtered example_collection) true true)
  = map (fun r => (r.1, document_id r.2))
        (Retrieval.linear_boolean_search (lit "cats") example_collection
           true true).
Proof.
  assert (Forall (fun d => stemmed_terms d = []) example_collection) as Hs
    by (repeat constructor).
  assert (Forall (fun d => filtered_stemmed_terms d = []) example_collection)
    as Hf by (repeat constructor).
  destruct (stemming_ahead_changes_nothing (F:=R) (lit "cats")
              example_collection) as [H1 H2].
  split_and!; [exact Hs|exact Hf|exact (proj2 (H1 Hs))|exact (proj2 (H2 Hf))].
Defined.

(** ** More on the stopword filters *)

Lemma sublist_list_filter {A} (f g : A → bool) (l : list A) :
  (∀ x, f x = true → g x = true) →
  sublist (List.filter f l) (List.filter g l).
Proof.
  intros Himp. induction l as [|x l IH]; simpl; [constructor|].
  destruct (f x) eqn:Hf.
  - rewrite (Himp x Hf). by constructor.
  - destruct (g x); [by constructor|done].
Qed.

Lemma list_filter_all {A} (f : A → bool) (l : list A) :
  (∀ x, f x = true) → List.filter f l = l.
Proof.
  intros Hall. induction l as [|x l IH]; simpl; [done|].
  by rewrite Hall, IH.
Qed.

Lemma list_filter_ext_Forall {A} (f g : A → bool) (l : list A) :
  Forall (fun x => f x = g x) l → List.filter f l = List.filter g l.
Proof.
  induction 1 as [|x l Hx _ IH]; simpl; [done|]. by rewrite Hx, IH.
Qed.

Lemma append_kept_sublist keep terms :
  sublist (append_kept keep terms) (map lower terms).
Proof.
  rewrite append_kept_spec. apply fmap_sublist, list_filter_sublist.
Qed.

Lemma append_kept_length keep terms :
  length (append_kept keep terms) ≤ length terms.
Proof.
  rewrite append_kept_spec, length_fmap. apply list_filter_length.
Qed.

Lemma append_kept_no_upper keep terms :
  Forall no_upper (append_kept keep terms).
Proof.
  rewrite append_kept_spec. apply Forall_fmap, Forall_forall.
  intros t _. apply no_upper_lower.
Qed.

(** X8.  The list filter keeps no stopword, keeps less when the stopword set
    grows, and with the empty set keeps every term (lowercased); in both
    versions of the source. *)
Theorem list_filter_monotone (doc : Document) (s1 s2 : gset str) :
  (∀ t, t ∈ filtered_terms (Stopwords.remove_stopwords_by_list doc s1) →
        t ∉ s1) ∧
  (s1 ⊆ s2 →
   sublist (filtered_terms (Stopwords.remove_stopwords_by_list doc s2))
           (filtered_terms (Stopwords.remove_stopwords_by_list doc s1))) ∧
  filtered_terms (Stopwords.remove_stopwords_by_list doc ∅)
  = map lower (terms doc) ∧
  (∀ t, t ∈ filtered_terms (StopwordsOld.remove_stopwords_by_list doc s1) →
        t ∉ s1) ∧
  (s1 ⊆ s2 →
   sublist (filtered_terms (StopwordsOld.remove_stopwords_by_list doc s2))
           (filtered_terms (StopwordsOld.remove_stopwords_by_list doc s1))) ∧
  filtered_terms (StopwordsOld.remove_stopwords_by_list doc ∅)
  = map lower (terms doc).
Proof.
  assert (∀ s, filtered_terms (Stopwords.remove_stopwords_by_list doc s)
               = List.filter (fun t => negb (bool_decide (t ∈ s)))
                             (map lower (terms doc))) as Hspec
    by (intros s; apply (remove_stopwords_by_list_spec doc s)).
  assert (∀ t, t ∈ filtered_terms (Stopwords.remove_stopwords_by_list doc s1) →
               t ∉ s1) as Hnone.
  { intros t. rewrite Hspec, list_elem_of_In, filter_In.
    intros [_ Hnot]. apply negb_true_iff in Hnot.
    by apply bool_decide_eq_false in Hnot. }
  assert (s1 ⊆ s2 →
          sublist (filtered_terms (Stopwords.remove_stopwords_by_list doc s2))
                  (filtered_terms (Stopwords.remove_stopwords_by_list doc s1)))
    as Hmono.
  { intros Hsub. rewrite !Hspec. apply sublist_list_filter. intros t Ht.
    apply negb_true_iff, bool_decide_eq_false in Ht.
    apply negb_true_iff, bool_decide_eq_false. set_solver. }
  assert (filtered_terms (Stopwords.remove_stopwords_by_list doc ∅)
          = map lower (terms doc)) as Hall.
  { rewrite Hspec. apply list_filter_all. intros t.
    apply negb_true_iff, bool_decide_eq_false. set_solver. }
  done.
Qed.

Lemma list_filter_monotone_witness :
  ({[lit "the"]} : gset str) ⊆ {[lit "the"; lit "cat"]} ∧
  sublist
    (filtered_terms
       (Stopwords.remove_stopwords_by_list
          (make_document 0 ["the"; "cat"; "sat"]%string)
          {[lit "the"; lit "cat"]}))
    (filtered_terms
       (Stopwords.remove_stopwords_by_list
          (make_document 0 ["the"; "cat"; "sat"]%string) {[lit "the"]})).
Proof.
  assert (({[lit "the"]} : gset str) ⊆ {[lit "the"; lit "cat"]}) as Hsub
    by set_solver.
  split; [exact Hsub|].
  exact (proj1 (proj2 (list_filter_monotone
                         (make_document 0 ["the"; "cat"; "sat"]%string)
                         {[lit "the"]} {[lit "the"; lit "cat"]})) Hsub).
Defined.

Lemma append_kept_none terms : append_kept (fun _ => false) terms = [].
Proof.
  rewrite append_kept_spec. by induction terms.
Qed.

Section frequency_more.
Context {F : Type} `{Float F, FloatLe F}.
Implicit Types (rare common : F).

Lemma remove_by_frequency_shape doc collection rare common :
  ∃ keep,
    Stopwords.remove_stopwords_by_frequency doc collection rare common
    = set_filtered_terms doc (append_kept keep (terms doc)).
Proof.
  unfold Stopwords.remove_stopwords_by_frequency.
  destruct (length collection =? 0).
  - exists (fun _ => false). by rewrite append_kept_none.
  - by eexists.
Qed.

Lemma remove_by_frequency_old_shape doc collection common rare :
  ∃ keep,
    StopwordsOld.remove_stopwords_by_frequency doc collection common rare
    = set_filtered_terms doc (append_kept keep (terms doc)).
Proof.
  unfold StopwordsOld.remove_stopwords_by_frequency.
  destruct (_ =? 0).
  - exists (fun _ => false). by rewrite append_kept_none.
  - by eexists.
Qed.

(** X9.  The frequency filters keep the invariant of the list filter, for
    every reference collection and all thresholds: [filtered_terms] is a
    subsequence of the lowercased terms, so it is no longer than [terms]
    and holds lowercase strings only, and no other field of the document
    changes. *)
Theorem frequency_filter_invariant (doc : Document)
    (collection : list Document) rare common :
  (let doc' :=
     Stopwords.remove_stopwords_by_frequency doc collection rare common in
   sublist (filtered_terms doc') (map lower (terms doc)) ∧
   length (filtered_terms doc') ≤ length (terms doc) ∧
   Forall no_upper (filtered_terms doc') ∧
   doc' = set_filtered_terms doc (filtered_terms doc')) ∧
  (let doc' :=
     StopwordsOld.remove_stopwords_by_frequency doc collection common rare in
   sublist (filtered_terms doc') (map lower (terms doc)) ∧
   length (filtered_terms doc') ≤ length (terms doc) ∧
   Forall no_upper (filtered_terms doc') ∧
   doc' = set_filtered_terms doc (filtered_terms doc')).
Proof.
  split; cbv zeta.
  - destruct (remove_by_frequency_shape doc collection rare common)
      as [keep ->].
    cbn [filtered_terms set_filtered_terms].
    split_and!; [apply append_kept_sublist|apply append_kept_length
                |apply append_kept_no_upper|done].
  - destruct (remove_by_frequency_old_shape doc collection common rare)
      as [keep ->].
    cbn [filtered_terms set_filtered_terms].
    split_and!; [apply append_kept_sublist|apply append_kept_length
                |apply append_kept_no_upper|done].
Qed.

(** X10.  A filter reads the terms of the document only: what an earlier
    filter has stored in [filtered_terms] has no effect on the result,
    which replaces it. *)
Theorem filters_overwrite (doc : Document) (earlier : list str)
    (stopwords : gset str) (collection : list Document) rare common :
  Stopwords.remove_stopwords_by_list (set_filtered_terms doc earlier) stopwords
  = Stopwords.remove_stopwords_by_list doc stopwords ∧
  Stopwords.remove_stopwords_by_frequency (set_filtered_terms doc earlier)
    collection rare common
  = Stopwords.remove_stopwords_by_frequency doc collection rare common ∧
  StopwordsOld.remove_stopwords_by_list (set_filtered_terms doc earlier)
    stopwords
  = StopwordsOld.remove_stopwords_by_list doc stopwords ∧
  StopwordsOld.remove_stopwords_by_frequency (set_filtered_terms doc earlier)
    collection common rare
  = StopwordsOld.remove_stopwords_by_frequency doc collection common rare ∧
  Stopwords.remove_stopwords_by_list
    (Stopwords.remove_stopwords_by_frequency doc collection rare common)
    stopwords
  = Stopwords.remove_stopwords_by_list doc stopwords ∧
  Stopwords.remove_stopwords_by_frequency
    (Stopwords.remove_stopwords_by_list doc stopwords) collection rare common
  = Stopwords.remove_stopwords_by_frequency doc collection rare common.
Proof.
  split_and!; try done;
    try (unfold Stopwords.remove_stopwords_by_frequency;
         by destruct (length collection =? 0));
    try (unfold StopwordsOld.remove_stopwords_by_frequency;
         by destruct (_ =? 0)).
Qed.

(** X11.  On a document whose terms are lowercase, the frequency filter is the
    list filter with the stopword set that the frequency filter collects
    (for a reference collection that is not empty, and in the older
    version holds a term). *)
Theorem frequency_filter_as_list_filter (doc : Document)
    (collection : list Document) rare common :
  Forall (fun t => lower t = t) (terms doc) →
  (collection ≠ [] →
   Stopwords.remove_stopwords_by_frequency doc collection rare common
   = Stopwords.remove_stopwords_by_list doc
       (Stopwords.frequency_stopwords (Stopwords.count_documents collection)
          (length collection) rare common)) ∧
  (total_terms collection ≠ 0 →
   StopwordsOld.remove_stopwords_by_frequency doc collection common rare
   = StopwordsOld.remove_stopwords_by_list doc
       (StopwordsOld.frequency_stopwords
          (StopwordsOld.count_occurrences collection)
          (total_terms collection) common rare)).
Proof.
  intros Hlower. split.
  - intros Hne. unfold Stopwords.remove_stopwords_by_frequency,
      Stopwords.remove_stopwords_by_list.
    destruct collection as [|d0 collection]; [done|].
    cbn [length Nat.eqb]. f_equal. rewrite !append_kept_spec. f_equal.
    apply list_filter_ext_Forall.
    eapply Forall_impl; [exact Hlower|]. intros t Ht. simpl. by rewrite Ht.
  - intros Hne. unfold StopwordsOld.remove_stopwords_by_frequency,
      StopwordsOld.remove_stopwords_by_list.
    destruct (count_occurrences_spec collection) as (_ & _ & _ & ->).
    rewrite (proj2 (Nat.eqb_neq _ _) Hne).
    f_equal. rewrite !append_kept_spec. f_equal.
    apply list_filter_ext_Forall.
    eapply Forall_impl; [exact Hlower|]. intros t Ht. simpl. by rewrite Ht.
Qed.
End frequency_more.

Lemma frequency_filter_as_list_filter_witness :
  Forall (fun t => lower t = t)
         (terms (make_document 0 ["the"; "cat"; "sat"]%string)) ∧
  example_collection ≠ [] ∧
  Stopwords.remove_stopwords_by_frequency
    (make_document 0 ["the"; "cat"; "sat"]%string) example_collection
    0.25%float 0.5%float
  = Stopwords.remove_stopwords_by_list
      (make_document 0 ["the"; "cat"; "sat"]%string)
      (Stopwords.frequency_stopwords
         (Stopwords.count_documents example_collection)
         (length example_collection) 0.25%float 0.5%float).
Proof.
  assert (Forall (fun t => lower t = t)
            (terms (make_document 0 ["the"; "cat"; "sat"]%string))) as Hlow
    by (repeat constructor).
  assert (example_collection ≠ []) as Hne by discriminate.
  split; [exact Hlow|]. split; [exact Hne|].
  exact (proj1 (frequency_filter_as_list_filter
                  (make_document 0 ["the"; "cat"; "sat"]%string)
                  example_collection 0.25%float 0.5%float Hlow) Hne).
Defined.

(** ** The loops of the command line *)

Lemma update_in_place_from (update : Document → list Document → Document)
    (c pre post : list Document) :
  (∀ d s s', map terms s = map terms s' → update d s = update d s') →
  (∀ d s, terms (update d s) = terms d) →
  map terms (pre ++ post) = map terms c →
  foldl (fun store i =>
           match store !! i with
           | Some doc => <[i := update doc store]> store
           | None => store
           end)
        (pre ++ post) (seq (length pre) (length post))
  = pre ++ map (fun d => update d c) post.
Proof.
  intros Hreads Hterms. revert pre.
  induction post as [|d post IH]; intros pre Hsame; [done|].
  cbn [length seq foldl map].
  rewrite list_lookup_middle by done.
  rewrite (Hreads d (pre ++ d :: post) c Hsame).
  replace (<[length pre := update d c]> (pre ++ d :: post))
    with ((pre ++ [update d c]) ++ post).
  2:{ rewrite <- app_assoc. cbn [app].
      rewrite (insert_app_r_alt pre (d :: post)) by lia.
      by rewrite Nat.sub_diag. }
  specialize (IH (pre ++ [update d c])).
  rewrite length_app in IH. cbn [length] in IH.
  rewrite Nat.add_1_r in IH. rewrite IH.
  - by rewrite <- app_assoc.
  - rewrite <- Hsame, <- app_assoc, !map_app. cbn [app map].
    by rewrite Hterms.
Qed.

(** A loop that updates the documents in place, with an update that
    reads only the terms of the stored documents and leaves terms as
    they are, gives every document the update against the collection as
    it was before the loop. *)
Lemma update_in_place_spec (update : Document → list Document → Document)
    (c : list Document) :
  (∀ d s s', map terms s = map terms s' → update d s = update d s') →
  (∀ d s, terms (update d s) = terms d) →
  Main.update_in_place update c = map (fun d => update d c) c.
Proof.
  intros Hreads Hterms. unfold Main.update_in_place.
  by apply (update_in_place_from update c [] c).
Qed.

Lemma count_occurrences_terms (s s' : list Document) :
  map terms s = map terms s' →
  StopwordsOld.count_occurrences s = StopwordsOld.count_occurrences s'.
Proof.
  unfold StopwordsOld.count_occurrences. generalize (@nil (str * nat)).
  revert s'. induction s as [|d s IH]; intros [|d' s'] acc Hsame;
    try done.
  injection Hsame as Hd Hs. cbn [foldl]. rewrite Hd. by apply IH.
Qed.

Section main_facts.
Context {F : Type} `{Float F, FloatLe F}.
Implicit Types (common rare : F).

Lemma remove_by_frequency_old_reads_terms d (s s' : list Document)
    common rare :
  map terms s = map terms s' →
  StopwordsOld.remove_stopwords_by_frequency d s common rare
  = StopwordsOld.remove_stopwords_by_frequency d s' common rare.
Proof.
  intros Hsame. unfold StopwordsOld.remove_stopwords_by_frequency.
  by rewrite (count_occurrences_terms s s' Hsame).
Qed.

Lemma remove_by_frequency_old_terms d (s : list Document) common rare :
  terms (StopwordsOld.remove_stopwords_by_frequency d s common rare) = terms d.
Proof.
  by destruct (remove_by_frequency_old_shape d s common rare) as [keep ->].
Qed.

(** X12.  The loops of the handlers change the documents of the collection in
    place, and the frequency filter reads the collection while the loop
    changes it.  The outcome is as if every document were filtered
    against the collection as it was before the loop; when a threshold
    is outside of [0, 1], or the rare threshold is not below the common
    one, the collection is left as it is. *)
Theorem filters_in_place (c : list Document) (stopwords : gset str)
    common rare :
  Main.apply_list_filter c stopwords
  = map (fun d => StopwordsOld.remove_stopwords_by_list d stopwords) c ∧
  Main.apply_frequency_filter c common rare
  = if f_leb (f_of_nat 0) common && f_leb common (f_of_nat 1)
       && (f_leb (f_of_nat 0) rare && f_leb rare (f_of_nat 1))
       && negb (f_leb common rare)
    then map (fun d =>
                StopwordsOld.remove_stopwords_by_frequency d c common rare) c
    else c.
Proof.
  split.
  - unfold Main.apply_list_filter. by apply update_in_place_spec.
  - unfold Main.apply_frequency_filter.
    destruct (f_leb (f_of_nat 0) common && f_leb common (f_of_nat 1));
      [|done].
    destruct (f_leb (f_of_nat 0) rare && f_leb rare (f_of_nat 1)); [|done].
    destruct (f_leb common rare); [done|]. cbn [negb orb andb].
    apply update_in_place_spec.
    + intros d s s'. apply remove_by_frequency_old_reads_terms.
    + intros d s. apply remove_by_frequency_old_terms.
Qed.

Lemma removed_terms_map (f : Document → Document) (c : list Document) :
  (∀ d, terms (f d) = terms d ∧
        length (filtered_terms (f d)) ≤ length (terms d)) →
  (0 ≤ Main.removed_terms (map f c))%Z.
Proof.
  intros Hf. unfold Main.removed_terms.
  induction c as [|d c IH]; [done|].
  cbn [map foldr]. destruct (Hf d) as [-> Hlen]. lia.
Qed.

(** X13.  The number of removed terms that the handlers report is never
    negative. *)
Theorem removed_terms_nonnegative (c : list Document) (stopwords : gset str)
    common rare :
  (0 ≤ Main.removed_terms (Main.apply_list_filter c stopwords))%Z ∧
  (f_leb (f_of_nat 0) common && f_leb common (f_of_nat 1)
     && (f_leb (f_of_nat 0) rare && f_leb rare (f_of_nat 1))
     && negb (f_leb common rare) = true →
   (0 ≤ Main.removed_terms (Main.apply_frequency_filter c common rare))%Z).
Proof.
  split.
  - unfold Main.apply_list_filter. rewrite update_in_place_spec by done.
    apply removed_terms_map. intros d. split; [done|].
    apply (remove_stopwords_by_list_spec d stopwords).
  - intros Hvalid. unfold Main.apply_frequency_filter.
    apply andb_prop in Hvalid as [Hvalid Hlt].
    apply andb_prop in Hvalid as [-> ->].
    apply negb_true_iff in Hlt. rewrite Hlt. cbn [negb orb].
    rewrite update_in_place_spec.
    + apply removed_terms_map. intros d.
      destruct (remove_by_frequency_old_shape d c common rare) as [keep ->].
      split; [done|]. apply append_kept_length.
    + intros d s s'. apply remove_by_frequency_old_reads_terms.
    + intros d s. apply remove_by_frequency_old_terms.
Qed.
End main_facts.

Lemma removed_terms_nonnegative_witness :
  f_leb (f_of_nat 0) 0.5%float && f_leb 0.5%float (f_of_nat 1)
    && (f_leb (f_of_nat 0) 0.125%float && f_leb 0.125%float (f_of_nat 1))
    && negb (f_leb 0.5%float 0.125%float) = true ∧
  (0 ≤ Main.removed_terms
         (Main.apply_frequency_filter example_collection
            0.5%float 0.125%float))%Z.
Proof.
  assert (f_leb (f_of_nat 0) 0.5%float && f_leb 0.5%float (f_of_nat 1)
            && (f_leb (f_of_nat 0) 0.125%float
                && f_leb 0.125%float (f_of_nat 1))
            && negb (f_leb 0.5%float 0.125%float) = true) as Hvalid
    by reflexivity.
  split; [exact Hvalid|].
  exact (proj2 (removed_terms_nonnegative example_collection ∅
                  0.5%float 0.125%float) Hvalid).
Defined.

(** In the scenario the loop removes one term, "sat", from the first
    document. *)
Example filters_in_place_scenario :
  map filtered_terms
      (Main.apply_frequency_filter example_collection 0.5%float 0.125%float)
  = [ [lit "the"; lit "cat"]; [lit "the"; lit "dog"]; [lit "cat"; lit "dog"] ]
  ∧ Main.removed_terms
      (Main.apply_frequency_filter example_collection 0.5%float 0.125%float)
    = 3%Z.
Proof. by vm_compute. Qed.

(** *** The stopword file *)

Lemma load_stopwords_from (lines : list str) (start : gset str) (w : str) :
  w ∈ foldl (fun (stopwords : gset str) line =>
               let word := lower (strip line) in
               if negb (bool_decide (word = [])) then stopwords ∪ {[word]}
               else stopwords)
            start lines
  ↔ w ∈ start ∨ (w ≠ [] ∧ ∃ line, line ∈ lines ∧ w = lower (strip line)).
Proof.
  revert start. induction lines as [|line lines IH]; intros start.
  - cbn [foldl]. split; [by left|]. intros [?|(_ & line & Hin & _)]; [done|].
    by apply elem_of_nil in Hin.
  - cbn [foldl]. rewrite IH. cbv zeta. split.
    + intros [Hin|(Hne & l & Hl & Hw)].
      * case_bool_decide as Hempty; cbn [negb] in Hin; [by left|].
        apply elem_of_union in Hin as [?|Hin]; [by left|].
        apply elem_of_singleton in Hin as ->. right. split; [done|].
        exists line. split; [apply list_elem_of_here|done].
      * right. split; [done|]. exists l.
        split; [by apply list_elem_of_further|done].
    + intros [Hin|(Hne & l & Hl & Hw)].
      * left. case_bool_decide; cbn [negb]; [done|].
        apply elem_of_union. by left.
      * apply elem_of_cons in Hl as [->|Hl].
        -- left. subst w. rewrite bool_decide_eq_false_2 by done.
           cbn [negb]. apply elem_of_union. right. by apply elem_of_singleton.
        -- right. split; [done|]. by exists l.
Qed.

Lemma lower_nil_iff (s : str) : lower s = [] ↔ s = [].
Proof. by destruct s. Qed.

(** X14.  The stopword set read from a file holds the non-empty lines,
    stripped and lowercased; the list filter with that set removes a term
    exactly when some line of the file is, up to letter case and
    surrounding white space, that term. *)
Theorem stopword_file_filter (lines : list str) (doc : Document) :
  (∀ w, w ∈ Main.load_stopwords lines
        ↔ w ≠ [] ∧ ∃ line, line ∈ lines ∧ w = lower (strip line)) ∧
  (∀ t, t ∈ terms doc → t ≠ [] →
        (lower t ∈ filtered_terms
                     (StopwordsOld.remove_stopwords_by_list doc
                        (Main.load_stopwords lines))
         ↔ ∀ line, line ∈ lines → lower (strip line) ≠ lower t)).
Proof.
  assert (∀ w, w ∈ Main.load_stopwords lines
               ↔ w ≠ [] ∧ ∃ line, line ∈ lines ∧ w = lower (strip line))
    as Hload.
  { intros w. unfold Main.load_stopwords. rewrite load_stopwords_from.
    split; [intros [Hin|?]; [by apply elem_of_empty in Hin|done]|by right]. }
  split; [exact Hload|].
  intros t Hin Hne.
  destruct (remove_stopwords_by_list_spec doc (Main.load_stopwords lines))
    as (_ & _ & Hspec & _).
  change (Stopwords.remove_stopwords_by_list doc (Main.load_stopwords lines))
    with (StopwordsOld.remove_stopwords_by_list doc (Main.load_stopwords lines))
    in Hspec.
  rewrite Hspec, list_elem_of_In, filter_In, negb_true_iff,
    bool_decide_eq_false, Hload.
  split.
  - intros [_ Hnot] line Hline Heq. apply Hnot. split.
    + by rewrite lower_nil_iff.
    + by exists line.
  - intros Hnone. split.
    + apply in_map. by apply list_elem_of_In.
    + intros (_ & line & Hline & Heq). by apply (Hnone line).
Qed.

Lemma stopword_file_filter_witness :
  lit "The" ∈ terms (make_document 0 ["The"; "cat"]%string) ∧
  lit "The" ≠ [] ∧
  (lower (lit "The")
     ∈ filtered_terms
         (StopwordsOld.remove_stopwords_by_list
            (make_document 0 ["The"; "cat"]%string)
            (Main.load_stopwords [lit " tHe "; lit ""]))
   ↔ ∀ line, line ∈ [lit " tHe "; lit ""] →
             lower (strip line) ≠ lower (lit "The")).
Proof.
  assert (lit "The" ∈ terms (make_document 0 ["The"; "cat"]%string)) as Hin
    by apply list_elem_of_here.
  assert (lit "The" ≠ []) as Hne by discriminate.
  split; [exact Hin|]. split; [exact Hne|].
  exact (proj2 (stopword_file_filter [lit " tHe "; lit ""]
                  (make_document 0 ["The"; "cat"]%string))
               (lit "The") Hin Hne).
Defined.

(** ** Splitting a query *)

Lemma close_run_acc cur (acc : list str) :
  close_run cur acc = acc ++ close_run cur [].
Proof. destruct cur; simpl; [by rewrite app_nil_r|done]. Qed.

Lemma split_go_acc s cur (acc : list str) :
  split_go s cur acc = acc ++ split_go s cur [].
Proof.
  revert cur acc. induction s as [|c s IH]; intros cur acc; simpl.
  - apply close_run_acc.
  - destruct (is_space c).
    + rewrite IH, (IH [] (close_run cur [])), (close_run_acc cur acc).
      by rewrite app_assoc.
    + apply IH.
Qed.

Lemma split_go_space s1 c s2 cur (acc : list str) :
  is_space c = true →
  split_go (s1 ++ c :: s2) cur acc = split_go s2 [] (split_go s1 cur acc).
Proof.
  intros Hc. revert cur acc. induction s1 as [|c1 s1 IH]; intros cur acc; simpl.
  - by rewrite Hc.
  - destruct (is_space c1); apply IH.
Qed.

Lemma split_app_space s1 c s2 :
  is_space c = true → split (s1 ++ c :: s2) = split s1 ++ split s2.
Proof.
  intros Hc. unfold split. by rewrite split_go_space, split_go_acc.
Qed.

Lemma split_go_word s cur (acc : list str) :
  Forall (fun c => is_space c = false) s →
  split_go s cur acc = close_run (cur ++ s) acc.
Proof.
  intros Hword. revert cur.
  induction Hword as [|c s Hc _ IH]; intros cur; simpl.
  - by rewrite app_nil_r.
  - rewrite Hc, IH. by rewrite <- app_assoc.
Qed.

Lemma split_go_blank_tail s b cur (acc : list str) :
  blank b = true → split_go (s ++ b) cur acc = split_go s cur acc.
Proof.
  intros Hb. revert cur acc. induction s as [|c s IH]; intros cur acc; simpl.
  - revert cur acc. induction b as [|c b IHb]; intros cur acc; simpl; [done|].
    simpl in Hb. apply andb_prop in Hb as [Hc Hb]. rewrite Hc.
    rewrite IHb by done. simpl. by destruct cur.
  - destruct (is_space c); apply IH.
Qed.

Lemma lstrip_prefix s : ∃ b, blank b = true ∧ s = b ++ lstrip s.
Proof.
  induction s as [|c s (b & Hb & IH)]; simpl.
  - by exists [].
  - destruct (is_space c) eqn:Hc.
    + exists (c :: b). simpl. rewrite Hc, Hb. split; [done|]. by rewrite <- IH.
    + by exists [].
Qed.

Lemma split_lstrip s : split (lstrip s) = split s.
Proof.
  unfold split. induction s as [|c s IH]; simpl; [done|].
  destruct (is_space c) eqn:Hc; simpl; [done|by rewrite Hc].
Qed.

(** [strip()] before [split()] changes nothing. *)
Lemma split_strip s : split (strip s) = split s.
Proof.
  unfold strip.
  destruct (lstrip_prefix (rev (lstrip s))) as (b & Hb & Hrev).
  apply (f_equal (@rev ascii)) in Hrev.
  rewrite rev_involutive, rev_app_distr in Hrev.
  rewrite <- (split_lstrip s).
  transitivity (split (rev (lstrip (rev (lstrip s))) ++ rev b)).
  - unfold split. rewrite split_go_blank_tail; [done|]. by rewrite blank_rev.
  - by rewrite <- Hrev.
Qed.

Lemma parse_query_space q1 c q2 :
  is_space c = true →
  Retrieval.parse_query (q1 ++ c :: q2)
  = Retrieval.parse_query q1 ++ Retrieval.parse_query q2.
Proof.
  intros Hc. unfold Retrieval.parse_query. rewrite !split_strip.
  unfold lower. rewrite map_app. cbn [map].
  apply split_app_space. by rewrite is_space_lower_char.
Qed.

Lemma query_terms_space q1 c q2 stemmed :
  is_space c = true →
  query_terms (q1 ++ c :: q2) stemmed
  = query_terms q1 stemmed ++ query_terms q2 stemmed.
Proof.
  intros Hc. unfold query_terms. rewrite parse_query_space by done.
  destruct stemmed; [apply map_app|done].
Qed.

Lemma matches_app qts1 qts2 view :
  matches (qts1 ++ qts2) view = matches qts1 view && matches qts2 view.
Proof. apply forallb_app. Qed.

Lemma blank_app_space q1 c q2 :
  blank (q1 ++ c :: q2) = blank q1 && (is_space c && blank q2).
Proof. by rewrite blank_app. Qed.

(** ** More on the Boolean search *)

(** X15.  A query made of two parts with white space between them matches a
    document iff both parts match it: in the modes that score every
    document, the score for the whole query is the product of the scores
    for the parts, and in every mode the terms of the query are the terms
    of the first part followed by those of the second. *)
Theorem boolean_conjunction (q1 q2 : str) (c : ascii)
    (collection : list Document) (stopword_filtered : bool) :
  is_space c = true → blank q1 = false → blank q2 = false →
  (∀ stemmed,
     query_terms (q1 ++ c :: q2) stemmed
     = query_terms q1 stemmed ++ query_terms q2 stemmed) ∧
  (∀ stemmed view,
     matches (query_terms (q1 ++ c :: q2) stemmed) view
     = matches (query_terms q1 stemmed) view
       && matches (query_terms q2 stemmed) view) ∧
  Retrieval.linear_boolean_search (q1 ++ c :: q2) collection
    stopword_filtered false
  = zip_with (fun r1 r2 : nat * Document => (r1.1 * r2.1, r1.2))
      (Retrieval.linear_boolean_search q1 collection stopword_filtered false)
      (Retrieval.linear_boolean_search q2 collection stopword_filtered false).
Proof.
  intros Hc Hq1 Hq2. split_and!.
  - intros stemmed. by apply query_terms_space.
  - intros stemmed view. by rewrite query_terms_space, matches_app.
  - rewrite !linear_boolean_search_spec;
      [|done|done|by rewrite blank_app_space, Hq1].
    cbv zeta. rewrite query_terms_space by done.
    induction collection as [|doc collection IH]; [done|].
    cbn [map zip_with fst snd]. rewrite IH, matches_app.
    by repeat case_match.
Qed.

Lemma boolean_conjunction_witness :
  is_space " "%char = true ∧ blank (lit "cat") = false ∧
  blank (lit "dog") = false ∧
  Retrieval.linear_boolean_search (lit "cat" ++ " "%char :: lit "dog")
    example_collection false false
  = zip_with (fun r1 r2 : nat * Document => (r1.1 * r2.1, r1.2))
      (Retrieval.linear_boolean_search (lit "cat") example_collection
         false false)
      (Retrieval.linear_boolean_search (lit "dog") example_collection
         false false).
Proof.
  split_and!; [reflexivity..|].
  exact (proj2 (proj2 (boolean_conjunction (lit "cat") (lit "dog") " "%char
                         example_collection false eq_refl eq_refl eq_refl))).
Defined.

Lemma old_boolean_scan (search_term : str) (stopword_filtered : bool)
    (collection : list Document) (results : list (nat * Document)) :
  foldl (fun results (doc : Document) =>
           let terms_to_search :=
             if stopword_filtered then filtered_terms doc else terms doc in
           let lowercase_terms := map lower terms_to_search in
           if bool_decide (search_term ∈ lowercase_terms)
           then results ++ [(1, doc)]
           else results ++ [(0, doc)])
        results collection
  = results ++
    map (fun doc =>
           (if bool_decide (search_term ∈ term_view doc stopword_filtered false)
            then 1 else 0, doc))
        collection.
Proof.
  revert results. induction collection as [|doc collection IH]; intros results.
  - simpl. by rewrite app_nil_r.
  - cbn [foldl map]. rewrite IH. cbv zeta.
    unfold term_view, Retrieval.select_terms. cbn [andb].
    case_bool_decide; by rewrite <- app_assoc.
Qed.

Lemma old_linear_boolean_search_spec term collection stopword_filtered :
  RetrievalOld.linear_boolean_search term collection stopword_filtered
  = map (fun doc =>
           (if bool_decide (strip (lower term)
                              ∈ term_view doc stopword_filtered false)
            then 1 else 0, doc))
        collection.
Proof.
  unfold RetrievalOld.linear_boolean_search. cbv zeta.
  by rewrite old_boolean_scan.
Qed.

(** X16.  The earlier search gives one pair per document, in input order:
    score 1 when the search term, lowercased and stripped of surrounding
    white space, is one of the lowercased terms of the selected list, and
    0 otherwise.  The term is not split: a term with white space inside
    is looked up as it is. *)
Theorem old_linear_boolean_search_scores (term : str)
    (collection : list Document) (stopword_filtered : bool) :
  RetrievalOld.linear_boolean_search term collection stopword_filtered
  = map (fun doc =>
           (if bool_decide
                 (strip (lower term)
                    ∈ map lower (if stopword_filtered then filtered_terms doc
                                 else terms doc))
            then 1 else 0, doc))
        collection ∧
  map snd (RetrievalOld.linear_boolean_search term collection stopword_filtered)
  = collection.
Proof.
  rewrite old_linear_boolean_search_spec. split.
  - apply map_ext. intros doc. unfold term_view, Retrieval.select_terms.
    by destruct stopword_filtered.
  - rewrite map_map. apply map_id.
Qed.

Lemma parse_query_word term :
  strip (lower term) ≠ [] →
  Forall (fun c => is_space c = false) (strip (lower term)) →
  Retrieval.parse_query term = [strip (lower term)].
Proof.
  intros Hne Hword. unfold Retrieval.parse_query, split.
  rewrite split_go_word by done. simpl.
  by destruct (strip (lower term)).
Qed.

(** X17.  For a search term of one word (no white space inside, and not blank)
    the later search in the unstemmed modes returns what the earlier
    search returns. *)
Theorem boolean_search_backward_compatible (term : str)
    (collection : list Document) (stopword_filtered : bool) :
  strip (lower term) ≠ [] →
  Forall (fun c => is_space c = false) (strip (lower term)) →
  Retrieval.linear_boolean_search term collection stopword_filtered false
  = RetrievalOld.linear_boolean_search term collection stopword_filtered.
Proof.
  intros Hne Hword.
  assert (blank term = false) as Hblank.
  { destruct (blank term) eqn:Hb; [|done].
    apply parse_query_nil in Hb. by rewrite parse_query_word in Hb. }
  rewrite linear_boolean_search_spec, old_linear_boolean_search_spec by done.
  cbv zeta. apply map_ext. intros doc.
  unfold query_terms. rewrite parse_query_word by done.
  unfold matches. simpl. by rewrite andb_true_r.
Qed.

Lemma boolean_search_backward_compatible_witness :
  strip (lower (lit " Cat ")) ≠ [] ∧
  Forall (fun c => is_space c = false) (strip (lower (lit " Cat "))) ∧
  Retrieval.linear_boolean_search (lit " Cat ") example_collection false false
  = RetrievalOld.linear_boolean_search (lit " Cat ") example_collection false.
Proof.
  assert (strip (lower (lit " Cat ")) ≠ []) as Hne by discriminate.
  assert (Forall (fun c => is_space c = false) (strip (lower (lit " Cat "))))
    as Hword by (repeat constructor).
  split; [exact Hne|]. split; [exact Hword|].
  exact (boolean_search_backward_compatible (lit " Cat ") example_collection
           false Hne Hword).
Defined.

(** The two searches differ on a term of two words: the earlier one looks
    for the whole string, the later one for both words. *)
Example boolean_search_two_words :
  map fst (RetrievalOld.linear_boolean_search (lit "cat dog")
             example_collection false) = [0; 0; 0] ∧
  map fst (Retrieval.linear_boolean_search (lit "cat dog")
             example_collection false false) = [0; 0; 1].
Proof. by vm_compute. Qed.


(** ** More on the vector space search *)

Section scores_more.
Context {F : Type} `{FloatOrder F}.

Lemma dominated_nonneg (l : list F) :
  Forall (f_le f_zero) l → dominated [] l.
Proof. induction 1; constructor; done. Qed.

Lemma contributions_nonneg id collection stopword_filtered stemmed t :
  Forall (f_le f_zero)
         (contributions (F:=F) id collection stopword_filtered stemmed t).
Proof.
  unfold contributions. apply Forall_fmap, Forall_forall. intros p Hp.
  apply list_elem_of_filter in Hp as [_ Hp]. simpl.
  apply f_mul_nonneg.
  - apply tf_weight_nonneg. by apply postings_tf in Hp.
  - apply idf_nonneg. intros Hnil. rewrite Hnil in Hp.
    by apply elem_of_nil in Hp.
Qed.

Lemma score_nonneg qts id collection stopword_filtered stemmed :
  f_le f_zero (score (F:=F) qts id collection stopword_filtered stemmed).
Proof.
  unfold score.
  apply (foldl_dominated [] _ f_zero f_zero); [|apply f_le_refl].
  apply dominated_nonneg, Forall_concat, Forall_fmap, Forall_forall.
  intros t _. apply contributions_nonneg.
Qed.

(** X19.  No score is negative, in any arithmetic with the order laws: a
    term frequency weight is at least 1 and an inverse document frequency
    is the logarithm of a ratio of at least 1. *)
Theorem vector_space_scores_nonnegative (query : str)
    (collection : list Document) (stopword_filtered stemmed : bool) :
  Forall (fun r : F * Document => f_le f_zero r.1)
         (Retrieval.vector_space_search query collection
            stopword_filtered stemmed).
Proof.
  rewrite vector_space_search_spec. apply Forall_fmap, Forall_forall.
  intros doc _. apply score_nonneg.
Qed.
End scores_more.

Section unknown_terms.
Context {F : Type} `{Float F, FloatLog F}.

Lemma contributions_unknown id collection stopword_filtered stemmed t :
  known collection stopword_filtered stemmed t = false →
  contributions (F:=F) id collection stopword_filtered stemmed t = [].
Proof.
  unfold known. intros Hk. apply negb_false_iff, bool_decide_eq_true in Hk.
  unfold contributions. by rewrite Hk.
Qed.

Lemma score_known qts id collection stopword_filtered stemmed :
  score (F:=F) qts id collection stopword_filtered stemmed
  = score (List.filter (known collection stopword_filtered stemmed) qts)
          id collection stopword_filtered stemmed.
Proof.
  unfold score. f_equal.
  induction qts as [|t qts IH]; [done|].
  cbn [map concat List.filter].
  destruct (known collection stopword_filtered stemmed t) eqn:Hk.
  - cbn [map concat]. by rewrite IH.
  - by rewrite contributions_unknown.
Qed.

Lemma score_app qts1 qts2 id collection stopword_filtered stemmed :
  score (F:=F) (qts1 ++ qts2) id collection stopword_filtered stemmed
  = foldl f_add (score qts1 id collection stopword_filtered stemmed)
      (concat (map (contributions id collection stopword_filtered stemmed)
                   qts2)).
Proof. unfold score. by rewrite map_app, concat_app, foldl_app. Qed.

(** X20.  Query terms that are in no document of the selected view are
    skipped: two queries with the same terms in the index, in the same
    order, have the same result. *)
Theorem unknown_terms_are_skipped (query query' : str)
    (collection : list Document) (stopword_filtered stemmed : bool) :
  List.filter (known collection stopword_filtered stemmed)
              (query_terms query stemmed)
  = List.filter (known collection stopword_filtered stemmed)
                (query_terms query' stemmed) →
  Retrieval.vector_space_search (F:=F) query collection
    stopword_filtered stemmed
  = Retrieval.vector_space_search (F:=F) query' collection
      stopword_filtered stemmed.
Proof.
  intros Hknown. rewrite !vector_space_search_spec.
  apply map_ext. intros doc. f_equal.
  by rewrite score_known, Hknown, <- score_known.
Qed.

(** X21.  The scores of a query made of two parts with white space between
    them are the scores of the first part with the contributions of the
    terms of the second part added, in their order. *)
Theorem vector_space_query_append (q1 q2 : str) (c : ascii)
    (collection : list Document) (stopword_filtered stemmed : bool) :
  is_space c = true →
  Retrieval.vector_space_search (F:=F) (q1 ++ c :: q2) collection
    stopword_filtered stemmed
  = map (fun r : F * Document =>
           (foldl f_add r.1
              (concat (map (contributions (document_id r.2) collection
                              stopword_filtered stemmed)
                           (query_terms q2 stemmed))),
            r.2))
        (Retrieval.vector_space_search (F:=F) q1 collection
           stopword_filtered stemmed).
Proof.
  intros Hc. rewrite !vector_space_search_spec, map_map.
  apply map_ext. intros doc. cbn [fst snd].
  by rewrite query_terms_space, score_app.
Qed.

Lemma term_view_empty_postings t collection stopword_filtered stemmed :
  Forall (fun d => term_view d stopword_filtered stemmed = []) collection →
  postings t collection stopword_filtered stemmed = [].
Proof.
  induction 1 as [|d collection Hd _ IH]; [done|].
  rewrite postings_cons. unfold posting_of. by rewrite Hd.
Qed.

Lemma query_terms_nonempty query stemmed :
  blank query = false → query_terms query stemmed ≠ [].
Proof.
  intros Hblank Hnil. unfold query_terms in Hnil.
  assert (Retrieval.parse_query query = []) as Hparse
    by (destruct stemmed; [by destruct (Retrieval.parse_query query)|done]).
  apply parse_query_nil in Hparse. congruence.
Qed.

Lemma filtered_view_empty d stemmed :
  filtered_terms d = [] → filtered_stemmed_terms d = [] →
  term_view d true stemmed = [].
Proof.
  intros Hf Hfs. unfold term_view, Retrieval.select_terms.
  destruct stemmed; cbn [andb]; by rewrite ?Hfs, ?Hf.
Qed.

(** X22.  A search in a filtered view finds nothing as long as no filter has
    been applied: with empty [filtered_terms] (and no stored filtered
    stems) in every document, a query with at least one term matches no
    document, and every vector space score is 0.0. *)
Theorem filtered_search_before_filtering (query : str)
    (collection : list Document) (stemmed : bool) :
  Forall (fun d => filtered_terms d = [] ∧ filtered_stemmed_terms d = [])
         collection →
  blank query = false →
  Retrieval.linear_boolean_search query collection true false
  = map (fun doc => (0, doc)) collection ∧
  Retrieval.linear_boolean_search query collection true true = [] ∧
  Retrieval.vector_space_search (F:=F) query collection true stemmed
  = map (fun doc => (f_zero, doc)) collection.
Proof.
  intros Hempty Hblank.
  assert (∀ st, Forall (fun d => term_view d true st = []) collection)
    as Hviews.
  { intros st. eapply Forall_impl; [exact Hempty|].
    intros d [Hf Hfs]. by apply filtered_view_empty. }
  assert (∀ st doc, doc ∈ collection →
            matches (query_terms query st) (term_view doc true st) = false)
    as Hnomatch.
  { intros st doc Hin.
    rewrite (proj1 (Forall_forall _ _) (Hviews st) doc Hin).
    pose proof (query_terms_nonempty query st Hblank) as Hne.
    by destruct (query_terms query st). }
  split_and!.
  - rewrite linear_boolean_search_spec by done. cbv zeta.
    apply map_ext_in. intros doc Hin. apply list_elem_of_In in Hin.
    by rewrite Hnomatch.
  - rewrite linear_boolean_search_spec by done. cbv zeta.
    rewrite (filter_matching
               (fun doc => matches (query_terms query true)
                                   (term_view doc true true))).
    clear Hempty Hviews.
    induction collection as [|doc collection IH]; [done|].
    cbn [List.filter]. rewrite Hnomatch by apply list_elem_of_here.
    apply IH. intros st d Hd. apply Hnomatch. by apply list_elem_of_further.
  - rewrite vector_space_search_spec. apply map_ext. intros doc. f_equal.
    apply score_no_posting. intros t p _ Hp.
    rewrite (term_view_empty_postings t collection true stemmed) in Hp
      by apply Hviews.
    by apply elem_of_nil in Hp.
Qed.
End unknown_terms.

Lemma unknown_terms_are_skipped_witness :
  List.filter (known example_collection false false)
              (query_terms (lit "zebra cat") false)
  = List.filter (known example_collection false false)
                (query_terms (lit "cat") false) ∧
  Retrieval.vector_space_search (F:=R) (lit "zebra cat") example_collection
    false false
  = Retrieval.vector_space_search (F:=R) (lit "cat") example_collection
      false false.
Proof.
  assert (List.filter (known example_collection false false)
                      (query_terms (lit "zebra cat") false)
          = List.filter (known example_collection false false)
                        (query_terms (lit "cat") false)) as Hknown
    by reflexivity.
  split; [exact Hknown|].
  exact (unknown_terms_are_skipped (F:=R) (lit "zebra cat") (lit "cat")
           example_collection false false Hknown).
Defined.

Lemma vector_space_query_append_witness :
  is_space " "%char = true ∧
  Retrieval.vector_space_search (F:=R) (lit "cat" ++ " "%char :: lit "dog")
    example_collection false false
  = map (fun r : R * Document =>
           (foldl f_add r.1
              (concat (map (contributions (document_id r.2) example_collection
                              false false)
                           (query_terms (lit "dog") false))),
            r.2))
        (Retrieval.vector_space_search (F:=R) (lit "cat") example_collection
           false false).
Proof.
  split; [reflexivity|].
  exact (vector_space_query_append (F:=R) (lit "cat") (lit "dog") " "%char
           example_collection false false eq_refl).
Defined.

Lemma filtered_search_before_filtering_witness :
  Forall (fun d => filtered_terms d = [] ∧ filtered_stemmed_terms d = [])
         example_collection ∧
  blank (lit "cat") = false ∧
  Retrieval.linear_boolean_search (lit "cat") example_collection true false
  = map (fun doc => (0, doc)) example_collection ∧
  Retrieval.linear_boolean_search (lit "cat") example_collection true true
  = [].
Proof.
  assert (Forall (fun d => filtered_terms d = []
                           ∧ filtered_stemmed_terms d = [])
                 example_collection) as Hempty
    by (repeat constructor).
  destruct (filtered_search_before_filtering (F:=R) (lit "cat")
              example_collection false Hempty eq_refl) as (H1 & H2 & _).
  split_and!; [exact Hempty|reflexivity|exact H1|exact H2].
Defined.

(** ** More on precision and recall *)

(** X23.  Swapping the two sets swaps precision and recall, in every
    arithmetic. *)
Theorem precision_recall_swap {F : Type} `{Float F}
    (retrieved relevant : gset Z) :
  Retrieval.precision_recall (F:=F) relevant retrieved
  = ((Retrieval.precision_recall (F:=F) retrieved relevant).2,
     (Retrieval.precision_recall (F:=F) retrieved relevant).1).
Proof.
  unfold Retrieval.precision_recall.
  rewrite (comm_L (∩) relevant retrieved).
  by repeat case_bool_decide.
Qed.

Lemma INR_ratio_bounds (a b : nat) :
  a ≤ b → 0 < b → (0 <= INR a / INR b <= 1)%R.
Proof.
  intros Hab Hb. pose proof (le_INR a b Hab) as Hle.
  pose proof (pos_INR a) as Ha. pose proof (lt_0_INR b Hb) as Hpos.
  split.
  - apply Rle_mult_inv_pos; done.
  - apply (Rmult_le_reg_r (INR b)); [done|].
    unfold Rdiv. rewrite Rmult_assoc, Rinv_l by lra. lra.
Qed.

Lemma size_nonempty (s : gset Z) : s ≠ ∅ → 0 < size s.
Proof.
  intros Hne. destruct (size s) eqn:Hsize; [|lia].
  by apply size_empty_inv, leibniz_equiv in Hsize.
Qed.

(** X24.  In real arithmetic precision and recall lie between 0 and 1; they
    are both 1 when the retrieved set is the (non-empty) relevant set,
    and both 0 when the two sets have no element in common. *)
Theorem precision_recall_range (retrieved relevant : gset Z) :
  (0 <= (Retrieval.precision_recall (F:=R) retrieved relevant).1 <= 1)%R ∧
  (0 <= (Retrieval.precision_recall (F:=R) retrieved relevant).2 <= 1)%R ∧
  (retrieved ≠ ∅ →
   Retrieval.precision_recall (F:=R) retrieved retrieved = (1%R, 1%R)) ∧
  (retrieved ∩ relevant = ∅ →
   Retrieval.precision_recall (F:=R) retrieved relevant = (0%R, 0%R)).
Proof.
  split; [|split; [|split]].
  - destruct (decide (retrieved = ∅ ∨ relevant = ∅)) as [Hempty|Hne].
    + rewrite precision_recall_empty by done. simpl. lra.
    + rewrite precision_recall_nonempty by tauto. cbn [fst].
      apply INR_ratio_bounds.
      * apply subseteq_size, intersection_subseteq_l.
      * apply size_nonempty. tauto.
  - destruct (decide (retrieved = ∅ ∨ relevant = ∅)) as [Hempty|Hne].
    + rewrite precision_recall_empty by done. simpl. lra.
    + rewrite precision_recall_nonempty by tauto. cbn [snd].
      apply INR_ratio_bounds.
      * apply subseteq_size, intersection_subseteq_r.
      * apply size_nonempty. tauto.
  - intros Hne. rewrite precision_recall_nonempty by done.
    rewrite (idemp_L (∩) retrieved).
    pose proof (lt_0_INR _ (size_nonempty retrieved Hne)) as Hpos.
    simpl. f_equal; unfold Rdiv; rewrite Rinv_r; lra.
  - intros Hdisjoint.
    destruct (decide (retrieved = ∅ ∨ relevant = ∅)) as [Hempty|Hne].
    + by rewrite precision_recall_empty by done.
    + rewrite precision_recall_nonempty by tauto.
      rewrite Hdisjoint, size_empty. simpl.
      f_equal; unfold Rdiv; lra.
Qed.

Lemma precision_recall_range_witness :
  ({[1%Z; 2%Z]} : gset Z) ≠ ∅ ∧
  Retrieval.precision_recall (F:=R) {[1%Z; 2%Z]} {[1%Z; 2%Z]} = (1%R, 1%R) ∧
  ({[1%Z; 2%Z]} ∩ {[3%Z]} : gset Z) = ∅ ∧
  Retrieval.precision_recall (F:=R) {[1%Z; 2%Z]} {[3%Z]} = (0%R, 0%R).
Proof.
  assert (({[1%Z; 2%Z]} : gset Z) ≠ ∅) as Hne
    by (apply (non_empty_inhabited_L 1%Z); set_solver).
  assert (({[1%Z; 2%Z]} ∩ {[3%Z]} : gset Z) = ∅) as Hdisjoint by set_solver.
  split_and!; [exact Hne| |exact Hdisjoint|].
  - exact (proj1 (proj2 (proj2 (precision_recall_range {[1%Z; 2%Z]} ∅))) Hne).
  - exact (proj2 (proj2 (proj2 (precision_recall_range {[1%Z; 2%Z]} {[3%Z]})))
             Hdisjoint).
Defined.

(** ** Loading a collection *)

Section loader_facts.
Import Collection.

Lemma lstrip_length s : length (lstrip s) ≤ length s.
Proof.
  induction s as [|c s IH]; simpl; [done|].
  destruct (is_space c); simpl; lia.
Qed.

Lemma lstrip_fixed_head c s : is_space c = false → lstrip (c :: s) = c :: s.
Proof. intros Hc. simpl. by rewrite Hc. Qed.

Lemma lstrip_fixed s :
  lstrip s = s ↔ match s with [] => True | c :: _ => is_space c = false end.
Proof.
  destruct s as [|c s]; [done|]. simpl. destruct (is_space c) eqn:Hc.
  - split; [|done]. intros Heq.
    pose proof (lstrip_length s) as Hlen. rewrite Heq in Hlen. simpl in Hlen.
    lia.
  - done.
Qed.

Lemma lstrip_idemp s : lstrip (lstrip s) = lstrip s.
Proof.
  induction s as [|c s IH]; simpl; [done|].
  destruct (is_space c) eqn:Hc; [done|]. simpl. by rewrite Hc.
Qed.

Lemma lstrip_fixed_prefix (x y : str) :
  lstrip (x ++ y) = x ++ y → x ≠ [] → lstrip x = x.
Proof.
  intros Hfix Hne. destruct x as [|c x]; [done|].
  apply lstrip_fixed in Hfix. simpl in Hfix. by apply lstrip_fixed_head.
Qed.

(** A stripped string has no white space at either end. *)
Lemma strip_trimmed s :
  lstrip (strip s) = strip s ∧ lstrip (rev (strip s)) = rev (strip s).
Proof.
  unfold strip.
  set (a := lstrip s). set (b := lstrip (rev a)).
  split.
  - destruct (lstrip_prefix (rev a)) as (blanks & _ & Hrev).
    fold b in Hrev. apply (f_equal (@rev ascii)) in Hrev.
    rewrite rev_involutive, rev_app_distr in Hrev.
    destruct (decide (rev b = [])) as [Hnil|Hne]; [by rewrite Hnil|].
    apply (lstrip_fixed_prefix (rev b) (rev blanks)); [|done].
    rewrite <- Hrev. apply lstrip_idemp.
  - rewrite rev_involutive. apply lstrip_idemp.
Qed.

Lemma strip_idemp s : strip (strip s) = strip s.
Proof.
  destruct (strip_trimmed s) as [Hl Hr].
  unfold strip at 1. by rewrite Hl, Hr, rev_involutive.
Qed.

Lemma lstrip_elem c s : c ∈ lstrip s → c ∈ s.
Proof.
  induction s as [|c' s IH]; simpl; [done|].
  destruct (is_space c'); [|done]. intros Hin. by apply list_elem_of_further, IH.
Qed.

Lemma strip_elem c s : c ∈ strip s → c ∈ s.
Proof.
  unfold strip. intros Hin.
  apply list_elem_of_In, in_rev, list_elem_of_In, lstrip_elem in Hin.
  apply list_elem_of_In, in_rev, list_elem_of_In in Hin.
  by apply lstrip_elem.
Qed.

Lemma replace_char_gone (a b : ascii) s : a ≠ b → a ∉ replace_char a b s.
Proof.
  intros Hne Hin. unfold replace_char in Hin.
  apply list_elem_of_In, in_map_iff in Hin as (c & Hc & _).
  case_bool_decide; congruence.
Qed.

(** *** The tokens *)

Lemma close_run_Forall (P : str → Prop) cur acc :
  (cur ≠ [] → P cur) → Forall P acc → Forall P (close_run cur acc).
Proof.
  intros Hcur Hacc. destruct cur as [|c cur]; simpl; [done|].
  apply Forall_app. split; [done|]. constructor; [by apply Hcur|done].
Qed.

Lemma tokens_go_Forall (P : ascii → Prop) s cur acc :
  Forall P s → Forall P cur →
  Forall (fun t => t ≠ [] ∧
                   Forall (fun c => is_token_char c = true ∧ P c) t) acc →
  Forall (fun c => is_token_char c = true) cur →
  Forall (fun t => t ≠ [] ∧
                   Forall (fun c => is_token_char c = true ∧ P c) t)
         (tokens_go s cur acc).
Proof.
  intros Hs. revert cur acc.
  induction Hs as [|c s Hc _ IH]; intros cur acc Hcur Hacc Htok; simpl.
  - apply close_run_Forall; [|done]. intros Hne. split; [done|].
    apply Forall_forall. intros x Hx. split.
    + by apply (proj1 (Forall_forall _ _) Htok).
    + by apply (proj1 (Forall_forall _ _) Hcur).
  - destruct (is_token_char c) eqn:Hclass.
    + apply IH; [|done|]; apply Forall_app; split; try done;
        by repeat constructor.
    + apply IH; [done| |done].
      apply close_run_Forall; [|done]. intros Hne. split; [done|].
      apply Forall_forall. intros x Hx. split.
      * by apply (proj1 (Forall_forall _ _) Htok).
      * by apply (proj1 (Forall_forall _ _) Hcur).
Qed.

Lemma tokens_lower_ok s : Forall token_ok (tokens (lower s)).
Proof.
  unfold tokens, token_ok.
  apply (tokens_go_Forall (fun c => is_upper c = false)); try done.
  apply no_upper_lower.
Qed.

Lemma no_upper_lower_fixed t : no_upper t → lower t = t.
Proof.
  induction 1 as [|c t Hc _ IH]; [done|].
  unfold lower in *. simpl. rewrite IH. f_equal.
  unfold lower_char. by rewrite Hc.
Qed.

Lemma token_ok_lower t : token_ok t → lower t = t.
Proof.
  intros [_ Hchars]. apply no_upper_lower_fixed.
  eapply Forall_impl; [exact Hchars|]. by intros c [_ ?].
Qed.

(** *** The loop over the matches *)

Lemma new_document_ok author0 origin0 id m0 m1 :
  loaded_ok author0 origin0
    (new_document id (strip m0) (strip (replace_char LF SP (strip m1)))
       (tokens (lower (strip (replace_char LF SP (strip m1)))))
       author0 origin0).
Proof.
  unfold loaded_ok. cbn [raw_text title terms author origin filtered_terms
                          stemmed_terms filtered_stemmed_terms new_document].
  split_and!; try done.
  - intros Hin. apply strip_elem in Hin. revert Hin.
    by apply replace_char_gone.
  - apply strip_idemp.
  - apply strip_idemp.
  - apply tokens_lower_ok.
  - eapply Forall_impl; [apply tokens_lower_ok|]. apply token_ok_lower.
Qed.

(** The state of the loop: the next identifier is the number of documents
    built so far, the identifiers so far are 0, 1, 2, ... in order, and
    every document is well formed. *)
Lemma add_match_invariant author0 origin0 (ms : list (list str))
    (documents : list Document) (bound : nat) :
  map document_id documents = map Z.of_nat (seq 0 (length documents)) →
  Forall (loaded_ok author0 origin0) documents →
  length documents ≤ bound →
  ∀ result,
    result = (foldl (add_match author0 origin0)
                    (documents, Z.of_nat (length documents)) ms).1 →
    map document_id result = map Z.of_nat (seq 0 (length result)) ∧
    Forall (loaded_ok author0 origin0) result ∧
    length result ≤ bound + length ms.
Proof.
  revert documents bound.
  induction ms as [|m ms IH]; intros documents bound Hids Hok Hlen result ->.
  - cbn [foldl fst length]. split_and!; [done..|lia].
  - specialize (fun documents bound H1 H2 H3 =>
                  IH documents bound H1 H2 H3 _ eq_refl).
    destruct m as [|m0 [|m1 m]]; cbn [foldl length add_match].
    + destruct (IH documents bound Hids Hok Hlen) as (H1 & H2 & H3).
      split_and!; [done..|lia].
    + destruct (IH documents bound Hids Hok Hlen) as (H1 & H2 & H3).
      split_and!; [done..|lia].
    + set (doc := new_document _ _ _ _ _ _).
      replace (Z.of_nat (length documents) + 1)%Z
        with (Z.of_nat (length (documents ++ [doc])))
        by (rewrite length_app; simpl; lia).
      destruct (IH (documents ++ [doc]) (S bound)) as (H1 & H2 & H3).
      * rewrite length_app. cbn [length]. rewrite Nat.add_1_r, seq_S.
        rewrite !map_app, Hids. done.
      * apply Forall_app. split; [done|]. constructor; [|done].
        apply new_document_ok.
      * rewrite length_app. simpl. lia.
      * split_and!; [done..|lia].
Qed.

Lemma load_documents_invariant download findall author0 origin0
    start_line end_line :
  let result :=
    load_documents_from_url download findall author0 origin0
                            start_line end_line in
  map document_id result = map Z.of_nat (seq 0 (length result)) ∧
  Forall (loaded_ok author0 origin0) result.
Proof.
  cbv zeta. unfold load_documents_from_url.
  destruct download as [content|]; [|done]. cbv zeta.
  case_bool_decide; [done|].
  match goal with
  | |- context [foldl _ _ ?ms] =>
      destruct (add_match_invariant author0 origin0 ms [] 0
                  eq_refl (Forall_nil_2 _) (Nat.le_refl _) _ eq_refl)
        as (H1 & H2 & _)
  end.
  done.
Qed.

(** X25.  The documents of a loaded collection are numbered 0, 1, 2, ... in
    their order, so no two of them have the same identifier; there are no
    more documents than matches of the pattern. *)
Theorem loaded_identifiers_unique (download : option str)
    (findall : str → list (list str)) (author0 origin0 : str)
    (start_line : Z) (end_line : option Z) :
  let result :=
    load_documents_from_url download findall author0 origin0
                            start_line end_line in
  map document_id result = map Z.of_nat (seq 0 (length result)) ∧
  NoDup (map document_id result) ∧
  (∀ i doc, result !! i = Some doc → document_id doc = Z.of_nat i).
Proof.
  cbv zeta.
  destruct (load_documents_invariant download findall author0 origin0
              start_line end_line) as [Hids _].
  split_and!.
  - exact Hids.
  - rewrite Hids. apply NoDup_fmap; [apply _|apply NoDup_seq].
  - intros i doc Hdoc.
    assert (map document_id
              (load_documents_from_url download findall author0 origin0
                 start_line end_line) !! i = Some (document_id doc)) as Hid
      by by rewrite list_lookup_fmap, Hdoc.
    rewrite Hids, list_lookup_fmap in Hid.
    destruct (seq 0 _ !! i) as [j|] eqn:Hj; [|done].
    apply lookup_seq in Hj as [-> _]. by injection Hid as <-.
Qed.

(** X26.  Every loaded document is well formed: its raw text has no line
    break and no white space at either end, its title is stripped, its
    terms are the tokens of the lowercased raw text, each a non-empty
    string of lowercase letters, digits and apostrophes, author and
    origin are the ones given, and no filtered or stemmed terms are
    stored yet. *)
Theorem loaded_documents_well_formed (download : option str)
    (findall : str → list (list str)) (author0 origin0 : str)
    (start_line : Z) (end_line : option Z) :
  Forall (loaded_ok author0 origin0)
         (load_documents_from_url download findall author0 origin0
                                  start_line end_line).
Proof.
  apply (load_documents_invariant download findall author0 origin0
           start_line end_line).
Qed.

(** X27.  The loader returns no document when the download fails, when the
    first line of the range is not before its end, when the range ends at
    or before line 0, and when it starts past the last line. *)
Theorem load_documents_nothing (findall : str → list (list str))
    (author0 origin0 content : str) (start_line end_line : Z) :
  load_documents_from_url None findall author0 origin0 start_line
    (Some end_line) = [] ∧
  ((end_line ≤ start_line)%Z ∨ (end_line ≤ 0)%Z
   ∨ (Z.of_nat (length (split_on LF content)) ≤ start_line)%Z →
   load_documents_from_url (Some content) findall author0 origin0
     start_line (Some end_line) = []) ∧
  ((Z.of_nat (length (split_on LF content)) ≤ start_line)%Z →
   load_documents_from_url (Some content) findall author0 origin0
     start_line None = []).
Proof.
  split_and!; [done| |].
  - intros Hrange. unfold load_documents_from_url. cbv zeta.
    rewrite bool_decide_eq_true_2; [done|]. cbn [from_option]. unfold Datatypes.id. lia.
  - intros Hrange. unfold load_documents_from_url. cbv zeta.
    rewrite bool_decide_eq_true_2; [done|]. cbn [from_option]. unfold Datatypes.id. lia.
Qed.
End loader_facts.

(** The document that the example call loads. *)
Example load_documents_scenario :
  load_documents_from_url_example
  = [ {| document_id := 0; title := lit "A Tale";
         raw_text := lit "The Cat's hat   is RED";
         terms := [lit "the"; lit "cat's"; lit "hat"; lit "is"; lit "red"];
         author := lit "me"; origin := lit "book";
         filtered_terms := []; stemmed_terms := [];
         filtered_stemmed_terms := [] |} ].
Proof. by vm_compute. Qed.

Lemma loaded_identifiers_unique_witness :
  load_documents_from_url_example !! 0
  = Some {| document_id := 0; title := lit "A Tale";
            raw_text := lit "The Cat's hat   is RED";
            terms := [lit "the"; lit "cat's"; lit "hat"; lit "is"; lit "red"];
            author := lit "me"; origin := lit "book";
            filtered_terms := []; stemmed_terms := [];
            filtered_stemmed_terms := [] |} ∧
  document_id {| document_id := 0; title := lit "A Tale";
                 raw_text := lit "The Cat's hat   is RED";
                 terms := [lit "the"; lit "cat's"; lit "hat"; lit "is";
                           lit "red"];
                 author := lit "me"; origin := lit "book";
                 filtered_terms := []; stemmed_terms := [];
                 filtered_stemmed_terms := [] |} = Z.of_nat 0.
Proof.
  assert (load_documents_from_url_example !! 0
          = Some {| document_id := 0; title := lit "A Tale";
                    raw_text := lit "The Cat's hat   is RED";
                    terms := [lit "the"; lit "cat's"; lit "hat"; lit "is";
                              lit "red"];
                    author := lit "me"; origin := lit "book";
                    filtered_terms := []; stemmed_terms := [];
                    filtered_stemmed_terms := [] |}) as Hdoc
    by (by vm_compute).
  split; [exact Hdoc|].
  exact (proj2 (proj2 (loaded_identifiers_unique
                         (Some (lit "skipped
 The Cat's hat 
 is RED"))
                         (fun s => [[lit " A Tale "; s]])
                         (lit "me") (lit "book") 1 None)) 0 _ Hdoc).
Defined.

Lemma load_documents_nothing_witness :
  ((5 ≤ 7)%Z ∨ (5 ≤ 0)%Z
   ∨ (Z.of_nat (length (Collection.split_on Collection.LF (lit "a"))) ≤ 7)%Z) ∧
  Collection.load_documents_from_url (Some (lit "a"))
    (fun s => [[lit "t"; s]]) (lit "me") (lit "book") 7 (Some 5%Z) = [].
Proof.
  assert ((5 ≤ 7)%Z ∨ (5 ≤ 0)%Z
          ∨ (Z.of_nat (length (Collection.split_on Collection.LF (lit "a")))
             ≤ 7)%Z) as Hrange by (left; lia).
  split; [exact Hrange|].
  exact (proj1 (proj2 (load_documents_nothing (fun s => [[lit "t"; s]])
                         (lit "me") (lit "book") (lit "a") 7 5)) Hrange).
Defined.

Lemma vector_space_scores_nonnegative_witness :
  Forall (fun r : R * Document => f_le (F:=R) f_zero r.1)
         (Retrieval.vector_space_search (F:=R) (lit "cat dog")
            example_collection false false).
Proof.
  exact (vector_space_scores_nonnegative (F:=R) (lit "cat dog")
           example_collection false false).
Defined.

(** * The stemmer under the recursion limit *)

Section recursion_limit.
Implicit Types (word : str) (frames : nat).

Lemma is_consonant_cases frames word i :
  StemmingFrames.is_consonant frames word i = None ∨
  StemmingFrames.is_consonant frames word i
  = Some (Stemming.is_consonant word i).
Proof.
  revert i. induction frames as [|frames IH]; intros i; [by left|].
  rewrite is_consonant_unfold. simpl.
  destruct (word !! i) as [c|]; [|by right]. simpl.
  destruct (char_in _ _); [by right|].
  destruct (bool_decide _); [|by right].
  destruct i as [|j]; [by right|].
  destruct (IH j) as [-> | ->]; [by left|by right].
Qed.

Lemma is_consonant_enough frames word i :
  i < frames →
  StemmingFrames.is_consonant frames word i
  = Some (Stemming.is_consonant word i).
Proof.
  revert i. induction frames as [|frames IH]; intros i Hi; [lia|].
  rewrite is_consonant_unfold. simpl.
  destruct (word !! i) as [c|]; [|done]. simpl.
  destruct (char_in _ _); [done|].
  destruct (bool_decide _); [|done].
  destruct i as [|j]; [done|].
  by rewrite IH by lia.
Qed.

Lemma skip_run_cases frames word cons fuel i :
  StemmingFrames.skip_run frames word cons fuel i = None ∨
  StemmingFrames.skip_run frames word cons fuel i
  = Some (Stemming.skip_run word cons fuel i).
Proof.
  revert i. induction fuel as [|fuel IH]; intros i; simpl; [by right|].
  destruct (i <? length word); [|by right]. simpl.
  destruct (is_consonant_cases frames word i) as [-> | ->]; [by left|].
  simpl. destruct (bool_decide _); [apply IH|by right].
Qed.

Lemma skip_run_enough frames word cons fuel i :
  length word ≤ frames →
  StemmingFrames.skip_run frames word cons fuel i
  = Some (Stemming.skip_run word cons fuel i).
Proof.
  intros Hlen. revert i. induction fuel as [|fuel IH]; intros i; simpl; [done|].
  destruct (i <? length word) eqn:Hi; [|done]. simpl.
  apply Nat.ltb_lt in Hi.
  rewrite is_consonant_enough by lia.
  simpl. destruct (bool_decide _); [apply IH|done].
Qed.

Lemma measure_loop_cases frames word fuel i m :
  StemmingFrames.measure_loop frames word fuel i m = None ∨
  StemmingFrames.measure_loop frames word fuel i m
  = Some (Stemming.measure_loop word fuel i m).
Proof.
  revert i m. induction fuel as [|fuel IH]; intros i m; simpl; [by right|].
  destruct (i <? length word); [|by right].
  destruct (skip_run_cases frames word false (length word) i) as [-> | ->];
    [by left|]. simpl.
  destruct (length word <=? _); [by right|].
  destruct (skip_run_cases frames word true (length word)
              (Stemming.skip_run word false (length word) i)) as [-> | ->];
    [by left|]. simpl. apply IH.
Qed.

Lemma measure_loop_enough frames word fuel i m :
  length word ≤ frames →
  StemmingFrames.measure_loop frames word fuel i m
  = Some (Stemming.measure_loop word fuel i m).
Proof.
  intros Hlen. revert i m.
  induction fuel as [|fuel IH]; intros i m; simpl; [done|].
  destruct (i <? length word); [|done].
  rewrite skip_run_enough by done. simpl.
  destruct (length word <=? _); [done|].
  rewrite skip_run_enough by done. simpl. apply IH.
Qed.

Lemma measure_cases frames word :
  StemmingFrames.measure frames word = None ∨
  StemmingFrames.measure frames word = Some (Stemming.measure word).
Proof.
  destruct frames as [|frames]; [by left|].
  unfold StemmingFrames.measure, Stemming.measure.
  destruct (length word =? 0); [by right|].
  destruct (skip_run_cases frames word true (length word) 0) as [-> | ->];
    [by left|]. simpl. apply measure_loop_cases.
Qed.

Lemma measure_enough frames word :
  length word < frames →
  StemmingFrames.measure frames word = Some (Stemming.measure word).
Proof.
  intros Hlen. destruct frames as [|frames]; [lia|].
  unfold StemmingFrames.measure, Stemming.measure.
  destruct (length word =? 0); [done|].
  rewrite skip_run_enough by lia. simpl. apply measure_loop_enough. lia.
Qed.

Lemma first_vowel_cases frames word (indices : list nat) :
  StemmingFrames.first_vowel frames word indices = None ∨
  StemmingFrames.first_vowel frames word indices
  = Some (existsb (fun i => negb (Stemming.is_consonant word i)) indices).
Proof.
  induction indices as [|i indices IH]; simpl; [by right|].
  destruct (is_consonant_cases frames word i) as [-> | ->]; [by left|].
  simpl. destruct (Stemming.is_consonant word i); simpl; [apply IH|by right].
Qed.

Lemma first_vowel_enough frames word (indices : list nat) :
  Forall (fun i => i < frames) indices →
  StemmingFrames.first_vowel frames word indices
  = Some (existsb (fun i => negb (Stemming.is_consonant word i)) indices).
Proof.
  induction 1 as [|i indices Hi _ IH]; simpl; [done|].
  rewrite is_consonant_enough by done. simpl.
  destruct (Stemming.is_consonant word i); simpl; [apply IH|done].
Qed.

Lemma contains_vowel_cases frames word :
  StemmingFrames.contains_vowel frames word = None ∨
  StemmingFrames.contains_vowel frames word
  = Some (Stemming.contains_vowel word).
Proof.
  destruct frames as [|frames]; [by left|]. apply first_vowel_cases.
Qed.

Lemma contains_vowel_enough frames word :
  length word < frames →
  StemmingFrames.contains_vowel frames word
  = Some (Stemming.contains_vowel word).
Proof.
  intros Hlen. destruct frames as [|frames]; [lia|].
  apply first_vowel_enough, Forall_forall. intros i Hi.
  apply list_elem_of_In, in_seq in Hi. lia.
Qed.

Lemma ends_double_consonant_cases frames word :
  StemmingFrames.ends_double_consonant frames word = None ∨
  StemmingFrames.ends_double_consonant frames word
  = Some (Stemming.ends_double_consonant word).
Proof.
  destruct frames as [|frames]; [by left|].
  unfold StemmingFrames.ends_double_consonant, Stemming.ends_double_consonant.
  destruct (length word <? 2); [by right|].
  destruct (bool_decide _); [|by right]. apply is_consonant_cases.
Qed.

Lemma ends_double_consonant_enough frames word :
  length word < frames →
  StemmingFrames.ends_double_consonant frames word
  = Some (Stemming.ends_double_consonant word).
Proof.
  intros Hlen. destruct frames as [|frames]; [lia|].
  unfold StemmingFrames.ends_double_consonant, Stemming.ends_double_consonant.
  destruct (length word <? 2) eqn:Hshort; [done|].
  apply Nat.ltb_ge in Hshort.
  destruct (bool_decide _); [|done]. apply is_consonant_enough. lia.
Qed.

Lemma cvc_ending_cases frames word :
  StemmingFrames.cvc_ending frames word = None ∨
  StemmingFrames.cvc_ending frames word = Some (Stemming.cvc_ending word).
Proof.
  destruct frames as [|frames]; [by left|].
  unfold StemmingFrames.cvc_ending, Stemming.cvc_ending.
  destruct (length word <? 3); [by right|]. cbn zeta.
  destruct (is_consonant_cases frames word (length word - 3)) as [-> | ->];
    [by left|]. simpl.
  destruct (Stemming.is_consonant word (length word - 3)); [|by right].
  destruct (is_consonant_cases frames word (length word - 2)) as [-> | ->];
    [by left|]. simpl.
  destruct (Stemming.is_consonant word (length word - 2)); [by right|].
  destruct (is_consonant_cases frames word (length word - 1)) as [-> | ->];
    [by left|by right].
Qed.

Lemma cvc_ending_enough frames word :
  length word < frames →
  StemmingFrames.cvc_ending frames word = Some (Stemming.cvc_ending word).
Proof.
  intros Hlen. destruct frames as [|frames]; [lia|].
  unfold StemmingFrames.cvc_ending, Stemming.cvc_ending.
  destruct (length word <? 3) eqn:Hshort; [done|]. cbn zeta.
  apply Nat.ltb_ge in Hshort.
  rewrite !is_consonant_enough by lia. simpl.
  destruct (Stemming.is_consonant word (length word - 3)); [|done].
  by destruct (Stemming.is_consonant word (length word - 2)).
Qed.

Lemma step1b_post_cases frames word :
  StemmingFrames.step1b_post frames word = None ∨
  StemmingFrames.step1b_post frames word = Some (Stemming.step1b_post word).
Proof.
  unfold StemmingFrames.step1b_post, Stemming.step1b_post.
  do 3 (destruct (endswith word _); [by right|]).
  destruct (ends_double_consonant_cases frames word) as [-> | ->];
    [by left|]. simpl.
  destruct (_ && _); [by right|].
  destruct (measure_cases frames word) as [-> | ->]; [by left|]. simpl.
  destruct (Stemming.measure word =? 1); [|by right].
  destruct (cvc_ending_cases frames word) as [-> | ->]; [by left|by right].
Qed.

Lemma step1b_post_enough frames word :
  length word < frames →
  StemmingFrames.step1b_post frames word = Some (Stemming.step1b_post word).
Proof.
  intros Hlen. unfold StemmingFrames.step1b_post, Stemming.step1b_post.
  do 3 (destruct (endswith word _); [done|]).
  rewrite ends_double_consonant_enough by done. simpl.
  destruct (_ && _); [done|].
  rewrite measure_enough by done. simpl.
  destruct (Stemming.measure word =? 1); [|done].
  by rewrite cvc_ending_enough by done.
Qed.

Lemma step1b_cases frames word :
  StemmingFrames.step1b frames word = None ∨
  StemmingFrames.step1b frames word = Some (Stemming.step1b word).
Proof.
  unfold StemmingFrames.step1b, Stemming.step1b. cbn zeta.
  destruct (endswith word (lit "eed")).
  { destruct (measure_cases frames (drop_last 3 word)) as [-> | ->];
      [by left|by right]. }
  destruct (endswith word (lit "ed")).
  { destruct (contains_vowel_cases frames (drop_last 2 word)) as [-> | ->];
      [by left|]. simpl.
    destruct (Stemming.contains_vowel _); [apply step1b_post_cases|by right]. }
  destruct (endswith word (lit "ing")); [|by right].
  destruct (contains_vowel_cases frames (drop_last 3 word)) as [-> | ->];
    [by left|]. simpl.
  destruct (Stemming.contains_vowel _); [apply step1b_post_cases|by right].
Qed.

Lemma step1b_enough frames word :
  length word < frames →
  StemmingFrames.step1b frames word = Some (Stemming.step1b word).
Proof.
  intros Hlen. unfold StemmingFrames.step1b, Stemming.step1b. cbn zeta.
  pose proof (drop_last_le 2 word). pose proof (drop_last_le 3 word).
  destruct (endswith word (lit "eed")).
  { by rewrite measure_enough by lia. }
  destruct (endswith word (lit "ed")).
  { rewrite contains_vowel_enough by lia. simpl.
    destruct (Stemming.contains_vowel _); [|done].
    apply step1b_post_enough. lia. }
  destruct (endswith word (lit "ing")); [|done].
  rewrite contains_vowel_enough by lia. simpl.
  destruct (Stemming.contains_vowel _); [|done].
  apply step1b_post_enough. lia.
Qed.

Lemma step1c_cases frames word :
  StemmingFrames.step1c frames word = None ∨
  StemmingFrames.step1c frames word = Some (Stemming.step1c word).
Proof.
  unfold StemmingFrames.step1c, Stemming.step1c.
  destruct (endswith word (lit "y")); [|by right].
  destruct (contains_vowel_cases frames (drop_last 1 word)) as [-> | ->];
    [by left|by right].
Qed.

Lemma step1c_enough frames word :
  length word < frames →
  StemmingFrames.step1c frames word = Some (Stemming.step1c word).
Proof.
  intros Hlen. unfold StemmingFrames.step1c, Stemming.step1c.
  pose proof (drop_last_le 1 word).
  destruct (endswith word (lit "y")); [|done].
  by rewrite contains_vowel_enough by lia.
Qed.

Lemma replace_suffix_cases frames rules word :
  StemmingFrames.replace_suffix frames rules word = None ∨
  StemmingFrames.replace_suffix frames rules word
  = Some (Stemming.replace_suffix rules word).
Proof.
  induction rules as [|[suffix replacement] rules IH]; simpl; [by right|].
  destruct (endswith word suffix); [|done].
  destruct (measure_cases frames (drop_last (length suffix) word))
    as [-> | ->]; [by left|by right].
Qed.

Lemma replace_suffix_enough frames rules word :
  length word < frames →
  StemmingFrames.replace_suffix frames rules word
  = Some (Stemming.replace_suffix rules word).
Proof.
  intros Hlen.
  induction rules as [|[suffix replacement] rules IH]; simpl; [done|].
  destruct (endswith word suffix); [|done].
  pose proof (drop_last_le (length suffix) word).
  by rewrite measure_enough by lia.
Qed.

Lemma remove_suffix_cases frames rules word :
  StemmingFrames.remove_suffix frames rules word = None ∨
  StemmingFrames.remove_suffix frames rules word
  = Some (Stemming.remove_suffix rules word).
Proof.
  induction rules as [|suffix rules IH]; simpl; [by right|].
  destruct (endswith word suffix); [|done].
  destruct (measure_cases frames (drop_last (length suffix) word))
    as [-> | ->]; [by left|by right].
Qed.

Lemma remove_suffix_enough frames rules word :
  length word < frames →
  StemmingFrames.remove_suffix frames rules word
  = Some (Stemming.remove_suffix rules word).
Proof.
  intros Hlen. induction rules as [|suffix rules IH]; simpl; [done|].
  destruct (endswith word suffix); [|done].
  pose proof (drop_last_le (length suffix) word).
  by rewrite measure_enough by lia.
Qed.

Lemma step5a_cases frames word :
  StemmingFrames.step5a frames word = None ∨
  StemmingFrames.step5a frames word = Some (Stemming.step5a word).
Proof.
  unfold StemmingFrames.step5a, Stemming.step5a. cbn zeta.
  destruct (endswith word (lit "e")); [|by right].
  destruct (measure_cases frames (drop_last 1 word)) as [-> | ->];
    [by left|]. simpl.
  destruct (1 <? _); [by right|]. simpl.
  destruct (_ =? 1); [|by right].
  destruct (cvc_ending_cases frames (drop_last 1 word)) as [-> | ->];
    [by left|by right].
Qed.

Lemma step5a_enough frames word :
  length word < frames →
  StemmingFrames.step5a frames word = Some (Stemming.step5a word).
Proof.
  intros Hlen. unfold StemmingFrames.step5a, Stemming.step5a. cbn zeta.
  pose proof (drop_last_le 1 word).
  destruct (endswith word (lit "e")); [|done].
  rewrite measure_enough by lia. simpl.
  destruct (1 <? _); [done|]. simpl.
  destruct (_ =? 1); [|done].
  by rewrite cvc_ending_enough by lia.
Qed.

Lemma step5b_cases frames word :
  StemmingFrames.step5b frames word = None ∨
  StemmingFrames.step5b frames word = Some (Stemming.step5b word).
Proof.
  unfold StemmingFrames.step5b, Stemming.step5b.
  destruct (measure_cases frames word) as [-> | ->]; [by left|]. simpl.
  destruct (1 <? _); [|by right].
  destruct (ends_double_consonant_cases frames word) as [-> | ->];
    [by left|by right].
Qed.

Lemma step5b_enough frames word :
  length word < frames →
  StemmingFrames.step5b frames word = Some (Stemming.step5b word).
Proof.
  intros Hlen. unfold StemmingFrames.step5b, Stemming.step5b.
  rewrite measure_enough by done. simpl.
  destruct (1 <? _); [|done].
  by rewrite ends_double_consonant_enough by done.
Qed.

Lemma porter_steps_cases frames word :
  StemmingFrames.porter_steps frames word = None ∨
  StemmingFrames.porter_steps frames word = Some (Stemming.porter_steps word).
Proof.
  unfold StemmingFrames.porter_steps, Stemming.porter_steps. cbn zeta.
  destruct (step1b_cases frames (Stemming.step1a word)) as [-> | ->];
    [by left|]. cbn [mbind option_bind].
  destruct (step1c_cases frames (Stemming.step1b (Stemming.step1a word)))
    as [-> | ->]; [by left|]. cbn [mbind option_bind].
  set (w1 := Stemming.step1c _).
  destruct (replace_suffix_cases frames Stemming.step2_rules w1) as [-> | ->];
    [by left|]. cbn [mbind option_bind].
  set (w2 := Stemming.replace_suffix _ w1).
  destruct (replace_suffix_cases frames Stemming.step3_rules w2) as [-> | ->];
    [by left|]. cbn [mbind option_bind].
  set (w3 := Stemming.replace_suffix _ w2).
  destruct (remove_suffix_cases frames Stemming.step4_rules w3) as [-> | ->];
    [by left|]. cbn [mbind option_bind].
  set (w4 := Stemming.remove_suffix _ w3).
  destruct (step5a_cases frames w4) as [-> | ->]; [by left|]. cbn [mbind option_bind].
  apply step5b_cases.
Qed.

Lemma porter_steps_enough frames word :
  length word < frames →
  StemmingFrames.porter_steps frames word = Some (Stemming.porter_steps word).
Proof.
  intros Hlen.
  unfold StemmingFrames.porter_steps, Stemming.porter_steps. cbn zeta.
  pose proof (step1a_length word) as H1.
  set (w1 := Stemming.step1a word) in *.
  pose proof (step1b_length w1) as H2.
  rewrite step1b_enough by lia. cbn [mbind option_bind].
  set (w2 := Stemming.step1b w1) in *.
  pose proof (step1c_length w2) as H3.
  rewrite step1c_enough by lia. cbn [mbind option_bind].
  set (w3 := Stemming.step1c w2) in *.
  pose proof (replace_suffix_length _ w3 step2_rules_shorten) as H4.
  rewrite replace_suffix_enough by lia. cbn [mbind option_bind].
  set (w4 := Stemming.replace_suffix _ w3) in *.
  pose proof (replace_suffix_length _ w4 step3_rules_shorten) as H5.
  rewrite replace_suffix_enough by lia. cbn [mbind option_bind].
  set (w5 := Stemming.replace_suffix _ w4) in *.
  pose proof (remove_suffix_length Stemming.step4_rules w5) as H6.
  rewrite remove_suffix_enough by lia. cbn [mbind option_bind].
  set (w6 := Stemming.remove_suffix _ w5) in *.
  pose proof (step5a_length w6) as H7.
  rewrite step5a_enough by lia. cbn [mbind option_bind].
  apply step5b_enough. lia.
Qed.

(** The stemmer under the recursion limit either raises or returns the
    value of the total stemmer, and it returns when two frames more than
    the word has characters are left. *)
Lemma stem_term_cases frames word :
  StemmingFrames.stem_term frames word = None ∨
  StemmingFrames.stem_term frames word = Some (Stemming.stem_term word).
Proof.
  destruct frames as [|frames]; [by left|].
  unfold StemmingFrames.stem_term, Stemming.stem_term.
  destruct (length word <=? 2); [by right|]. apply porter_steps_cases.
Qed.

Lemma stem_term_enough frames word :
  length word + 2 ≤ frames →
  StemmingFrames.stem_term frames word = Some (Stemming.stem_term word).
Proof.
  intros Hlen. destruct frames as [|frames]; [lia|].
  unfold StemmingFrames.stem_term, Stemming.stem_term.
  destruct (length word <=? 2); [done|].
  apply porter_steps_enough. rewrite lower_length. lia.
Qed.
End recursion_limit.

(** C10 (as amended): for a non-empty input string, whenever [stem_term]
    returns, it returns a non-empty string without upper-case letters;
    and it does return whenever the interpreter can still nest two calls
    more than the word has characters. *)
Theorem stem_term_nonempty_lowercase (frames : nat) (word : str) :
  word ≠ [] →
  (∀ stem, StemmingFrames.stem_term frames word = Some stem →
           stem ≠ [] ∧ no_upper stem) ∧
  (length word + 2 ≤ frames →
   ∃ stem, StemmingFrames.stem_term frames word = Some stem ∧
           stem ≠ [] ∧ no_upper stem).
Proof.
  intros Hne. split.
  - intros stem Hstem.
    destruct (stem_term_cases frames word) as [Hnone|Hsome];
      [congruence|].
    rewrite Hsome in Hstem. injection Hstem as <-.
    split; [by apply stem_term_nonempty|apply stem_term_no_upper].
  - intros Hframes. exists (Stemming.stem_term word).
    split_and!;
      [by apply stem_term_enough|by apply stem_term_nonempty
      |apply stem_term_no_upper].
Qed.

Lemma stem_term_nonempty_lowercase_witness :
  lit "Ies" ≠ [] ∧ length (lit "Ies") + 2 ≤ 1000 ∧
  ∃ stem, StemmingFrames.stem_term 1000 (lit "Ies") = Some stem ∧
          stem ≠ [] ∧ no_upper stem.
Proof.
  assert (lit "Ies" ≠ []) as Hne by discriminate.
  assert (length (lit "Ies") + 2 ≤ 1000) as Hframes by (simpl; lia).
  split; [exact Hne|]. split; [exact Hframes|].
  exact (proj2 (stem_term_nonempty_lowercase 1000 (lit "Ies") Hne) Hframes).
Defined.

(** C10, counterexample: with 1000 frames left, which is all that the
    default recursion limit allows, [stem_term] returns nothing on the
    non-empty token of 999 times "y" followed by "ed": step 1b removes
    "ed" and asks [ends_double_consonant] about the stem, whose call of
    [is_consonant] at the last "y" nests 999 calls where 998 are
    left. *)
Lemma stem_term_recursion_error :
  repeat "y"%char 999 ++ lit "ed" ≠ [] ∧
  StemmingFrames.stem_term 1000 (repeat "y"%char 999 ++ lit "ed") = None.
Proof. split; [discriminate|]. by vm_compute. Qed.

(** With three frames more the same token is stemmed. *)
Example stem_term_enough_frames :
  StemmingFrames.stem_term 1003 (repeat "y"%char 999 ++ lit "ed")
  = Some (Stemming.stem_term (repeat "y"%char 999 ++ lit "ed")).
Proof. apply stem_term_enough. rewrite length_app, repeat_length. simpl. lia. Qed.
